(** * Verification of the prefetching frame cache of [sam2/utils/misc.py]

    The development embeds three classes of the module:

    - [LRACache], the insertion-ordered bounded dictionary;
    - [TaskQueue], the pool of worker threads fed by a FIFO queue;
    - [AsyncVideoFrameLoader], the consumer-facing loader with its
      background scheduling thread [_load_frames].

    Sequential code is embedded as functions with explicit state passing;
    the threads are embedded as an executable interleaving semantics whose
    events are the atomic actions of the consumer, of the scheduling thread
    and of each worker. *)

From Stdlib Require Import String ZArith List Lia Bool Sorted.
Import ListNotations.
Open Scope Z_scope.

Set Implicit Arguments.

(** ** Python exceptions that occur in the module *)

(** [QueueEmpty] is [queue.Empty]; [KeyError] and [IndexError] come from the
    dictionary and from list indexing; [ExternalError] stands for whatever a
    collaborator raises ([cv2], [torch], [tqdm]); [RuntimeError msg cause] is
    [raise RuntimeError(msg) from cause]. *)
Inductive exn : Type :=
| QueueEmpty
| KeyError (key : Z)
| IndexError (index : Z)
| ExternalError (what : string)
| RuntimeError (msg : string) (cause : exn).

Definition is_QueueEmpty (e : exn) : bool :=
  match e with QueueEmpty => true | _ => false end.

(** Result of a call that may raise. *)
Inductive result (A : Type) : Type :=
| Ok (a : A)
| Raise (e : exn).
Arguments Ok {A} a.
Arguments Raise {A} e.

(** ** [LRACache]: an [OrderedDict] with a size limit *)

Module LRACache.

Section Dict.
Variable V : Type.

(** The entries of an [OrderedDict], in iteration order: the entry that
    was inserted first comes first.  A dictionary holds a key once. *)
Definition odict := list (Z * V).

Definition keys (d : odict) : list Z := map fst d.

(** [key in d] *)
Fixpoint contains (d : odict) (key : Z) : bool :=
  match d with
  | [] => false
  | (k, _) :: r => if k =? key then true else contains r key
  end.

(** [OrderedDict.__getitem__]; [None] is [KeyError]. *)
Fixpoint od_get (d : odict) (key : Z) : option V :=
  match d with
  | [] => None
  | (k, v) :: r => if k =? key then Some v else od_get r key
  end.

(** [OrderedDict.__setitem__]: a key already present keeps its place and
    takes the new value, a new key goes to the end. *)
Fixpoint od_set (d : odict) (key : Z) (value : V) : odict :=
  match d with
  | [] => [(key, value)]
  | (k, v) :: r =>
      if k =? key then (k, value) :: r else (k, v) :: od_set r key value
  end.

(** [del d[key]] for a key of [d]. *)
Definition od_del (d : odict) (key : Z) : odict :=
  filter (fun kv => negb (fst kv =? key)) d.

(** The object: the dictionary and its [maxsize] attribute. *)
Record t : Type := mk { maxsize : Z; items : odict }.

(** [LRACache(maxsize)] *)
Definition __init__ (maxsize : Z) : t := mk maxsize [].

(** [len(self)] *)
Definition __len__ (c : t) : Z := Z.of_nat (length (items c)).

(** [LRACache.__getitem__] *)
Definition __getitem__ (c : t) (key : Z) : result V :=
  match od_get (items c) key with
  | Some v => Ok v
  | None => Raise (KeyError key)
  end.

(** [LRACache.__setitem__]:
<<
    super().__setitem__(key, value)
    if len(self) > self.maxsize:
        oldest = next(iter(self))
        del self[oldest]
>> *)
Definition __setitem__ (c : t) (key : Z) (value : V) : t :=
  let d := od_set (items c) key value in
  if Z.of_nat (length d) >? maxsize c then
    match d with
    | [] => mk (maxsize c) d
    | (oldest, _) :: _ => mk (maxsize c) (od_del d oldest)
    end
  else mk (maxsize c) d.

(** [del self[key]] *)
Definition __delitem__ (c : t) (key : Z) : t :=
  mk (maxsize c) (od_del (items c) key).

Definition __contains__ (c : t) (key : Z) : bool := contains (items c) key.

(** Keys are held once. *)
Definition wf (c : t) : Prop := NoDup (keys (items c)).

(** The key that [__setitem__] evicts, if it evicts one. *)
Definition evicted (c : t) (key : Z) (value : V) : option Z :=
  let d := od_set (items c) key value in
  if Z.of_nat (length d) >? maxsize c then
    match d with [] => None | (oldest, _) :: _ => Some oldest end
  else None.

End Dict.

(** *** Ghost insertion stamps

    To speak of the oldest-inserted entry, a history of dictionary
    operations is replayed on a cache whose values carry, next to the value
    the code stores, the number of the operation that brought the key in.
    The stamped cache runs the same [__setitem__] and [__delitem__]; erasing the
    stamps gives back the cache of the code. *)

Section Stamped.
Variable V : Type.

Inductive op : Type :=
| Insert (key : Z) (value : V)   (* cache[key] = value *)
| Read (key : Z)                 (* cache[key] *)
| Delete (key : Z).              (* del cache[key] *)

(** The code. *)
Definition apply (c : t V) (o : op) : t V :=
  match o with
  | Insert k v => __setitem__ c k v
  | Read _ => c
  | Delete k => __delitem__ c k
  end.

Definition run (c : t V) (ops : list op) : t V := fold_left apply ops c.

(** The code on stamped values: an insertion of a key already present
    keeps the stamp it has, a new key is stamped with the clock. *)
Definition stamp_for (clock : nat) (c : t (nat * V)) (key : Z) : nat :=
  match od_get (items c) key with
  | Some (born, _) => born
  | None => clock
  end.

Definition stamped_set (clock : nat) (c : t (nat * V)) (key : Z) (value : V)
  : t (nat * V) :=
  __setitem__ c key (stamp_for clock c key, value).

Definition apply_stamped (clock : nat) (c : t (nat * V)) (o : op)
  : t (nat * V) :=
  match o with
  | Insert k v => stamped_set clock c k v
  | Read _ => c
  | Delete k => __delitem__ c k
  end.

Fixpoint replay (clock : nat) (c : t (nat * V)) (ops : list op)
  : t (nat * V) :=
  match ops with
  | [] => c
  | o :: r => replay (S clock) (apply_stamped clock c o) r
  end.

Definition erase (c : t (nat * V)) : t V :=
  mk (maxsize c) (map (fun kv => (fst kv, snd (snd kv))) (items c)).

Definition stamps (d : odict (nat * V)) : list nat :=
  map (fun kv => fst (snd kv)) d.

(** The stamp of a key of the stamped dictionary. *)
Definition born (c : t (nat * V)) (key : Z) : option nat :=
  option_map fst (od_get (items c) key).

(** Stamps grow along the dictionary and lie below the clock, and keys are
    held once. *)
Definition ordered (clock : nat) (c : t (nat * V)) : Prop :=
  StronglySorted lt (stamps (items c)) /\
  Forall (fun t => (t < clock)%nat) (stamps (items c)) /\
  NoDup (keys (items c)).

(** Every stamp names the operation of the history that inserted the key. *)
Definition anchored (hist : list op) (c : t (nat * V)) : Prop :=
  forall k t, born c k = Some t ->
              exists v, nth_error hist t = Some (Insert k v).

End Stamped.

End LRACache.

(** ** Python list indexing, with negative indices counted from the end *)

Definition list_index (A : Type) (l : list A) (i : Z) : result A :=
  let n := Z.of_nat (length l) in
  let j := if i <? 0 then i + n else i in
  if (0 <=? j) && (j <? n) then
    match nth_error l (Z.to_nat j) with
    | Some x => Ok x
    | None => Raise (IndexError i)
    end
  else Raise (IndexError i).

(** ** The collaborators and constructor arguments of the loader *)

(** [_load_img_as_tensor] reads and decodes one image and returns the tensor
    with the height and width, or raises; [normalize] is the arithmetic of
    [_load_frame] on the tensor ([img -= img_mean], [img /= img_std] and the
    transfer to the compute device); [pbar_refresh] is the progress bar
    ([pbar.n = current_frame; pbar.refresh()]), [Some e] when it raises.
    The other fields are the constructor arguments the model reads. *)
Record env (Tensor : Type) : Type := mkEnv {
  img_paths : list string;
  cache_size : Z;
  _load_img_as_tensor : string -> result (Tensor * Z * Z);
  normalize : Tensor -> Tensor;
  pbar_refresh : Z -> option exn
}.

(** ** [AsyncVideoFrameLoader]: the attributes the methods read and write *)

Module AsyncVideoFrameLoader.

Section Loader.
Variable Tensor : Type.
Variable E : env Tensor.

(** [tasks] is the queue of [self.task_queue]: every task the loader submits
    is [(frame, self._load_frame)], so a task is recorded by its frame.
    [loader_calls] is not an attribute: it lists, in order, the indices for
    which [_load_img_as_tensor] has been called (a call counter). *)
Record state : Type := mkState {
  images : LRACache.t Tensor;
  exception : option exn;
  video_height : option Z;
  video_width : option Z;
  last_accessed_frame : Z;
  tasks : list Z;
  loader_calls : list Z
}.

Definition set_images (c : LRACache.t Tensor) (s : state) : state :=
  mkState c (exception s) (video_height s) (video_width s)
          (last_accessed_frame s) (tasks s) (loader_calls s).

Definition set_exception (e : exn) (s : state) : state :=
  mkState (images s) (Some e) (video_height s) (video_width s)
          (last_accessed_frame s) (tasks s) (loader_calls s).

Definition set_video_size (h w : Z) (s : state) : state :=
  mkState (images s) (exception s) (Some h) (Some w)
          (last_accessed_frame s) (tasks s) (loader_calls s).

Definition set_last_accessed_frame (index : Z) (s : state) : state :=
  mkState (images s) (exception s) (video_height s) (video_width s)
          index (tasks s) (loader_calls s).

Definition set_tasks (q : list Z) (s : state) : state :=
  mkState (images s) (exception s) (video_height s) (video_width s)
          (last_accessed_frame s) q (loader_calls s).

Definition count_call (index : Z) (s : state) : state :=
  mkState (images s) (exception s) (video_height s) (video_width s)
          (last_accessed_frame s) (tasks s) (loader_calls s ++ [index]).

(** [TaskQueue.add_task]: [self.tasks.put(task)] on an unbounded queue. *)
Definition add_task (frame : Z) (s : state) : state :=
  set_tasks (tasks s ++ [frame]) s.

(** *** [_load_frame]
<<
    img, video_height, video_width = _load_img_as_tensor(
        self.img_paths[index], self.image_size)
    self.video_height = video_height
    self.video_width = video_width
    img -= self.img_mean
    img /= self.img_std
    if not self.offload_video_to_cpu:
        img = img.to(self.compute_device, non_blocking=True)
    self.images[index] = img
>>
    [fetch] is the first statement.  The method is cut where it calls the
    loader: [load_started] is the call being issued, [load_finished] is
    everything from the loader's return to the store into [self.images].
    A thread that runs alone does both at once ([_load_frame]); in the
    interleaving semantics other threads may run in between. *)
Definition fetch (index : Z) : result (Tensor * Z * Z) :=
  match list_index (img_paths E) index with
  | Raise e => Raise e
  | Ok path => _load_img_as_tensor E path
  end.

Definition load_started (index : Z) (s : state) : state :=
  match list_index (img_paths E) index with
  | Ok _ => count_call index s
  | Raise _ => s
  end.

Definition load_finished (index : Z) (s : state) : result unit * state :=
  match fetch index with
  | Raise e => (Raise e, s)
  | Ok (img, video_height, video_width) =>
      let s1 := set_video_size video_height video_width s in
      let img := normalize E img in
      (Ok tt, set_images (LRACache.__setitem__ (images s1) index img) s1)
  end.

Definition _load_frame (index : Z) (s : state) : result unit * state :=
  load_finished index (load_started index s).

(** *** [__getitem__]
<<
    if self.exception:
        raise RuntimeError("Failure in frame loading thread") from self.exception
    self.last_accessed_frame = index
    if index not in self.images:
        self._load_frame(index)
        return self.images[index]
    else:
        res = self.images[index]
        del self.images[index]
        return res
>> *)
Definition failure_message : string := "Failure in frame loading thread".

(** The read-back [return self.images[index]] of the miss branch. *)
Definition read_back (index : Z) (r : result unit * state)
  : result Tensor * state :=
  match r with
  | (Raise e, s) => (Raise e, s)
  | (Ok _, s) => (LRACache.__getitem__ (images s) index, s)
  end.

Definition on_miss (index : Z) (s : state) : result Tensor * state :=
  read_back index (_load_frame index s).

Definition on_hit (index : Z) (s : state) : result Tensor * state :=
  match LRACache.__getitem__ (images s) index with
  | Ok res => (Ok res, set_images (LRACache.__delitem__ (images s) index) s)
  | Raise e => (Raise e, s)
  end.

Definition __getitem__ (index : Z) (s : state) : result Tensor * state :=
  match exception s with
  | Some cause => (Raise (RuntimeError failure_message cause), s)
  | None =>
      let s := set_last_accessed_frame index s in
      if negb (LRACache.__contains__ (images s) index) then on_miss index s
      else on_hit index s
  end.

(** [__len__] *)
Definition __len__ : Z := Z.of_nat (length (img_paths E)).

(** *** [__init__]

    The attributes are set, the workers of the task queue are started on an
    empty queue, the first frame is fetched with [__getitem__], and only
    then is the scheduling thread started.  [__init__] is the constructor up to
    the start of that thread; it raises what [__getitem__] raises. *)
Definition fresh (start_frame : Z) : state :=
  mkState (LRACache.__init__ Tensor (cache_size E)) None None None
          start_frame [] [].

Definition __init__ (start_frame : Z) : result state :=
  match __getitem__ start_frame (fresh start_frame) with
  | (Raise e, _) => Raise e
  | (Ok _, s) => Ok s
  end.

(** *** [_load_frames], the scheduling thread
<<
    try:
        K = int(self.cache_size * 0.75)
        with tqdm(...) as pbar:
            just_ran = None
            while True:
                current_frame = self.last_accessed_frame
                end_frame = min(current_frame + K, len(self.img_paths))
                for frame in range(current_frame, end_frame):
                    if frame not in self.images:
                        self.task_queue.add_task((frame, self._load_frame))
                pbar.n = current_frame
                pbar.refresh()
                just_ran = current_frame
                while just_ran == self.last_accessed_frame:
                    time.sleep(0.1)
    except Exception as e:
        self.exception = e
>>
    [K = int(self.cache_size * 0.75)]: [int] truncates toward zero, and the
    product is the exact [3 * cache_size / 4] as long as [3 * cache_size] is
    below [2^53], which the model takes for granted. *)
Definition K : Z := Z.quot (3 * cache_size E) 4.

(** Where the thread is: before its first iteration; inside the [for] of
    the iteration that read [current_frame], about to test [frame], with
    the bound [end_frame] it computed; in the [while] that sleeps until the
    cursor moves; or gone after the [except] clause. *)
Inductive scheduler : Type :=
| SStart
| SFor (current_frame frame end_frame : Z)
| SWait (just_ran : Z)
| SExited.

(** The head of an iteration:
<<
    current_frame = self.last_accessed_frame
    end_frame = min(current_frame + K, len(self.img_paths))
>> *)
Definition begin_iteration (s : state) : scheduler :=
  let current_frame := last_accessed_frame s in
  SFor current_frame current_frame (Z.min (current_frame + K) __len__).

(** One step of [_load_frames]: the head of an iteration, one turn of the
    [for] (the membership test and the submission), the progress bar after
    the [for] with the [except] clause when it raises, or one turn of the
    waiting [while]. *)
Definition _load_frames_step (p : scheduler) (s : state)
  : scheduler * state :=
  match p with
  | SStart => (begin_iteration s, s)
  | SFor current_frame frame end_frame =>
      if frame <? end_frame then
        (SFor current_frame (frame + 1) end_frame,
         if negb (LRACache.__contains__ (images s) frame)
         then add_task frame s else s)
      else
        match pbar_refresh E current_frame with
        | Some e => (SExited, set_exception e s)
        | None => (SWait current_frame, s)
        end
  | SWait just_ran =>
      if just_ran =? last_accessed_frame s then (SWait just_ran, s)
      else (begin_iteration s, s)
  | SExited => (SExited, s)
  end.

(** *** [TaskQueue._worker]
<<
    while True:
        try:
            frame, func = self.tasks.get(timeout=1)
            func(frame)
            self.tasks.task_done()
        except queue.Empty:
            continue
>>
    A worker waits at [get], is inside [func(frame)], or has ended with the
    exception that left the loop.  A [get] on an empty queue raises
    [queue.Empty] after its time-out and the loop goes round.  [task_done]
    only counts down the unfinished tasks of the queue, which nothing
    reads, and is left out. *)
Inductive worker : Type :=
| WWaiting
| WLoading (frame : Z)
| WTerminated (e : exn).

(** One step of [_worker]: the [get], with the call of the loader that
    [func(frame)] starts with, or the rest of [func(frame)] and the way the
    iteration ends. *)
Definition _worker_step (w : worker) (s : state) : worker * state :=
  match w with
  | WWaiting =>
      match tasks s with
      | [] => (WWaiting, s)
      | frame :: q => (WLoading frame, load_started frame (set_tasks q s))
      end
  | WLoading frame =>
      match load_finished frame s with
      | (Ok _, s') => (WWaiting, s')
      | (Raise e, s') =>
          if is_QueueEmpty e then (WWaiting, s') else (WTerminated e, s')
      end
  | WTerminated e => (WTerminated e, s)
  end.

(** [_worker] running alone for [n] steps. *)
Fixpoint _worker (n : nat) (w : worker) (s : state) : worker * state :=
  match n with
  | O => (w, s)
  | S n => let (w', s') := _worker_step w s in _worker n w' s'
  end.

(** *** The threads together

    The consumer is the thread that calls [__getitem__]; it is either
    between calls or inside the [_load_frame] of a miss.  [returned] lists
    what its calls returned or raised.

    An event is one thread running from one loader call, queue operation
    or loop test to the next; the threads interleave between events, so a
    load of one thread overlaps any number of steps of the others. *)
Inductive consumer : Type :=
| CReady
| CLoading (index : Z).

Record system : Type := mkSystem {
  shared : state;
  workers : list worker;
  prefetch : scheduler;
  main : consumer;
  returned : list (Z * result Tensor)
}.

Inductive event : Type :=
| EvGet (index : Z)       (* the consumer calls [self[index]] *)
| EvResume                (* the loader returns to the consumer *)
| EvScheduler             (* the scheduling thread takes a step *)
| EvWorker (n : nat).     (* worker [n] takes a step *)

Definition num_workers : nat := 10.

(** [__getitem__] up to the call of the loader. *)
Definition get_enter (index : Z) (g : system) : system :=
  let s := shared g in
  match exception s with
  | Some cause =>
      mkSystem s (workers g) (prefetch g) CReady
        (returned g ++ [(index, Raise (RuntimeError failure_message cause))])
  | None =>
      let s := set_last_accessed_frame index s in
      if negb (LRACache.__contains__ (images s) index) then
        mkSystem (load_started index s) (workers g) (prefetch g)
                 (CLoading index) (returned g)
      else
        let (r, s') := on_hit index s in
        mkSystem s' (workers g) (prefetch g) CReady
                 (returned g ++ [(index, r)])
  end.

(** [__getitem__] from the return of the loader. *)
Definition get_resume (index : Z) (g : system) : system :=
  let (r, s') := read_back index (load_finished index (shared g)) in
  mkSystem s' (workers g) (prefetch g) CReady (returned g ++ [(index, r)]).

Fixpoint update_nth (A : Type) (n : nat) (x : A) (l : list A) : list A :=
  match l, n with
  | [], _ => []
  | _ :: r, O => x :: r
  | y :: r, S n => y :: update_nth n x r
  end.

Definition exec (ev : event) (g : system) : system :=
  match ev with
  | EvGet index =>
      match main g with
      | CReady => get_enter index g
      | CLoading _ => g
      end
  | EvResume =>
      match main g with
      | CReady => g
      | CLoading index => get_resume index g
      end
  | EvScheduler =>
      let (p, s) := _load_frames_step (prefetch g) (shared g) in
      mkSystem s (workers g) p (main g) (returned g)
  | EvWorker n =>
      match nth_error (workers g) n with
      | None => g
      | Some w =>
          let (w', s) := _worker_step w (shared g) in
          mkSystem s (update_nth n w' (workers g)) (prefetch g) (main g)
                   (returned g)
      end
  end.

Definition run (evs : list event) (g : system) : system :=
  fold_left (fun g ev => exec ev g) evs g.

(** The object as the constructor leaves it, with all its threads. *)
Definition boot (start_frame : Z) : result system :=
  match __init__ start_frame with
  | Raise e => Raise e
  | Ok s => Ok (mkSystem s (repeat WWaiting num_workers) SStart CReady [])
  end.

(** The indices whose load is in progress, thread by thread. *)
Definition loading_of_worker (w : worker) : list Z :=
  match w with WLoading frame => [frame] | _ => [] end.



(** The indices a step of the scheduling thread hands to [add_task]. *)
Definition submitted (g : system) : list Z :=
  match prefetch g with
  | SFor _ frame end_frame =>
      if (frame <? end_frame)
         && negb (LRACache.__contains__ (images (shared g)) frame)
      then [frame] else []
  | _ => []
  end.

(** A worker gets past a task when its load returns or raises the one
    exception the loop catches. *)
Definition survivable (frame : Z) : bool :=
  match fetch frame with
  | Ok _ => true
  | Raise e => is_QueueEmpty e
  end.

(** Events of the background threads. *)
Definition background (ev : event) : Prop :=
  match ev with
  | EvScheduler | EvWorker _ => True
  | EvGet _ | EvResume => False
  end.


(** The scheduling thread inside a [for] holds the bound it computed from
    the cursor it read, and the frame it is at is not before that cursor. *)
Definition scheduler_ok (g : system) : Prop :=
  match prefetch g with
  | SFor current_frame frame end_frame =>
      end_frame = Z.min (current_frame + K) __len__ /\ current_frame <= frame
  | _ => True
  end.

(** *** The first window

    Right after the constructor, and until the consumer calls again, the
    cursor is [start] and the background threads work on the frames after
    [start] of the window of [start]. *)
Definition in_first_window (start i : Z) : Prop :=
  start < i < Z.min (start + K) __len__.

Record eager (start : Z) (frame0 : Tensor) (g : system) : Prop := {
  eager_cursor : last_accessed_frame (shared g) = start;
  eager_cached :
    LRACache.od_get (LRACache.items (images (shared g))) start = Some frame0;
  eager_wf : LRACache.wf (images (shared g));
  eager_keys :
    forall k, In k (LRACache.keys (LRACache.items (images (shared g)))) ->
              k = start \/ in_first_window start k;
  eager_tasks :
    forall i, In i (tasks (shared g)) -> in_first_window start i;
  eager_workers :
    forall i, In i (flat_map loading_of_worker (workers g)) ->
              in_first_window start i;
  eager_calls :
    count_occ Z.eq_dec (loader_calls (shared g)) start = 1%nat;
  eager_room :
    LRACache.maxsize (images (shared g)) = cache_size E /\
    1 <= cache_size E;
  eager_scheduler :
    match prefetch g with
    | SFor current_frame frame end_frame =>
        current_frame = start /\ end_frame = Z.min (start + K) __len__ /\
        start <= frame
    | SWait just_ran => just_ran = start
    | _ => True
    end;
  eager_main : main g = CReady;
  eager_returned : returned g = []
}.

End Loader.

End AsyncVideoFrameLoader.

(** ** Concrete sessions used to run the model *)

Module Demo.

(** A frame path is one character whose code is the frame number; the
    tensor of a frame is that number, the loader fails on frame [bad], and
    normalisation adds 1000. *)
Definition path_of (i : nat) : string :=
  String (Ascii.ascii_of_nat i) EmptyString.

Definition frame_of (p : string) : Z :=
  match p with
  | String a _ => Z.of_nat (Ascii.nat_of_ascii a)
  | EmptyString => 0
  end.

Definition loader (bad : Z) (p : string) : result (Z * Z * Z) :=
  if frame_of p =? bad then Raise (ExternalError "cv2.error")
  else Ok (frame_of p, 720, 1280).

Definition session (frames : nat) (cache_size bad : Z) : env Z :=
  mkEnv (map path_of (seq 0 frames)) cache_size (loader bad)
        (fun img => img + 1000) (fun _ => None).

(** A session whose progress bar raises at frame [at_frame]. *)
Definition broken_bar (frames : nat) (cache_size at_frame : Z) : env Z :=
  mkEnv (map path_of (seq 0 frames)) cache_size (loader (-1))
        (fun img => img + 1000)
        (fun n => if n =? at_frame then Some (ExternalError "tqdm") else None).

(** Ten frames, room for four, every frame loads. *)
Definition small : env Z := session 10 4 (-1).

(** Ten frames, room for four, and a progress bar that raises at once. *)
Definition small_broken : env Z := broken_bar 10 4 0.

(** Ten frames and a cache without room. *)
Definition roomless : env Z := session 10 0 (-1).

(** The loader after its constructor ran with [start_frame], all threads
    started; a constructor that raises leaves no object, which is shown as
    a system whose threads are gone. *)
Definition started (E : env Z) (start_frame : Z)
  : AsyncVideoFrameLoader.system Z :=
  match AsyncVideoFrameLoader.boot E start_frame with
  | Ok g => g
  | Raise _ =>
      AsyncVideoFrameLoader.mkSystem
        (AsyncVideoFrameLoader.fresh E start_frame) []
        AsyncVideoFrameLoader.SExited AsyncVideoFrameLoader.CReady []
  end.

(** The scheduling thread of [small_broken] runs its first window and
    then meets the failing progress bar. *)
Definition poisoned : AsyncVideoFrameLoader.system Z :=
  AsyncVideoFrameLoader.run small_broken
    (repeat AsyncVideoFrameLoader.EvScheduler 5) (started small_broken 0).

(** Ten frames, room for eight; frame 2 does not load. *)
Definition small_bad : env Z := session 10 8 2.


(** Two hundred frames, room for a hundred, frame 50 does not load.  The
    scheduling thread queues its first window, frames 1 to 74, and worker 0
    takes the tasks one after the other until the task of frame 50 ends
    it. *)
Definition failing : env Z := session 200 100 50.

Definition after_failure : AsyncVideoFrameLoader.system Z :=
  AsyncVideoFrameLoader.run failing
    (repeat AsyncVideoFrameLoader.EvScheduler 77
     ++ repeat (AsyncVideoFrameLoader.EvWorker 0) 100)
    (started failing 0).

End Demo.

(** ** Further operations used to state properties of the modelled code *)

Module Uses.

(** [for key, value in kvs: cache[key] = value] *)
Definition store_all (V : Type) (c : LRACache.t V) (kvs : list (Z * V))
  : LRACache.t V :=
  fold_left (fun c kv => LRACache.__setitem__ c (fst kv) (snd kv)) kvs c.

(** The last [n] elements of a list. *)
Definition lastn (A : Type) (n : nat) (l : list A) : list A :=
  skipn (length l - n) l.

End Uses.

(** Threads of the loader running alone, and what a run of events asks. *)

Module Threads.

Section Threads.
Import AsyncVideoFrameLoader.
Variable Tensor : Type.
Variable E : env Tensor.

(** [_load_frames] running alone for [n] steps. *)
Fixpoint _load_frames (n : nat) (p : scheduler) (s : state Tensor)
  : scheduler * state Tensor :=
  match n with
  | O => (p, s)
  | S n => let (p', s') := _load_frames_step E p s in _load_frames n p' s'
  end.

(** [range(a, b)] *)
Definition range (a b : Z) : list Z :=
  map (fun j => a + Z.of_nat j) (seq 0 (Z.to_nat (b - a))).

(** The frames of [range(current_frame, end_frame)] that are not in the
    cache of [s]. *)
Definition uncached (s : state Tensor) (a b : Z) : list Z :=
  filter (fun frame => negb (LRACache.__contains__ (images s) frame))
         (range a b).

(** The indices of the [get] calls among the events. *)
Definition gets (evs : list event) : list Z :=
  flat_map (fun ev => match ev with EvGet index => [index] | _ => [] end) evs.

(** What the calls for [indices] get from a loader whose background error
    is [cause]. *)
Definition failures (cause : exn) (indices : list Z)
  : list (Z * result Tensor) :=
  map (fun index => (index, Raise (RuntimeError failure_message cause)))
      indices.

(** [self.img_paths[index]] does not raise. *)
Definition valid_index (index : Z) : bool :=
  match list_index (img_paths E) index with
  | Ok _ => true
  | Raise _ => false
  end.


End Threads.

End Threads.

(** ** The module-level functions *)

(** What the module-level functions raise: their own [assert] and [raise]
    statements, [ValueError] from [int], an error of [torch] (a reduction
    over an empty dimension, a concatenation of tensors whose shapes do
    not agree), or an exception of the loader. *)
Inductive raised : Type :=
| AssertionError (msg : string)
| NotImplementedError
| RuntimeErrorMsg (msg : string)
| ValueError (arg : string)
| TorchError
| Raised (e : exn).

Inductive outcome (A : Type) : Type :=
| Return (a : A)
| Throw (e : raised).
Arguments Return {A} a.
Arguments Throw {A} e.

(** *** [get_sdpa_settings]
<<
    if torch.cuda.is_available():
        old_gpu = torch.cuda.get_device_properties(0).major < 7
        use_flash_attn = torch.cuda.get_device_properties(0).major >= 8
        if not use_flash_attn:
            warnings.warn("Flash Attention is disabled ...")
        pytorch_version = tuple(int(v) for v in torch.__version__.split(".")[:2])
        if pytorch_version < (2, 2):
            warnings.warn("You are using PyTorch ... without Flash Attention v2 support. ...")
        math_kernel_on = pytorch_version < (2, 2) or not use_flash_attn
    else:
        old_gpu = True
        use_flash_attn = False
        math_kernel_on = True
    return old_gpu, use_flash_attn, math_kernel_on
>>
    The function reads the machine: [cuda] is [None] when CUDA is not
    available and otherwise the major compute capability of device 0;
    [pytorch_version] is the tuple read from [torch.__version__].  The
    result is the triple returned and the warnings issued, in order (the
    [print] is left out). *)
Module Sdpa.

(** Python's [<] on tuples of integers. *)
Fixpoint tuple_lt (a b : list Z) : bool :=
  match a, b with
  | _, [] => false
  | [], _ :: _ => true
  | x :: a', y :: b' =>
      if x <? y then true else if y <? x then false else tuple_lt a' b'
  end.

Inductive warning : Type :=
| FlashAttentionDisabled
| NoFlashAttentionV2.

Definition get_sdpa_settings (cuda : option Z) (pytorch_version : list Z)
  : (bool * bool * bool) * list warning :=
  match cuda with
  | Some major =>
      let old_gpu := major <? 7 in
      let use_flash_attn := major >=? 8 in
      let w1 := if negb use_flash_attn then [FlashAttentionDisabled] else [] in
      let w2 :=
        if tuple_lt pytorch_version [2; 2] then [NoFlashAttentionV2] else [] in
      let math_kernel_on :=
        tuple_lt pytorch_version [2; 2] || negb use_flash_attn in
      ((old_gpu, use_flash_attn, math_kernel_on), w1 ++ w2)
  | None => ((true, false, true), [])
  end.

End Sdpa.

(** *** [mask_to_box]
<<
    B, _, h, w = masks.shape
    xs = torch.arange(w, ...); ys = torch.arange(h, ...)
    grid_xs, grid_ys = torch.meshgrid(xs, ys, indexing="xy")
    grid_xs = grid_xs[None, None, ...].expand(B, 1, h, w)
    grid_ys = grid_ys[None, None, ...].expand(B, 1, h, w)
    min_xs, _ = torch.min(torch.where(masks, grid_xs, w).flatten(-2), dim=-1)
    max_xs, _ = torch.max(torch.where(masks, grid_xs, -1).flatten(-2), dim=-1)
    min_ys, _ = torch.min(torch.where(masks, grid_ys, h).flatten(-2), dim=-1)
    max_ys, _ = torch.max(torch.where(masks, grid_ys, -1).flatten(-2), dim=-1)
    bbox_coords = torch.stack((min_xs, min_ys, max_xs, max_ys), dim=-1)
>>
    A boolean tensor of shape [(B, 1, h, w)] is its shape and its entries,
    [at b y x] being [masks[b, 0, y, x]].  With ["xy"] indexing
    [grid_xs[y, x] = x] and [grid_ys[y, x] = y].  A reduction over an empty
    dimension raises. *)
Module MaskToBox.

Record masks : Type := mkMasks {
  B : nat;
  h : nat;
  w : nat;
  at_ : nat -> nat -> nat -> bool
}.

(** The positions [(y, x)] of one mask in the order of [flatten(-2)]. *)
Definition positions (m : masks) : list (nat * nat) :=
  list_prod (seq 0 (h m)) (seq 0 (w m)).

(** [torch.where(masks, grid, other).flatten(-2)[b, 0]] *)
Definition where_ (m : masks) (b : nat) (grid : nat * nat -> Z) (other : Z)
  : list Z :=
  map (fun p => if at_ m b (fst p) (snd p) then grid p else other)
      (positions m).

Definition grid_xs (p : nat * nat) : Z := Z.of_nat (snd p).
Definition grid_ys (p : nat * nat) : Z := Z.of_nat (fst p).

(** [torch.min] and [torch.max] along a dimension. *)
Definition minimum (l : list Z) : outcome Z :=
  match l with
  | [] => Throw TorchError
  | x :: r => Return (fold_left Z.min r x)
  end.

Definition maximum (l : list Z) : outcome Z :=
  match l with
  | [] => Throw TorchError
  | x :: r => Return (fold_left Z.max r x)
  end.

(** [bbox_coords[b, 0]] *)
Definition box (m : masks) (b : nat) : outcome (Z * Z * Z * Z) :=
  match minimum (where_ m b grid_xs (Z.of_nat (w m))),
        maximum (where_ m b grid_xs (-1)),
        minimum (where_ m b grid_ys (Z.of_nat (h m))),
        maximum (where_ m b grid_ys (-1)) with
  | Return min_x, Return max_x, Return min_y, Return max_y =>
      Return (min_x, min_y, max_x, max_y)
  | _, _, _, _ => Throw TorchError
  end.

(** The results for all batch entries, or the first error. *)
Fixpoint all (A : Type) (l : list (outcome A)) : outcome (list A) :=
  match l with
  | [] => Return []
  | Throw e :: _ => Throw e
  | Return a :: r =>
      match all r with
      | Return l' => Return (a :: l')
      | Throw e => Throw e
      end
  end.

Definition mask_to_box (m : masks) : outcome (list (Z * Z * Z * Z)) :=
  match positions m with
  | [] => Throw TorchError
  | _ :: _ => all (map (box m) (seq 0 (B m)))
  end.

(** The mask of batch entry [b] has a foreground pixel. *)
Definition foreground (m : masks) (b : nat) (y x : nat) : Prop :=
  (y < h m)%nat /\ (x < w m)%nat /\ at_ m b y x = true.

End MaskToBox.

(** *** [concat_points]
<<
    if old_point_inputs is None:
        points, labels = new_points, new_labels
    else:
        points = torch.cat([old_point_inputs["point_coords"], new_points], dim=1)
        labels = torch.cat([old_point_inputs["point_labels"], new_labels], dim=1)
    return {"point_coords": points, "point_labels": labels}
>>
    A tensor of shape [(B, N, ...)] is the list of its [B] rows, each the
    list of its [N] entries; [torch.cat(..., dim=1)] joins the rows pairwise
    and raises when the numbers of rows differ. *)
Module Points.

Section Points.
Variables P L : Type.

Definition tensor (A : Type) : Type := list (list A).

Record point_inputs : Type := mkInputs {
  point_coords : tensor P;
  point_labels : tensor L
}.

Definition cat_dim1 (A : Type) (a b : tensor A) : outcome (tensor A) :=
  if (length a =? length b)%nat
  then Return (map (fun ab => fst ab ++ snd ab) (combine a b))
  else Throw TorchError.

Definition concat_points (old_point_inputs : option point_inputs)
           (new_points : tensor P) (new_labels : tensor L)
  : outcome point_inputs :=
  match old_point_inputs with
  | None => Return (mkInputs new_points new_labels)
  | Some old =>
      match cat_dim1 (point_coords old) new_points with
      | Throw e => Throw e
      | Return points =>
          match cat_dim1 (point_labels old) new_labels with
          | Throw e => Throw e
          | Return labels => Return (mkInputs points labels)
          end
      end
  end.

End Points.

End Points.

(** *** [fill_holes_in_mask_scores]
<<
    assert max_area > 0, "max_area must be positive"
    input_mask = mask
    try:
        labels, areas = get_connected_components(mask <= 0)
        is_hole = (labels > 0) & (areas <= max_area)
        mask = torch.where(is_hole, 0.1, mask)
    except Exception as e:
        warnings.warn(...)
        mask = input_mask
    return mask
>>
    A tensor is the function from its positions to its entries.  The
    scores are floats, of which the function only asks whether they are
    [<= 0] ([nonpositive]) and into which it writes [0.1] ([fill_score]);
    [get_connected_components] is the CUDA kernel, which returns the labels
    and the areas or raises. *)
Module FillHoles.

Section FillHoles.
Variables position score : Type.
Variable nonpositive : score -> bool.
Variable fill_score : score.
Variable get_connected_components :
  (position -> bool) -> result ((position -> Z) * (position -> Z)).

Inductive warning : Type := SkippingPostProcessing (e : exn).

Definition is_hole (labels areas : position -> Z) (max_area : Z)
           (p : position) : bool :=
  (labels p >? 0) && (areas p <=? max_area).

Definition fill_holes_in_mask_scores (mask : position -> score)
           (max_area : Z)
  : outcome ((position -> score) * list warning) :=
  if max_area >? 0 then
    match get_connected_components (fun p => nonpositive (mask p)) with
    | Ok (labels, areas) =>
        Return (fun p => if is_hole labels areas max_area p
                         then fill_score else mask p, [])
    | Raise e => Return (mask, [SkippingPostProcessing e])
    end
  else Throw (AssertionError "max_area must be positive").

End FillHoles.

End FillHoles.


(** Inputs on which the module-level functions are run. *)
Module Examples.

(** Two masks of 2 rows and 3 columns: the first has the pixels
    [(1, 1)] and [(1, 2)]; the second is empty. *)
Definition two_by_three : MaskToBox.masks :=
  MaskToBox.mkMasks 2 2 3
    (fun b y x => (b =? 0)%nat && (y =? 1)%nat && (1 <=? x)%nat).

End Examples.

(** *** [load_video_frames]

    [os.path] is [posixpath]; its two functions used here are translated
    from the standard library:
<<
    def _splitext(p, sep, altsep, extsep):
        sepIndex = p.rfind(sep)
        dotIndex = p.rfind(extsep)
        if dotIndex > sepIndex:
            # skip all leading dots
            filenameIndex = sepIndex + 1
            while filenameIndex < dotIndex:
                if p[filenameIndex:filenameIndex+1] != extsep:
                    return p[:dotIndex], p[dotIndex:]
                filenameIndex += 1
        return p, p[:0]

    def join(a, b):
        if b.startswith(sep):
            path = b
        elif not path or path.endswith(sep):
            path += b
        else:
            path += sep + b
>> *)
Module Posixpath.

Import Ascii.

Definition sep : Ascii.ascii := "/"%char.
Definition extsep : Ascii.ascii := "."%char.

(** [s.rfind(c)] for a character [c]: its last index in [s], or [-1]. *)
Fixpoint rfind (c : Ascii.ascii) (s : string) : Z :=
  match s with
  | EmptyString => -1
  | String a r =>
      let k := rfind c r in
      if k >=? 0 then k + 1 else if Ascii.eqb a c then 0 else -1
  end.

(** [s[:n]] and [s[n:]] for [0 <= n]. *)
Fixpoint take (n : nat) (s : string) : string :=
  match n, s with
  | S n', String a r => String a (take n' r)
  | _, _ => EmptyString
  end.

Fixpoint drop (n : nat) (s : string) : string :=
  match n, s with
  | S n', String _ r => drop n' r
  | _, _ => s
  end.

(** [p[i:i+1] != extsep] *)
Definition not_extsep_at (p : string) (i : Z) : bool :=
  match String.get (Z.to_nat i) p with
  | Some c => negb (Ascii.eqb c extsep)
  | None => true
  end.

(** The [while] loop of [_splitext] and the [return] after it; the loop
    ends within [dotIndex - filenameIndex] rounds. *)
Fixpoint skip_leading_dots (rounds : nat) (p : string)
         (filenameIndex dotIndex : Z) : string * string :=
  match rounds with
  | O => (p, EmptyString)
  | S rounds' =>
      if filenameIndex <? dotIndex then
        if not_extsep_at p filenameIndex
        then (take (Z.to_nat dotIndex) p, drop (Z.to_nat dotIndex) p)
        else skip_leading_dots rounds' p (filenameIndex + 1) dotIndex
      else (p, EmptyString)
  end.

Definition splitext (p : string) : string * string :=
  let sepIndex := rfind sep p in
  let dotIndex := rfind extsep p in
  if dotIndex >? sepIndex
  then skip_leading_dots (Z.to_nat (dotIndex - sepIndex)) p
                         (sepIndex + 1) dotIndex
  else (p, EmptyString).

Definition startswith_sep (s : string) : bool :=
  match s with
  | String a _ => Ascii.eqb a sep
  | EmptyString => false
  end.

Fixpoint endswith_sep (s : string) : bool :=
  match s with
  | EmptyString => false
  | String a EmptyString => Ascii.eqb a sep
  | String _ r => endswith_sep r
  end.

Definition join (a b : string) : string :=
  if startswith_sep b then b
  else if (a =? "")%string || endswith_sep a then (a ++ b)%string
  else (a ++ String sep b)%string.

End Posixpath.

(**
<<
    if isinstance(video_path, str) and os.path.isdir(video_path):
        jpg_folder = video_path
    else:
        raise NotImplementedError(...)
    frame_names = [
        p for p in os.listdir(jpg_folder)
        if os.path.splitext(p)[-1] in [".jpg", ".jpeg", ".JPG", ".JPEG"]
    ]
    frame_names.sort(key=lambda p: int(os.path.splitext(p)[0]))
    num_frames = len(frame_names)
    if num_frames == 0:
        raise RuntimeError(f"no images found in {jpg_folder}")
    img_paths = [os.path.join(jpg_folder, frame_name) for frame_name in frame_names]
    ...
    if async_loading_frames:
        lazy_images = AsyncVideoFrameLoader(img_paths, image_size, ...)
        return lazy_images, lazy_images.video_height, lazy_images.video_width

    images = torch.zeros(num_frames, 3, image_size, image_size, dtype=torch.float32)
    video_height, video_width = None, None

    def load_image(args):
        n, img_path = args
        img, height, width = _load_img_as_tensor(img_path, image_size)
        return n, img, height, width

    with ThreadPoolExecutor() as executor:
        futures = [executor.submit(load_image, (n, img_path)) for n, img_path in enumerate(img_paths)]
        for future in tqdm(as_completed(futures), ...):
            n, img, height, width = future.result()
            images[n] = img
            if video_height is None:
                video_height, video_width = height, width
    ...
    images -= img_mean
    images /= img_std
    return images, video_height, video_width
>>
    The function reads the machine: the file system ([isdir], [listdir]),
    Python's [int] on strings ([None] for [ValueError]), the image reader
    ([load_img] is [_load_img_as_tensor], [normalize_frame] and [refresh]
    are the loader's normalisation and progress bar) and torch.
    [video_path] is any Python value.  In the synchronous
    branch the frames are loaded by a thread pool; [order] is the order in
    which [as_completed] hands over the futures, by frame number.  The
    tensor [images] is the list of its frames: [zeros] is a frame of
    [torch.zeros], [setitem img] is what [images[n] = img] stores into a
    frame, or the error of torch when [img] does not fit, and
    [normalize_all] is the move to the device and the normalisation of one
    frame. *)
Module LoadVideo.

Import AsyncVideoFrameLoader.

Inductive value : Type :=
| Str (s : string)
| NotStr.

Record machine (Tensor : Type) : Type := mkMachine {
  isdir : string -> bool;
  listdir : string -> result (list string);
  int : string -> option Z;
  load_img : string -> result (Tensor * Z * Z);
  normalize_frame : Tensor -> Tensor;
  refresh : Z -> option exn;
  zeros : Tensor;
  setitem : Tensor -> result Tensor;
  normalize_all : Tensor -> Tensor
}.

Section LoadVideo.
Variable Tensor : Type.
Variable M : machine Tensor.

(** [os.path.splitext(p)[-1] in [".jpg", ".jpeg", ".JPG", ".JPEG"]] *)
Definition extensions : list string :=
  [".jpg"; ".jpeg"; ".JPG"; ".JPEG"]%string.

Definition is_frame (p : string) : bool :=
  existsb (String.eqb (snd (Posixpath.splitext p))) extensions.

(** The sort key of a name: [int(os.path.splitext(p)[0])]. *)
Definition key (p : string) : outcome Z :=
  match int M (fst (Posixpath.splitext p)) with
  | Some n => Return n
  | None => Throw (ValueError (fst (Posixpath.splitext p)))
  end.

(** [list.sort(key=...)] computes the key of every element, in list order,
    and then sorts the elements by their keys; the sort is stable. *)
Fixpoint keyed (names : list string) : outcome (list (Z * string)) :=
  match names with
  | [] => Return []
  | p :: rest =>
      match key p with
      | Throw e => Throw e
      | Return n =>
          match keyed rest with
          | Throw e => Throw e
          | Return l => Return ((n, p) :: l)
          end
      end
  end.

Fixpoint insert (x : Z * string) (l : list (Z * string))
  : list (Z * string) :=
  match l with
  | [] => [x]
  | y :: r => if fst x <=? fst y then x :: y :: r else y :: insert x r
  end.

Definition sorted (l : list (Z * string)) : list (Z * string) :=
  fold_right insert [] l.

Definition sort (names : list string) : outcome (list string) :=
  match keyed names with
  | Throw e => Throw e
  | Return l => Return (map snd (sorted l))
  end.

(** What the function returns first: the loader, or the tensor of all
    frames. *)
Inductive video : Type :=
| Lazy (E : env Tensor) (lazy_images : system Tensor)
| Eager (images : list Tensor).

(** The body of the [for] loop over the futures in the order of their
    completion. *)
Fixpoint collect (img_paths : list string) (order : list nat)
         (images : list Tensor) (size : option (Z * Z))
  : outcome (list Tensor * option (Z * Z)) :=
  match order with
  | [] => Return (images, size)
  | n :: rest =>
      match nth_error img_paths n with
      | None => collect img_paths rest images size
      | Some img_path =>
          match load_img M img_path with
          | Raise e => Throw (Raised e)
          | Ok (img, height, width) =>
              match setitem M img with
              | Raise e => Throw (Raised e)
              | Ok frame =>
                  collect img_paths rest (update_nth n frame images)
                          (match size with
                           | None => Some (height, width)
                           | Some _ => size
                           end)
              end
          end
      end
  end.

(** What frame [n] of the tensor holds once its future has been handed
    over. *)
Definition stored (img_paths : list string) (n : nat) (frame : Tensor)
  : Prop :=
  exists img_path img height width,
    nth_error img_paths n = Some img_path /\
    load_img M img_path = Ok (img, height, width) /\
    setitem M img = Ok frame.

(** The paths of the frames, in the order of their numbers. *)
Definition frame_paths (video_path : value) : outcome (list string) :=
  match video_path with
  | Str jpg_folder =>
      if isdir M jpg_folder then
        match listdir M jpg_folder with
        | Raise e => Throw (Raised e)
        | Ok entries =>
            match sort (filter is_frame entries) with
            | Throw e => Throw e
            | Return frame_names =>
                if (length frame_names =? 0)%nat
                then Throw (RuntimeErrorMsg
                              ("no images found in " ++ jpg_folder)%string)
                else Return (map (Posixpath.join jpg_folder) frame_names)
            end
        end
      else Throw NotImplementedError
  | NotStr => Throw NotImplementedError
  end.

Definition load_video_frames (video_path : value)
           (async_loading_frames : bool) (order : list nat)
  : outcome (video * option Z * option Z) :=
  match frame_paths video_path with
  | Throw e => Throw e
  | Return img_paths =>
      if async_loading_frames then
        let E := mkEnv img_paths 200 (load_img M) (normalize_frame M)
                       (refresh M) in
        match boot E 0 with
        | Raise e => Throw (Raised e)
        | Ok lazy_images =>
            Return (Lazy E lazy_images,
                    video_height (shared lazy_images),
                    video_width (shared lazy_images))
        end
      else
        match collect img_paths order
                      (repeat (zeros M) (length img_paths)) None with
        | Throw e => Throw e
        | Return (images, size) =>
            Return (Eager (map (normalize_all M) images),
                    option_map fst size, option_map snd size)
        end
  end.

End LoadVideo.

End LoadVideo.

(** A machine on which [load_video_frames] is run: three folders, an
    [int] that reads decimal digits, and frames as numbers. *)
Module Folder.

Fixpoint digits (s : string) (acc : Z) : option Z :=
  match s with
  | EmptyString => Some acc
  | String c r =>
      let n := Z.of_nat (Ascii.nat_of_ascii c) in
      if (48 <=? n) && (n <=? 57) then digits r (10 * acc + (n - 48))
      else None
  end.

Definition int (s : string) : option Z :=
  match s with
  | EmptyString => None
  | _ => digits s 0
  end.

Definition listdir (folder : string) : result (list string) :=
  if (folder =? "frames")%string then
    Ok ["10.jpg"; "notes.txt"; "2.jpg"; "1.jpeg"; ".jpg"; "01.jpg"]%string
  else if (folder =? "bad")%string then
    Ok ["3.jpg"; "cover.jpg"; "x.jpg"; "readme.md"]%string
  else if (folder =? "empty")%string then Ok ["notes.txt"; "a.png"]%string
  else Raise (ExternalError "FileNotFoundError").

Definition load_img (p : string) : result (Z * Z * Z) :=
  if (p =? "frames/10.jpg")%string then Ok (10, 480, 640)
  else Ok (Z.of_nat (String.length p), 720, 1280).

Definition machine : LoadVideo.machine Z :=
  LoadVideo.mkMachine
    (fun s => match listdir s with Ok _ => true | Raise _ => false end)
    listdir int load_img (fun img => img + 1000) (fun _ => None)
    0 (fun img => Ok img) (fun img => img + 1).

End Folder.
(** * Properties *)

Unset Implicit Arguments.

(** ** The ordered dictionary *)

Section DictFacts.
Import LRACache.
Variable V : Type.


Lemma contains_In (d : odict V) (k : Z) :
  contains d k = true <-> In k (keys d).
Proof.
  induction d as [|[k' v'] r IH]; simpl.
  - split; [discriminate | tauto].
  - destruct (Z.eqb_spec k' k) as [->|Hne].
    + split; auto.
    + rewrite IH. split; [auto | intros [H|H]; [contradiction | assumption]].
Qed.

Lemma contains_false_In (d : odict V) (k : Z) :
  contains d k = false <-> ~ In k (keys d).
Proof.
  rewrite <- contains_In. destruct (contains d k); split; congruence.
Qed.

Lemma od_get_contains (d : odict V) (k : Z) :
  contains d k = true <-> exists v, od_get d k = Some v.
Proof.
  induction d as [|[k' v'] r IH]; simpl.
  - split; [discriminate | intros [v H]; discriminate].
  - destruct (k' =? k); [split; eauto | exact IH].
Qed.

Lemma od_get_None (d : odict V) (k : Z) :
  contains d k = false <-> od_get d k = None.
Proof.
  induction d as [|[k' v'] r IH]; simpl.
  - tauto.
  - destruct (k' =? k); [split; discriminate | exact IH].
Qed.

Lemma keys_od_set (d : odict V) (k : Z) (v : V) :
  keys (od_set d k v) = if contains d k then keys d else keys d ++ [k].
Proof.
  induction d as [|[k' v'] r IH]; simpl; [reflexivity|].
  destruct (Z.eqb_spec k' k) as [->|Hne]; simpl; [reflexivity|].
  rewrite IH. destruct (contains r k); reflexivity.
Qed.

Lemma length_od_set (d : odict V) (k : Z) (v : V) :
  length (od_set d k v) =
  if contains d k then length d else S (length d).
Proof.
  induction d as [|[k' v'] r IH]; simpl; [reflexivity|].
  destruct (k' =? k); simpl; [reflexivity|].
  rewrite IH. destruct (contains r k); reflexivity.
Qed.

Lemma od_set_fresh (d : odict V) (k : Z) (v : V) :
  contains d k = false -> od_set d k v = d ++ [(k, v)].
Proof.
  induction d as [|[k' v'] r IH]; simpl; [reflexivity|].
  destruct (k' =? k); [discriminate|].
  intros H. now rewrite IH.
Qed.

Lemma od_get_od_set_same (d : odict V) (k : Z) (v : V) :
  od_get (od_set d k v) k = Some v.
Proof.
  induction d as [|[k' v'] r IH]; simpl.
  - now rewrite Z.eqb_refl.
  - destruct (Z.eqb_spec k' k) as [->|Hne]; simpl.
    + now rewrite Z.eqb_refl.
    + destruct (Z.eqb_spec k' k); [contradiction | exact IH].
Qed.

Lemma od_get_od_set_other (d : odict V) (k k0 : Z) (v : V) :
  k0 <> k -> od_get (od_set d k v) k0 = od_get d k0.
Proof.
  intros Hne. induction d as [|[k' v'] r IH]; simpl.
  - destruct (Z.eqb_spec k k0); [congruence | reflexivity].
  - destruct (Z.eqb_spec k' k) as [->|Hk]; simpl.
    + destruct (Z.eqb_spec k k0); [congruence | reflexivity].
    + destruct (k' =? k0); [reflexivity | exact IH].
Qed.

Lemma keys_od_del (d : odict V) (k : Z) :
  keys (od_del d k) = filter (fun x => negb (x =? k)) (keys d).
Proof.
  induction d as [|[k' v'] r IH]; simpl; [reflexivity|].
  destruct (k' =? k); simpl; now rewrite IH.
Qed.

Lemma In_keys_od_del (d : odict V) (k k0 : Z) :
  In k0 (keys (od_del d k)) <-> In k0 (keys d) /\ k0 <> k.
Proof.
  rewrite keys_od_del, filter_In.
  destruct (Z.eqb_spec k0 k); simpl; intuition congruence.
Qed.

Lemma contains_od_del_same (d : odict V) (k : Z) :
  contains (od_del d k) k = false.
Proof.
  apply contains_false_In. rewrite In_keys_od_del. tauto.
Qed.

Lemma od_get_od_del_other (d : odict V) (k k0 : Z) :
  k0 <> k -> od_get (od_del d k) k0 = od_get d k0.
Proof.
  intros Hne. induction d as [|[k' v'] r IH]; simpl; [reflexivity|].
  destruct (Z.eqb_spec k' k) as [->|Hk]; simpl.
  - destruct (Z.eqb_spec k k0); [congruence | exact IH].
  - destruct (k' =? k0); [reflexivity | exact IH].
Qed.

Lemma length_od_del_le (d : odict V) (k : Z) :
  (length (od_del d k) <= length d)%nat.
Proof. apply filter_length_le. Qed.

(** On a dictionary (keys held once), deleting the first key removes
    exactly the first entry. *)
Lemma od_del_head (k : Z) (v : V) (r : odict V) :
  ~ In k (keys r) -> od_del ((k, v) :: r) k = r.
Proof.
  intros Hnin. unfold od_del. simpl. rewrite Z.eqb_refl. simpl.
  induction r as [|[k' v'] r IH]; simpl; [reflexivity|].
  simpl in Hnin.
  destruct (Z.eqb_spec k' k) as [->|Hne]; simpl; [tauto|].
  f_equal. apply IH. tauto.
Qed.

Lemma NoDup_keys_od_set (d : odict V) (k : Z) (v : V) :
  NoDup (keys d) -> NoDup (keys (od_set d k v)).
Proof.
  intros Hnd. rewrite keys_od_set.
  destruct (contains d k) eqn:Hc; [assumption|].
  apply contains_false_In in Hc.
  apply NoDup_app; [assumption | repeat constructor; simpl; tauto |].
  intros x Hx [<-|[]]. contradiction.
Qed.

Lemma NoDup_keys_od_del (d : odict V) (k : Z) :
  NoDup (keys d) -> NoDup (keys (od_del d k)).
Proof. rewrite keys_od_del. apply NoDup_filter. Qed.


Lemma od_get_od_del_Some (d : odict V) (k k0 : Z) (y : V) :
  od_get (od_del d k) k0 = Some y -> k0 <> k /\ od_get d k0 = Some y.
Proof.
  intros H. destruct (Z.eq_dec k0 k) as [->|Hne].
  - pose proof (contains_od_del_same d k) as Hc.
    apply od_get_None in Hc. congruence.
  - split; [assumption|]. now rewrite od_get_od_del_other in H.
Qed.

Lemma od_get_od_set_Some (d : odict V) (k k0 : Z) (x y : V) :
  od_get (od_set d k x) k0 = Some y ->
  (k0 = k /\ y = x) \/ (k0 <> k /\ od_get d k0 = Some y).
Proof.
  intros H. destruct (Z.eq_dec k0 k) as [->|Hne].
  - rewrite od_get_od_set_same in H. left. split; congruence.
  - right. split; [assumption|]. now rewrite od_get_od_set_other in H.
Qed.

End DictFacts.

(** ** The bounded cache *)

Section CacheFacts.
Import LRACache.
Variable V : Type.

Lemma maxsize_setitem (c : t V) (k : Z) (v : V) :
  maxsize (__setitem__ c k v) = maxsize c.
Proof.
  unfold __setitem__. destruct (_ >? _); [destruct (od_set _ _ _) as [|[? ?] ?]|];
    reflexivity.
Qed.

Lemma maxsize_apply (c : t V) (o : op V) : maxsize (apply c o) = maxsize c.
Proof. destruct o; simpl; auto using maxsize_setitem. Qed.

Lemma od_set_not_nil (d : odict V) (k : Z) (v : V) : od_set d k v <> [].
Proof. destruct d as [|[k' v'] r]; simpl; [|destruct (k' =? k)]; discriminate. Qed.

(** What [__setitem__] leaves: the dictionary after the plain store, without
    the entries of its first key when the size went over [maxsize]. *)
Lemma items_setitem (c : t V) (k : Z) (v : V) :
  items (__setitem__ c k v) =
  match evicted c k v with
  | Some oldest => od_del (od_set (items c) k v) oldest
  | None => od_set (items c) k v
  end.
Proof.
  unfold __setitem__, evicted.
  destruct (_ >? _); [|reflexivity].
  destruct (od_set (items c) k v) as [|[k0 v0] r] eqn:Hd; reflexivity.
Qed.

Lemma evicted_spec (c : t V) (k : Z) (v : V) (oldest : Z) :
  evicted c k v = Some oldest <->
  Z.of_nat (length (od_set (items c) k v)) > maxsize c /\
  hd_error (keys (od_set (items c) k v)) = Some oldest.
Proof.
  unfold evicted.
  destruct (Z.gtb_spec (Z.of_nat (length (od_set (items c) k v))) (maxsize c))
    as [Hgt|Hle].
  - destruct (od_set (items c) k v) as [|[k0 v0] r] eqn:Hd.
    + now destruct (od_set_not_nil _ _ _ Hd).
    + split; [intros [= <-]; split; [lia | reflexivity]
             | intros [_ [= <-]]; reflexivity].
  - split; [discriminate | intros [H _]; lia].
Qed.

Lemma evicted_None (c : t V) (k : Z) (v : V) :
  evicted c k v = None <->
  Z.of_nat (length (od_set (items c) k v)) <= maxsize c.
Proof.
  unfold evicted.
  destruct (Z.gtb_spec (Z.of_nat (length (od_set (items c) k v))) (maxsize c))
    as [Hgt|Hle].
  - destruct (od_set (items c) k v) as [|[k0 v0] r] eqn:Hd.
    + now destruct (od_set_not_nil _ _ _ Hd).
    + split; [discriminate | lia].
  - tauto.
Qed.

Lemma length_od_del_head (k : Z) (v : V) (r : odict V) :
  (length (od_del ((k, v) :: r) k) <= length r)%nat.
Proof.
  unfold od_del. simpl. rewrite Z.eqb_refl. simpl. apply filter_length_le.
Qed.

(** One store adds at most one entry and, over [maxsize], takes one away. *)
Lemma len_setitem_le (c : t V) (k : Z) (v : V) :
  0 <= maxsize c -> __len__ c <= maxsize c ->
  __len__ (__setitem__ c k v) <= maxsize c.
Proof.
  unfold __len__. intros H0 Hc. rewrite items_setitem.
  pose proof (length_od_set V (items c) k v) as Hlen.
  destruct (evicted c k v) as [oldest|] eqn:Hev.
  - apply evicted_spec in Hev. destruct Hev as [_ Hhd].
    destruct (od_set (items c) k v) as [|[k0 v0] r]; [discriminate|].
    simpl in Hhd. injection Hhd as ->.
    pose proof (length_od_del_head oldest v0 r) as Hdel.
    simpl in Hlen. destruct (contains (items c) k); lia.
  - apply evicted_None in Hev. exact Hev.
Qed.

Lemma len_delitem_le (c : t V) (k : Z) : __len__ (__delitem__ c k) <= __len__ c.
Proof.
  unfold __len__, __delitem__. simpl.
  pose proof (length_od_del_le V (items c) k). lia.
Qed.

Lemma len_apply_le (c : t V) (o : op V) :
  0 <= maxsize c -> __len__ c <= maxsize c -> __len__ (apply c o) <= maxsize c.
Proof.
  intros H0 Hc. destruct o as [k v|k|k]; simpl.
  - now apply len_setitem_le.
  - exact Hc.
  - pose proof (len_delitem_le c k). lia.
Qed.

Lemma len_run_le (ops : list (op V)) (c : t V) :
  0 <= maxsize c -> __len__ c <= maxsize c ->
  __len__ (run c ops) <= maxsize c /\ maxsize (run c ops) = maxsize c.
Proof.
  revert c. induction ops as [|o ops IH]; intros c H0 Hc; simpl; [auto|].
  destruct (IH (apply c o)) as [Hlen Hmax].
  - now rewrite maxsize_apply.
  - rewrite maxsize_apply. now apply len_apply_le.
  - fold (run (apply c o) ops) in *. rewrite maxsize_apply in *. auto.
Qed.

Lemma wf_setitem (c : t V) (k : Z) (v : V) : wf c -> wf (__setitem__ c k v).
Proof.
  unfold wf. intros Hwf. rewrite items_setitem.
  destruct (evicted c k v);
    auto using NoDup_keys_od_set, NoDup_keys_od_del.
Qed.

Lemma wf_delitem (c : t V) (k : Z) : wf c -> wf (__delitem__ c k).
Proof. unfold wf. simpl. apply NoDup_keys_od_del. Qed.

Lemma wf_apply (c : t V) (o : op V) : wf c -> wf (apply c o).
Proof. destruct o; simpl; auto using wf_setitem, wf_delitem. Qed.

Lemma wf_run (ops : list (op V)) (c : t V) : wf c -> wf (run c ops).
Proof.
  revert c. induction ops as [|o ops IH]; intros c Hwf; simpl; [assumption|].
  apply IH. now apply wf_apply.
Qed.

Lemma wf_init (m : Z) : wf (__init__ V m).
Proof. constructor. Qed.

(** On a well-formed cache an eviction removes the first entry and nothing
    else. *)
Lemma items_setitem_evicting (c : t V) (k : Z) (v : V) (oldest : Z) :
  wf c -> evicted c k v = Some oldest ->
  items (__setitem__ c k v) = tl (od_set (items c) k v).
Proof.
  intros Hwf Hev. rewrite items_setitem, Hev.
  apply evicted_spec in Hev. destruct Hev as [_ Hhd].
  pose proof (NoDup_keys_od_set V _ k v Hwf) as Hnd.
  destruct (od_set (items c) k v) as [|[k0 v0] r]; [discriminate|].
  simpl in Hhd. injection Hhd as ->. simpl in Hnd.
  apply od_del_head. now inversion Hnd.
Qed.

(** A key stored while absent survives its own store as soon as the cache
    may hold one entry: the entry evicted, if any, was there before. *)
Lemma setitem_keeps_new_key (c : t V) (k : Z) (v : V) :
  1 <= maxsize c -> __contains__ c k = false ->
  __getitem__ (__setitem__ c k v) k = Ok v /\
  (forall victim, evicted c k v = Some victim ->
                  victim <> k /\ In victim (keys (items c))).
Proof.
  unfold __contains__, __getitem__. intros Hm Hk.
  assert (Hvict : forall victim, evicted c k v = Some victim ->
                    victim <> k /\ In victim (keys (items c))).
  { intros victim Hev. apply evicted_spec in Hev. destruct Hev as [Hgt Hhd].
    rewrite (od_set_fresh V _ _ v Hk) in Hgt, Hhd.
    destruct (items c) as [|[k0 v0] r] eqn:Hit; simpl in *; [lia|].
    injection Hhd as <-.
    destruct (Z.eqb_spec k0 k); [discriminate | auto]. }
  split; [|exact Hvict].
  rewrite items_setitem.
  destruct (evicted c k v) as [victim|] eqn:Hev.
  - destruct (Hvict victim eq_refl) as [Hne _].
    rewrite od_get_od_del_other by congruence.
    now rewrite od_get_od_set_same.
  - now rewrite od_get_od_set_same.
Qed.

(** With no room at all the key stored is the one evicted. *)
Lemma len_0_items (c : t V) : __len__ c <= 0 -> items c = [].
Proof. unfold __len__. destruct (items c); simpl; [auto | lia]. Qed.

Lemma setitem_without_room (c : t V) (k : Z) (v : V) :
  maxsize c <= 0 -> items c = [] ->
  evicted c k v = Some k /\ __contains__ (__setitem__ c k v) k = false /\
  __getitem__ (__setitem__ c k v) k = Raise (KeyError k).
Proof.
  unfold __contains__, __getitem__. intros Hm Hnil.
  assert (Hev : evicted c k v = Some k).
  { apply evicted_spec. rewrite Hnil. simpl. split; [lia | reflexivity]. }
  rewrite items_setitem, Hev. split; [reflexivity|].
  rewrite contains_od_del_same. split; [reflexivity|].
  pose proof (contains_od_del_same V (od_set (items c) k v) k) as Hc'.
  apply od_get_None in Hc'. now rewrite Hc'.
Qed.

Lemma od_get_setitem_Some (c : t V) (k k0 : Z) (x y : V) :
  od_get (items (__setitem__ c k x)) k0 = Some y ->
  (k0 = k /\ y = x) \/ (k0 <> k /\ od_get (items c) k0 = Some y).
Proof.
  rewrite items_setitem. destruct (evicted c k x) as [oldest|].
  - intros H. apply od_get_od_del_Some in H. destruct H as [_ H].
    now apply od_get_od_set_Some.
  - apply od_get_od_set_Some.
Qed.

Lemma mem_setitem_evicted (c : t V) (k : Z) (v : V) (victim : Z) :
  evicted c k v = Some victim ->
  __contains__ (__setitem__ c k v) victim = false.
Proof.
  intros Hev. unfold __contains__. rewrite items_setitem, Hev.
  apply contains_od_del_same.
Qed.

Lemma maxsize_run (ops : list (op V)) (c : t V) :
  maxsize (run c ops) = maxsize c.
Proof.
  revert c. induction ops as [|o ops IH]; intros c; simpl; [reflexivity|].
  fold (run (apply c o) ops). now rewrite IH, maxsize_apply.
Qed.

End CacheFacts.

(** ** Insertion stamps: the first entry is the oldest insertion *)

Section StampFacts.
Import LRACache.
Variable V : Type.

Local Abbreviation er := (fun kv : Z * (nat * V) => (fst kv, snd (snd kv))).

Lemma od_get_erase (d : odict (nat * V)) (k : Z) :
  od_get (map er d) k = option_map snd (od_get d k).
Proof.
  induction d as [|[k' [t' v']] r IH]; simpl; [reflexivity|].
  destruct (k' =? k); [reflexivity | exact IH].
Qed.

Lemma od_set_erase (d : odict (nat * V)) (k : Z) (t : nat) (v : V) :
  map er (od_set d k (t, v)) = od_set (map er d) k v.
Proof.
  induction d as [|[k' [t' v']] r IH]; simpl; [reflexivity|].
  destruct (k' =? k); simpl; [reflexivity | now rewrite IH].
Qed.

Lemma od_del_erase (d : odict (nat * V)) (k : Z) :
  map er (od_del d k) = od_del (map er d) k.
Proof.
  induction d as [|[k' [t' v']] r IH]; simpl; [reflexivity|].
  destruct (k' =? k); simpl; [exact IH | now rewrite IH].
Qed.

Lemma evicted_erase (c : t (nat * V)) (k : Z) (t : nat) (v : V) :
  evicted (erase c) k v = evicted c k (t, v).
Proof.
  unfold evicted, erase. simpl.
  rewrite <- (od_set_erase _ _ t), length_map.
  destruct (_ >? _); [|reflexivity].
  destruct (od_set (items c) k (t, v)) as [|[k0 [t0 v0]] r]; reflexivity.
Qed.

Lemma erase_setitem (c : t (nat * V)) (k : Z) (t : nat) (v : V) :
  erase (__setitem__ c k (t, v)) = __setitem__ (erase c) k v.
Proof.
  unfold __setitem__, erase. simpl.
  rewrite <- (od_set_erase _ _ t), length_map.
  destruct (_ >? _); [|reflexivity].
  destruct (od_set (items c) k (t, v)) as [|[k0 [t0 v0]] r] eqn:Hd;
    [reflexivity|].
  simpl. f_equal. rewrite Z.eqb_refl. simpl. apply od_del_erase.
Qed.

Lemma erase_apply (clock : nat) (c : t (nat * V)) (o : op V) :
  erase (apply_stamped clock c o) = apply (erase c) o.
Proof.
  destruct o as [k v|k|k]; simpl.
  - apply erase_setitem.
  - reflexivity.
  - unfold erase, __delitem__. simpl. now rewrite od_del_erase.
Qed.

(** Erasing the stamps of a replayed history gives the run of the code. *)
Lemma erase_replay (ops : list (op V)) (clock : nat) (c : t (nat * V)) :
  erase (replay clock c ops) = run (erase c) ops.
Proof.
  revert clock c. induction ops as [|o ops IH]; intros clock c; simpl;
    [reflexivity|].
  rewrite IH, erase_apply. reflexivity.
Qed.

(** *** Order of the stamps *)

Lemma stamps_od_set_old (d : odict (nat * V)) (k : Z) (t : nat) (v0 v : V) :
  od_get d k = Some (t, v0) -> stamps (od_set d k (t, v)) = stamps d.
Proof.
  induction d as [|[k' [t' v']] r IH]; simpl; [discriminate|].
  destruct (k' =? k); simpl.
  - intros [= -> _]. reflexivity.
  - intros H. unfold stamps in *. f_equal. now apply IH.
Qed.

Lemma stamps_od_set_new (d : odict (nat * V)) (k : Z) (t : nat) (v : V) :
  od_get d k = None -> stamps (od_set d k (t, v)) = stamps d ++ [t].
Proof.
  intros H. apply od_get_None in H.
  rewrite (od_set_fresh _ d k (t, v) H). unfold stamps.
  now rewrite map_app.
Qed.

Lemma sorted_snoc (l : list nat) (x : nat) :
  StronglySorted lt l -> Forall (fun t => (t < x)%nat) l ->
  StronglySorted lt (l ++ [x]).
Proof.
  induction 1 as [|a l Hs IH Ha]; intros Hall; simpl.
  - repeat constructor.
  - inversion Hall; subst. constructor; [auto|].
    apply Forall_app. split; [assumption | repeat constructor; assumption].
Qed.

Lemma stamps_od_del_sub (d : odict (nat * V)) (k : Z) (P : nat -> Prop) :
  Forall P (stamps d) -> Forall P (stamps (od_del d k)).
Proof.
  induction d as [|[k' [t' v']] r IH]; simpl; [auto|].
  intros H. inversion H; subst.
  destruct (k' =? k); simpl; [auto | constructor; auto].
Qed.

Lemma sorted_od_del (d : odict (nat * V)) (k : Z) :
  StronglySorted lt (stamps d) -> StronglySorted lt (stamps (od_del d k)).
Proof.
  induction d as [|[k' [t' v']] r IH]; simpl; [auto|].
  intros H. inversion H; subst.
  destruct (k' =? k); simpl; [auto|].
  constructor; [auto | now apply stamps_od_del_sub].
Qed.

(** The dictionary right after the plain store of a stamped insertion. *)
Lemma ordered_od_set (clock : nat) (c : t (nat * V)) (k : Z) (v : V) :
  ordered clock c ->
  let d := od_set (items c) k (stamp_for clock c k, v) in
  StronglySorted lt (stamps d) /\
  Forall (fun t => (t < S clock)%nat) (stamps d) /\
  NoDup (keys d).
Proof.
  intros (Hs & Hb & Hn). simpl.
  assert (Hb' : Forall (fun t => (t < S clock)%nat) (stamps (items c))).
  { eapply Forall_impl; [|exact Hb]. simpl. intros. lia. }
  split; [|split].
  - unfold stamp_for.
    destruct (od_get (items c) k) as [[b v0]|] eqn:Hg.
    + now rewrite (stamps_od_set_old _ _ _ _ v Hg).
    + rewrite (stamps_od_set_new _ _ _ v Hg). now apply sorted_snoc.
  - unfold stamp_for.
    destruct (od_get (items c) k) as [[b v0]|] eqn:Hg.
    + now rewrite (stamps_od_set_old _ _ _ _ v Hg).
    + rewrite (stamps_od_set_new _ _ _ v Hg).
      apply Forall_app. split; [assumption | repeat constructor].
  - now apply NoDup_keys_od_set.
Qed.

Lemma ordered_stamped_set (clock : nat) (c : t (nat * V)) (k : Z) (v : V) :
  ordered clock c -> ordered (S clock) (stamped_set clock c k v).
Proof.
  intros Hord. destruct (ordered_od_set _ _ k v Hord) as (Hs & Hb & Hn).
  unfold ordered, stamped_set. rewrite items_setitem.
  destruct (evicted c k _) as [oldest|].
  - split; [|split];
      auto using sorted_od_del, stamps_od_del_sub, NoDup_keys_od_del.
  - auto.
Qed.

Lemma ordered_apply (clock : nat) (c : t (nat * V)) (o : op V) :
  ordered clock c -> ordered (S clock) (apply_stamped clock c o).
Proof.
  destruct o as [k v|k|k]; simpl.
  - apply ordered_stamped_set.
  - intros (Hs & Hb & Hn). split; [|split]; auto.
    eapply Forall_impl; [|exact Hb]. simpl. intros. lia.
  - intros (Hs & Hb & Hn). unfold ordered, __delitem__. simpl.
    split; [|split];
      auto using sorted_od_del, NoDup_keys_od_del.
    apply stamps_od_del_sub.
    eapply Forall_impl; [|exact Hb]. simpl. intros. lia.
Qed.

Lemma ordered_replay (ops : list (op V)) (clock : nat) (c : t (nat * V)) :
  ordered clock c ->
  ordered (clock + length ops) (replay clock c ops).
Proof.
  revert clock c. induction ops as [|o ops IH]; intros clock c Hord; simpl.
  - now rewrite Nat.add_0_r.
  - rewrite <- Nat.add_succ_comm. apply IH. now apply ordered_apply.
Qed.

Lemma od_get_In_stamp (d : odict (nat * V)) (k : Z) (t : nat) (v : V) :
  od_get d k = Some (t, v) -> In t (stamps d).
Proof.
  induction d as [|[k' [t' v']] r IH]; simpl; [discriminate|].
  destruct (k' =? k); [intros [= -> _]; auto | auto].
Qed.

(** When a stamped insertion evicts, the stamp of the entry that leaves is
    below the stamp of every entry that stays. *)
Lemma stamped_eviction_oldest
      (clock : nat) (c : t (nat * V)) (k : Z) (v : V) (victim : Z) :
  ordered clock c ->
  evicted c k (stamp_for clock c k, v) = Some victim ->
  exists t,
    born (mk (maxsize c) (od_set (items c) k (stamp_for clock c k, v))) victim
    = Some t /\
    forall k' t', born (stamped_set clock c k v) k' = Some t' -> (t < t')%nat.
Proof.
  intros Hord Hev. destruct (ordered_od_set _ _ k v Hord) as (Hs & _ & Hn).
  unfold born, stamped_set. rewrite items_setitem, Hev. cbn [items].
  apply evicted_spec in Hev. destruct Hev as [_ Hhd].
  destruct (od_set (items c) k (stamp_for clock c k, v))
    as [|[k0 [t0 v0]] r]; [discriminate|].
  simpl in Hhd. injection Hhd as ->.
  simpl in Hn, Hs. inversion Hn; subst. inversion Hs; subst.
  rewrite od_del_head by assumption.
  exists t0. split; [simpl; now rewrite Z.eqb_refl|].
  intros k' t' Hb.
  destruct (od_get r k') as [[t1 v1]|] eqn:Hg; [|discriminate].
  simpl in Hb. injection Hb as ->.
  apply od_get_In_stamp in Hg.
  match goal with H : Forall _ _ |- _ =>
    rewrite Forall_forall in H; now apply H end.
Qed.

(** *** The stamps name operations of the history *)

Lemma anchored_weaken (hist : list (op V)) (o : op V) (c : t (nat * V)) :
  anchored hist c -> anchored (hist ++ [o]) c.
Proof.
  intros Ha k t Hb. destruct (Ha k t Hb) as [w Hw]. exists w.
  rewrite nth_error_app1; [assumption|].
  apply nth_error_Some. congruence.
Qed.

Lemma anchored_od_set (hist : list (op V)) (c : t (nat * V)) (k : Z) (v : V) :
  anchored hist c ->
  anchored (hist ++ [Insert k v])
    (mk (maxsize c) (od_set (items c) k (stamp_for (length hist) c k, v))).
Proof.
  intros Ha k' t Hb. unfold born in Hb. cbn [items] in Hb.
  destruct (od_get _ k') as [[t1 v1]|] eqn:Hg; [|discriminate].
  simpl in Hb. injection Hb as ->.
  apply od_get_od_set_Some in Hg. destruct Hg as [[-> Hx]|[Hne Hg]].
  - injection Hx as -> ->. unfold stamp_for.
    destruct (od_get (items c) k) as [[b v0]|] eqn:Hold.
    + apply (anchored_weaken _ (Insert k v) _ Ha). unfold born.
      now rewrite Hold.
    + exists v. rewrite nth_error_app2 by lia.
      now rewrite Nat.sub_diag.
  - apply (anchored_weaken _ (Insert k v) _ Ha). unfold born.
    now rewrite Hg.
Qed.

Lemma anchored_apply (hist : list (op V)) (c : t (nat * V)) (o : op V) :
  anchored hist c ->
  anchored (hist ++ [o]) (apply_stamped (length hist) c o).
Proof.
  intros Ha. destruct o as [k v|k|k]; simpl.
  - intros k' t Hb. apply (anchored_od_set _ _ k v Ha k' t).
    unfold born, stamped_set in *. rewrite items_setitem in Hb.
    cbn [items].
    destruct (evicted c k _) as [oldest|]; [|exact Hb].
    destruct (od_get (od_del _ oldest) k') as [[t1 v1]|] eqn:Hg;
      [|discriminate].
    apply od_get_od_del_Some in Hg. destruct Hg as [_ Hg].
    now rewrite Hg.
  - now apply anchored_weaken.
  - intros k' t Hb. unfold born, __delitem__ in Hb. simpl in Hb.
    destruct (od_get (od_del (items c) k) k') as [[t1 v1]|] eqn:Hg;
      [|discriminate].
    simpl in Hb. injection Hb as ->.
    apply od_get_od_del_Some in Hg. destruct Hg as [_ Hg].
    apply (anchored_weaken _ (Delete V k) _ Ha). unfold born.
    now rewrite Hg.
Qed.

Lemma anchored_replay (ops hist : list (op V)) (c : t (nat * V)) :
  anchored hist c -> anchored (hist ++ ops) (replay (length hist) c ops).
Proof.
  revert hist c. induction ops as [|o ops IH]; intros hist c Ha; simpl.
  - now rewrite app_nil_r.
  - replace (hist ++ o :: ops) with ((hist ++ [o]) ++ ops)
      by (now rewrite <- app_assoc).
    replace (S (length hist)) with (length (hist ++ [o]))
      by (rewrite length_app; simpl; lia).
    apply IH. now apply anchored_apply.
Qed.

Lemma ordered_init (m : Z) : ordered 0 (__init__ (nat * V) m).
Proof. repeat split; constructor. Qed.

Lemma anchored_init (m : Z) : anchored [] (__init__ (nat * V) m).
Proof. intros k t H. discriminate. Qed.

End StampFacts.

(** ** The loader, one call at a time *)

Section LoaderFacts.
Import AsyncVideoFrameLoader.
Variable Tensor : Type.
Variable E : env Tensor.

Implicit Types (s : state Tensor) (index : Z).

(** What [load_started] and [load_finished] touch. *)
Lemma load_started_fields s index :
  let s' := load_started E index s in
  images s' = images s /\ exception s' = exception s /\
  last_accessed_frame s' = last_accessed_frame s /\ tasks s' = tasks s.
Proof.
  unfold load_started. destruct (list_index _ _); simpl; auto.
Qed.

Lemma load_started_calls s index :
  loader_calls (load_started E index s) =
  match list_index (img_paths E) index with
  | Ok _ => loader_calls s ++ [index]
  | Raise _ => loader_calls s
  end.
Proof. unfold load_started. destruct (list_index _ _); reflexivity. Qed.

Lemma load_finished_fields s index :
  let s' := snd (load_finished E index s) in
  exception s' = exception s /\
  last_accessed_frame s' = last_accessed_frame s /\
  tasks s' = tasks s /\ loader_calls s' = loader_calls s.
Proof.
  unfold load_finished. destruct (fetch E index) as [[[img h] w]|e];
    simpl; auto.
Qed.

(** The outcome of [load_finished], case by case. *)
Lemma load_finished_ok s index path img h w :
  list_index (img_paths E) index = Ok path ->
  _load_img_as_tensor E path = Ok (img, h, w) ->
  load_finished E index s =
  (Ok tt,
   set_images
     (LRACache.__setitem__ (images s) index (normalize E img))
     (set_video_size h w s)).
Proof. unfold load_finished, fetch. now intros -> ->. Qed.

Lemma load_finished_raises s index e s' :
  load_finished E index s = (Raise e, s') ->
  s' = s /\
  (list_index (img_paths E) index = Raise e \/
   exists path, list_index (img_paths E) index = Ok path /\
                _load_img_as_tensor E path = Raise e).
Proof.
  unfold load_finished, fetch. destruct (list_index _ _) as [path|e0].
  - destruct (_load_img_as_tensor E path) as [[[img h] w]|e0] eqn:Hl;
      [discriminate|].
    intros [= -> ->]. eauto.
  - intros [= -> ->]. auto.
Qed.

Lemma load_finished_returns s index s' :
  load_finished E index s = (Ok tt, s') ->
  exists path img h w,
    list_index (img_paths E) index = Ok path /\
    _load_img_as_tensor E path = Ok (img, h, w) /\
    s' = set_images
           (LRACache.__setitem__ (images s) index (normalize E img))
           (set_video_size h w s).
Proof.
  unfold load_finished, fetch. destruct (list_index _ _) as [path|e0];
    [|discriminate].
  destruct (_load_img_as_tensor E path) as [[[img h] w]|e0] eqn:Hl;
    [|discriminate].
  intros [= <-]. exists path, img, h, w. auto.
Qed.

Lemma read_back_state index (r : result unit * state Tensor) :
  snd (read_back index r) = snd r.
Proof. destruct r as [[[]|e] s]; reflexivity. Qed.

(** A poisoned loader raises at once and changes nothing. *)
Lemma getitem_poisoned s index cause :
  exception s = Some cause ->
  __getitem__ E index s = (Raise (RuntimeError failure_message cause), s).
Proof. unfold __getitem__. now intros ->. Qed.

Lemma getitem_clean s index :
  exception s = None ->
  __getitem__ E index s =
  if negb (LRACache.__contains__ (images s) index)
  then on_miss E index (set_last_accessed_frame index s)
  else on_hit index (set_last_accessed_frame index s).
Proof. unfold __getitem__. now intros ->. Qed.

Lemma on_hit_cursor s index :
  last_accessed_frame (snd (on_hit index s)) = last_accessed_frame s.
Proof.
  unfold on_hit. destruct (LRACache.__getitem__ _ _); reflexivity.
Qed.

Lemma on_miss_cursor s index :
  last_accessed_frame (snd (on_miss E index s)) = last_accessed_frame s.
Proof.
  unfold on_miss, _load_frame. rewrite read_back_state.
  destruct (load_finished_fields (load_started E index s) index)
    as (_ & -> & _).
  now destruct (load_started_fields s index) as (_ & _ & -> & _).
Qed.

Lemma on_miss_calls s index :
  loader_calls (snd (on_miss E index s)) =
  match list_index (img_paths E) index with
  | Ok _ => loader_calls s ++ [index]
  | Raise _ => loader_calls s
  end.
Proof.
  unfold on_miss, _load_frame. rewrite read_back_state.
  destruct (load_finished_fields (load_started E index s) index)
    as (_ & _ & _ & ->).
  apply load_started_calls.
Qed.

(** The hit branch on a key of the cache. *)
Lemma on_hit_present s index frame :
  LRACache.od_get (LRACache.items (images s)) index = Some frame ->
  on_hit index s =
  (Ok frame, set_images (LRACache.__delitem__ (images s) index) s).
Proof. unfold on_hit, LRACache.__getitem__. now intros ->. Qed.

(** The miss branch when the loader returns. *)
Lemma on_miss_loaded s index path img h w :
  list_index (img_paths E) index = Ok path ->
  _load_img_as_tensor E path = Ok (img, h, w) ->
  let s' :=
    set_images
      (LRACache.__setitem__ (images s) index (normalize E img))
      (set_video_size h w (count_call index s)) in
  on_miss E index s = (LRACache.__getitem__ (images s') index, s').
Proof.
  intros Hp Hl. unfold on_miss, _load_frame, load_started. rewrite Hp.
  now rewrite (load_finished_ok _ index path img h w Hp Hl).
Qed.

(** The two halves of a miss make the whole call. *)
Lemma get_enter_resume (g : system Tensor) index :
  main g = CReady -> exception (shared g) = None ->
  LRACache.__contains__ (images (shared g)) index = false ->
  let g' := exec E EvResume (exec E (EvGet index) g) in
  shared g' = snd (__getitem__ E index (shared g)) /\
  returned g' = returned g ++ [(index, fst (__getitem__ E index (shared g)))] /\
  main g' = CReady.
Proof.
  intros Hm He Hc. simpl. rewrite Hm. unfold get_enter. rewrite He.
  simpl. rewrite Hc. simpl. unfold get_resume. simpl.
  rewrite (getitem_clean _ _ He), Hc. simpl.
  unfold on_miss, _load_frame.
  destruct (read_back index _) as [r s']. simpl. auto.
Qed.

Lemma get_enter_hit (g : system Tensor) index :
  main g = CReady -> exception (shared g) = None ->
  LRACache.__contains__ (images (shared g)) index = true ->
  let g' := exec E (EvGet index) g in
  shared g' = snd (__getitem__ E index (shared g)) /\
  returned g' = returned g ++ [(index, fst (__getitem__ E index (shared g)))] /\
  main g' = CReady.
Proof.
  intros Hm He Hc. simpl. rewrite Hm. unfold get_enter. rewrite He.
  simpl. rewrite Hc. simpl.
  rewrite (getitem_clean _ _ He), Hc. simpl.
  destruct (on_hit index _) as [r s']. simpl. auto.
Qed.

End LoaderFacts.

(** ** The workers *)

Section WorkerFacts.
Import AsyncVideoFrameLoader.
Variable Tensor : Type.
Variable E : env Tensor.

Implicit Types (s : state Tensor) (w : worker).

(** No step of a worker writes [self.exception]. *)
Lemma worker_step_exception w s :
  exception (snd (_worker_step E w s)) = exception s.
Proof.
  destruct w as [|frame|e]; simpl.
  - destruct (tasks s) as [|frame q]; [reflexivity|]. simpl.
    now destruct (load_started_fields _ E (set_tasks q s) frame)
      as (_ & -> & _).
  - pose proof (load_finished_fields _ E s frame) as (H & _).
    destruct (load_finished E frame s) as [[[]|e] s']; simpl in *;
      [assumption|].
    destruct (is_QueueEmpty e); assumption.
  - reflexivity.
Qed.

Lemma worker_run_exception n w s :
  exception (snd (_worker E n w s)) = exception s.
Proof.
  revert w s. induction n as [|n IH]; intros w s; simpl; [reflexivity|].
  pose proof (worker_step_exception w s) as H.
  destruct (_worker_step E w s) as [w' s']. simpl in H.
  now rewrite IH.
Qed.

Lemma exec_worker_exception (g : system Tensor) (n : nat) :
  exception (shared (exec E (EvWorker n) g)) = exception (shared g).
Proof.
  simpl. destruct (nth_error (workers g) n) as [w|]; [|reflexivity].
  pose proof (worker_step_exception w (shared g)) as H.
  destruct (_worker_step E w (shared g)) as [w' s']. exact H.
Qed.



Lemma worker_run_add a b w s :
  _worker E (a + b) w s =
  let (w', s') := _worker E a w s in _worker E b w' s'.
Proof.
  revert w s. induction a as [|a IH]; intros w s; simpl; [reflexivity|].
  destruct (_worker_step E w s) as [w' s']. apply IH.
Qed.

Lemma worker_step_waiting s frame q :
  tasks s = frame :: q ->
  _worker_step E WWaiting s =
  (WLoading frame, load_started E frame (set_tasks q s)).
Proof. simpl. now intros ->. Qed.

Lemma worker_step_loading s frame :
  _worker_step E (WLoading frame) s =
  match fetch E frame with
  | Ok (img, h, w) =>
      (WWaiting,
       set_images (LRACache.__setitem__ (images s) frame (normalize E img))
                  (set_video_size h w s))
  | Raise e => if is_QueueEmpty e then (WWaiting, s) else (WTerminated e, s)
  end.
Proof.
  unfold _worker_step, load_finished.
  destruct (fetch E frame) as [[[img h] w]|e]; reflexivity.
Qed.

Lemma worker_run_2 w s :
  _worker E 2 w s =
  _worker_step E (fst (_worker_step E w s)) (snd (_worker_step E w s)).
Proof.
  simpl. destruct (_worker_step E w s) as [w1 s1]. simpl.
  now destruct (_worker_step E w1 s1).
Qed.




End WorkerFacts.

(** ** The threads together *)

Section SystemFacts.
Import AsyncVideoFrameLoader.
Variable Tensor : Type.
Variable E : env Tensor.

Implicit Types (g : system Tensor) (ev : event) (evs : list event).

Lemma run_app evs1 evs2 g :
  run E (evs1 ++ evs2) g = run E evs2 (run E evs1 g).
Proof. unfold run. apply fold_left_app. Qed.

Lemma run_snoc evs ev g : run E (evs ++ [ev]) g = exec E ev (run E evs g).
Proof. now rewrite run_app. Qed.

(** [K] is the floor of three quarters of the cache size whenever a window
    can hold a frame at all. *)
Lemma K_floor : K E <= 0 \/ K E = 3 * cache_size E / 4.
Proof.
  unfold K. destruct (Z_lt_le_dec (3 * cache_size E) 0) as [Hneg|Hpos].
  - left. replace (3 * cache_size E) with (- (- (3 * cache_size E))) by lia.
    rewrite Z.quot_opp_l by lia.
    pose proof (Z.quot_pos (- (3 * cache_size E)) 4). lia.
  - right. apply Z.quot_div_nonneg; lia.
Qed.

Lemma K_le_cache_size : 0 <= cache_size E -> K E <= cache_size E.
Proof.
  intros H. unfold K. rewrite Z.quot_div_nonneg by lia.
  apply Z.div_le_upper_bound; lia.
Qed.

Lemma event_eq_scheduler ev : {ev = EvScheduler} + {ev <> EvScheduler}.
Proof. destruct ev; [right | right | left | right]; congruence. Qed.

(** Only the scheduling thread moves the scheduling thread. *)
Lemma prefetch_exec_other ev g :
  ev <> EvScheduler -> prefetch (exec E ev g) = prefetch g.
Proof.
  destruct ev as [index| | |n]; intros Hne; simpl; try congruence.
  - destruct (main g); [|reflexivity]. unfold get_enter.
    destruct (exception (shared g)); [reflexivity|]. simpl.
    destruct (negb _); [reflexivity|].
    now destruct (on_hit index _).
  - destruct (main g); [reflexivity|]. unfold get_resume.
    now destruct (read_back _ _).
  - destruct (nth_error (workers g) n) as [w|]; [|reflexivity].
    now destruct (_worker_step E w (shared g)).
Qed.

Lemma prefetch_exec_scheduler g :
  prefetch (exec E EvScheduler g)
  = fst (_load_frames_step E (prefetch g) (shared g)).
Proof. simpl. now destruct (_load_frames_step E (prefetch g) (shared g)). Qed.

Lemma scheduler_ok_exec ev g : scheduler_ok E g -> scheduler_ok E (exec E ev g).
Proof.
  unfold scheduler_ok. intros Hok.
  destruct (event_eq_scheduler ev) as [->|Hne].
  2:{ now rewrite prefetch_exec_other. }
  rewrite prefetch_exec_scheduler.
  destruct (prefetch g) as [|cur frame end_frame|just_ran|]; simpl.
  - split; [reflexivity | lia].
  - destruct Hok as [Hend Hle].
    destruct (frame <? end_frame); simpl; [split; [assumption | lia]|].
    now destruct (pbar_refresh E cur).
  - destruct (just_ran =? _); simpl; [exact I | split; [reflexivity | lia]].
  - exact I.
Qed.

Lemma scheduler_ok_run evs g : scheduler_ok E g -> scheduler_ok E (run E evs g).
Proof.
  revert g. induction evs as [|ev evs IH]; intros g Hok; simpl; [assumption|].
  apply IH. now apply scheduler_ok_exec.
Qed.

Lemma boot_shape start g0 :
  boot E start = Ok g0 ->
  exists s0, __init__ E start = Ok s0 /\
             g0 = mkSystem s0 (repeat WWaiting num_workers) SStart CReady [].
Proof.
  unfold boot. destruct (__init__ E start) as [s0|e]; [|discriminate].
  intros [= <-]. eauto.
Qed.

(** What a step of the scheduling thread adds to the queue. *)
Lemma tasks_exec_scheduler g :
  tasks (shared (exec E EvScheduler g)) = tasks (shared g) ++ submitted g.
Proof.
  simpl. unfold submitted.
  destruct (prefetch g) as [|cur frame end_frame|just_ran|]; simpl;
    try (now rewrite app_nil_r).
  - destruct (frame <? end_frame); simpl.
    + destruct (negb _); simpl; [reflexivity | now rewrite app_nil_r].
    + destruct (pbar_refresh E cur); simpl; now rewrite app_nil_r.
  - destruct (just_ran =? _); simpl; now rewrite app_nil_r.
Qed.

(** The other threads add nothing to the queue; a worker takes its head. *)
Lemma tasks_exec_other ev g :
  ev <> EvScheduler ->
  exists taken, tasks (shared g) = taken ++ tasks (shared (exec E ev g)).
Proof.
  destruct ev as [index| | |n]; intros Hne; simpl; try congruence.
  - exists []. simpl. destruct (main g); [|reflexivity]. unfold get_enter.
    destruct (exception (shared g)); [reflexivity|]. simpl.
    destruct (negb _); simpl.
    + now destruct (load_started_fields _ E
                      (set_last_accessed_frame index (shared g)) index)
        as (_ & _ & _ & ->).
    + unfold on_hit. now destruct (LRACache.__getitem__ _ _).
  - exists []. simpl. destruct (main g) as [|index]; [reflexivity|].
    unfold get_resume.
    pose proof (load_finished_fields _ E (shared g) index) as (_ & _ & H & _).
    pose proof (read_back_state _ index (load_finished E index (shared g)))
      as Hrb.
    destruct (read_back index _) as [r s']. simpl in *. congruence.
  - destruct (nth_error (workers g) n) as [w|]; [|now exists []].
    destruct w as [|frame|e]; simpl.
    + destruct (tasks (shared g)) as [|frame q] eqn:Hq; simpl.
      * exists []. now rewrite Hq.
      * exists [frame]. simpl.
        now destruct (load_started_fields _ E (set_tasks q (shared g)) frame)
          as (_ & _ & _ & ->).
    + exists []. simpl.
      pose proof (load_finished_fields _ E (shared g) frame)
        as (_ & _ & H & _).
      destruct (load_finished E frame (shared g)) as [[[]|e] s'];
        simpl in *; [congruence|].
      destruct (is_QueueEmpty e); simpl; congruence.
    + now exists [].
Qed.

(** What is submitted is the frame the [for] is at, inside the window. *)
Lemma submitted_in_window g i :
  scheduler_ok E g -> In i (submitted g) ->
  exists current_frame end_frame,
    prefetch g = SFor current_frame i end_frame /\
    end_frame = Z.min (current_frame + K E) (__len__ E) /\
    current_frame <= i
    < Z.min (current_frame + 3 * cache_size E / 4) (__len__ E) /\
    LRACache.__contains__ (images (shared g)) i = false.
Proof.
  unfold scheduler_ok, submitted.
  destruct (prefetch g) as [|cur frame end_frame|just_ran|];
    try (intros _ []).
  intros [Hend Hle].
  destruct (Z.ltb_spec frame end_frame) as [Hlt|Hge]; cbn [andb];
    [|intros []].
  destruct (LRACache.__contains__ (images (shared g)) frame) eqn:Hmem; cbn [negb];
    [intros []|].
  intros [<-|[]]. exists cur, end_frame.
  repeat split; try assumption.
  destruct K_floor as [Hk|Hk]; [lia | rewrite <- Hk; lia].
Qed.

(** The cursor an iteration works with is the one the thread read when the
    iteration began. *)
Lemma iteration_origin start g0 evs current_frame frame end_frame :
  boot E start = Ok g0 ->
  prefetch (run E evs g0) = SFor current_frame frame end_frame ->
  exists before since,
    evs = before ++ EvScheduler :: since /\
    last_accessed_frame (shared (run E before g0)) = current_frame /\
    prefetch (run E (before ++ [EvScheduler]) g0)
    = SFor current_frame current_frame end_frame.
Proof.
  intros Hboot. destruct (boot_shape _ _ Hboot) as (s0 & _ & Hg0).
  revert current_frame frame end_frame.
  induction evs as [|ev evs IH] using rev_ind;
    intros cur frame end_frame Hp.
  - subst g0. discriminate.
  - rewrite run_snoc in Hp.
    destruct (event_eq_scheduler ev) as [->|Hne].
    + rewrite prefetch_exec_scheduler in Hp.
      destruct (prefetch (run E evs g0)) as [|c f e|j|] eqn:Hprev;
        simpl in Hp.
      * injection Hp as <- <- <-. exists evs, [].
        split; [reflexivity|]. split; [reflexivity|].
        rewrite run_snoc, prefetch_exec_scheduler, Hprev. reflexivity.
      * destruct (f <? e); simpl in Hp.
        -- injection Hp as <- <- <-.
           destruct (IH _ _ _ eq_refl) as (before & since & -> & Hc & Hb).
           exists before, (since ++ [EvScheduler]).
           split; [now rewrite <- app_assoc | auto].
        -- destruct (pbar_refresh E c); discriminate.
      * destruct (j =? last_accessed_frame (shared (run E evs g0))) eqn:Hj;
          simpl in Hp; [discriminate|].
        injection Hp as <- <- <-. exists evs, [].
        split; [reflexivity|]. split; [reflexivity|].
        rewrite run_snoc, prefetch_exec_scheduler, Hprev. simpl.
        now rewrite Hj.
      * discriminate.
    + rewrite prefetch_exec_other in Hp by assumption.
      destruct (IH _ _ _ Hp) as (before & since & -> & Hc & Hb).
      exists before, (since ++ [ev]).
      split; [now rewrite <- app_assoc | auto].
Qed.

End SystemFacts.

(** ** The first window keeps the start frame *)

Section EagerFacts.
Import AsyncVideoFrameLoader.
Variable Tensor : Type.
Variable E : env Tensor.

Implicit Types (g : system Tensor) (s : state Tensor).

(** Distinct integers of an interval of [n] values are at most [n]. *)
Lemma NoDup_bounded_length (l : list Z) (a : Z) (n : nat) :
  NoDup l -> (forall x, In x l -> a <= x < a + Z.of_nat n) ->
  (length l <= n)%nat.
Proof.
  intros Hnd Hb.
  assert (H : (length l
               <= length (map (fun j => (a + Z.of_nat j)%Z) (seq 0 n)))%nat).
  { apply NoDup_incl_length; [assumption|].
    intros x Hx. apply in_map_iff. exists (Z.to_nat (x - a)).
    specialize (Hb x Hx). split; [lia|]. apply in_seq. lia. }
  now rewrite length_map, length_seq in H.
Qed.

Lemma In_keys_od_set (V : Type) (d : LRACache.odict V) (k k0 : Z) (v : V) :
  In k0 (LRACache.keys (LRACache.od_set d k v)) ->
  In k0 (LRACache.keys d) \/ k0 = k.
Proof.
  rewrite keys_od_set. destruct (LRACache.contains d k); [auto|].
  rewrite in_app_iff. simpl. intuition.
Qed.

Lemma In_flat_map_update_nth (A B : Type) (f : A -> list B)
      (n : nat) (x : A) (l : list A) (b : B) :
  In b (flat_map f (update_nth n x l)) -> In b (f x) \/ In b (flat_map f l).
Proof.
  revert n. induction l as [|y l IH]; intros [|n]; simpl; try tauto;
    rewrite !in_app_iff.
  - tauto.
  - intros [H|H]; [tauto | destruct (IH n H); tauto].
Qed.

Lemma nth_error_flat_map (A B : Type) (f : A -> list B)
      (n : nat) (x : A) (l : list A) (b : B) :
  nth_error l n = Some x -> In b (f x) -> In b (flat_map f l).
Proof.
  intros Hn Hb. apply in_flat_map. exists x.
  split; [eapply nth_error_In; eassumption | assumption].
Qed.

(** Storing a frame of the first window evicts nothing: the keys are
    distinct frames of the window, and the window is no wider than the
    cache. *)
Lemma eager_no_eviction start frame0 g i (v : Tensor) :
  eager E start frame0 g -> in_first_window E start i ->
  LRACache.evicted (images (shared g)) i v = None.
Proof.
  intros [_ _ Hwf Hkeys _ _ _ [Hmax Hroom] _ _ _] Hi.
  apply evicted_None. rewrite Hmax.
  set (d := LRACache.od_set (LRACache.items (images (shared g))) i v).
  assert (Hlen : (length (LRACache.keys d)
                  <= Z.to_nat (Z.min (start + K E) (__len__ E) - start))%nat).
  { apply (NoDup_bounded_length _ start).
    - now apply NoDup_keys_od_set.
    - intros k Hk. unfold in_first_window in *.
      apply In_keys_od_set in Hk.
      destruct Hk as [Hk| ->]; [destruct (Hkeys k Hk) as [->|Hw]|]; lia. }
  unfold LRACache.keys in Hlen. rewrite length_map in Hlen.
  pose proof (K_le_cache_size _ E). unfold in_first_window in Hi. lia.
Qed.

(** The cache after a frame of the first window has been stored. *)
Lemma eager_store start frame0 g i (v : Tensor) :
  eager E start frame0 g -> in_first_window E start i ->
  let c := LRACache.__setitem__ (images (shared g)) i v in
  LRACache.od_get (LRACache.items c) start = Some frame0 /\
  LRACache.wf c /\
  (forall k, In k (LRACache.keys (LRACache.items c)) ->
             k = start \/ in_first_window E start k) /\
  LRACache.maxsize c = cache_size E.
Proof.
  intros Hinv Hi. pose proof (eager_no_eviction _ _ _ _ v Hinv Hi) as Hev.
  destruct Hinv as [_ Hcached Hwf Hkeys _ _ _ [Hmax _] _ _ _].
  simpl. rewrite maxsize_setitem, items_setitem, Hev.
  split; [|split; [|split]].
  - rewrite od_get_od_set_other; [assumption|].
    unfold in_first_window in Hi. lia.
  - now apply wf_setitem.
  - intros k Hk. apply In_keys_od_set in Hk.
    destruct Hk as [Hk| ->]; auto.
  - assumption.
Qed.

Lemma eager_exec_scheduler start frame0 g :
  eager E start frame0 g -> eager E start frame0 (exec E EvScheduler g).
Proof.
  intros Hinv.
  destruct Hinv as [Hcur Hcached Hwf Hkeys Htasks Hworkers Hcalls Hroom
                    Hsched Hmain Hret].
  simpl.
  destruct (prefetch g) as [|cur frame end_frame|just_ran|] eqn:Hp; simpl.
  - constructor; simpl; try assumption. rewrite Hcur. repeat split; lia.
  - destruct Hsched as (-> & -> & Hle).
    destruct (Z.ltb_spec frame (Z.min (start + K E) (__len__ E))) as [Hlt|Hge].
    + destruct (LRACache.__contains__ (images (shared g)) frame) eqn:Hmem; simpl.
      * constructor; simpl; try assumption. repeat split; lia.
      * constructor; simpl; try assumption; [|repeat split; lia].
        intros i Hi. apply in_app_iff in Hi.
        destruct Hi as [Hi|[<-|[]]]; [auto|].
        assert (frame <> start).
        { intros ->. unfold LRACache.__contains__ in Hmem.
          apply od_get_None in Hmem. congruence. }
        unfold in_first_window. lia.
    + destruct (pbar_refresh E start);
        constructor; simpl; auto.
  - subst just_ran. rewrite Hcur, Z.eqb_refl. simpl.
    constructor; simpl; auto.
  - constructor; simpl; auto.
Qed.

Lemma eager_exec_worker start frame0 g n :
  eager E start frame0 g -> eager E start frame0 (exec E (EvWorker n) g).
Proof.
  intros Hinv. simpl.
  destruct (nth_error (workers g) n) as [w|] eqn:Hn; [|assumption].
  destruct w as [|frame|e].
  - (* at [get] *)
    rewrite (surjective_pairing (_worker_step E WWaiting (shared g))).
    destruct (tasks (shared g)) as [|frame q] eqn:Hq.
    + simpl. rewrite Hq. simpl.
      destruct Hinv as [Hcur Hcached Hwf Hkeys Htasks Hworkers Hcalls Hroom
                        Hsched Hmain Hret].
      constructor; simpl; try assumption.
      intros i Hi. apply In_flat_map_update_nth in Hi.
      destruct Hi as [[]|Hi]; auto.
    + rewrite (worker_step_waiting _ E _ _ _ Hq). simpl.
      destruct (load_started_fields _ E (set_tasks q (shared g)) frame)
        as (Hi' & He' & Hc' & Ht'). simpl in Hi', He', Hc', Ht'.
      pose proof (load_started_calls _ E (set_tasks q (shared g)) frame)
        as Hcalls'. simpl in Hcalls'.
      destruct Hinv as [Hcur Hcached Hwf Hkeys Htasks Hworkers Hcalls Hroom
                        Hsched Hmain Hret].
      assert (Hw : in_first_window E start frame).
      { apply Htasks. rewrite Hq. now left. }
      constructor; simpl; rewrite ?Hi', ?Hc', ?Ht'; try assumption.
      * intros i Hi. apply Htasks. rewrite Hq. now right.
      * intros i Hi. apply In_flat_map_update_nth in Hi.
        destruct Hi as [[<-|[]]|Hi]; auto.
      * rewrite Hcalls'. destruct (list_index _ _); [|assumption].
        rewrite count_occ_app, Hcalls. simpl.
        unfold in_first_window in Hw.
        destruct (Z.eq_dec frame start); lia.
  - (* inside [func(frame)] *)
    assert (Hw : in_first_window E start frame).
    { destruct Hinv. apply eager_workers0.
      eapply nth_error_flat_map; [eassumption | now left]. }
    rewrite (surjective_pairing (_worker_step E (WLoading frame) (shared g))).
    rewrite worker_step_loading.
    destruct (fetch E frame) as [[[img h] w]|e].
    + destruct (eager_store _ _ _ _ (normalize E img) Hinv Hw)
        as (Hc & Hwf' & Hk & Hm).
      destruct Hinv as [Hcur Hcached Hwf Hkeys Htasks Hworkers Hcalls Hroom
                        Hsched Hmain Hret].
      constructor; simpl; try assumption; [|tauto].
      intros i Hi. apply In_flat_map_update_nth in Hi.
      destruct Hi as [[]|Hi]; auto.
    + destruct Hinv as [Hcur Hcached Hwf Hkeys Htasks Hworkers Hcalls Hroom
                        Hsched Hmain Hret].
      destruct (is_QueueEmpty e); constructor; simpl; try assumption;
        intros i Hi; apply In_flat_map_update_nth in Hi;
        destruct Hi as [[]|Hi]; auto.
  - simpl.
    destruct Hinv as [Hcur Hcached Hwf Hkeys Htasks Hworkers Hcalls Hroom
                      Hsched Hmain Hret].
    constructor; simpl; try assumption.
    intros i Hi. apply In_flat_map_update_nth in Hi.
    destruct Hi as [[]|Hi]; auto.
Qed.

Lemma eager_run start frame0 evs g :
  Forall background evs -> eager E start frame0 g ->
  eager E start frame0 (run E evs g).
Proof.
  intros Hbg. revert g. induction Hbg as [|ev evs Hev _ IH]; intros g Hinv;
    simpl; [assumption|].
  apply IH. destruct ev as [index| | |n]; try contradiction.
  - now apply eager_exec_scheduler.
  - now apply eager_exec_worker.
Qed.

(** The constructor establishes the invariant. *)
Lemma eager_boot start g0 :
  boot E start = Ok g0 ->
  exists frame0,
    eager E start frame0 g0 /\
    loader_calls (shared g0) = [start] /\ prefetch g0 = SStart /\
    tasks (shared g0) = [].
Proof.
  intros Hboot. destruct (boot_shape _ E _ _ Hboot) as (s0 & Hinit & ->).
  unfold __init__ in Hinit.
  destruct (__getitem__ E start (fresh E start)) as [[v|e] s1] eqn:Hget;
    [|discriminate].
  injection Hinit as ->.
  rewrite getitem_clean in Hget by reflexivity.
  change (LRACache.__contains__ (images (fresh E start)) start) with false in Hget.
  simpl in Hget. unfold on_miss, _load_frame in Hget.
  destruct (load_finished E start _) as [[[]|e] s2] eqn:Hload;
    simpl in Hget; [|discriminate].
  apply load_finished_returns in Hload.
  destruct Hload as (path & img & h & w & Hpath & Hl & ->).
  unfold load_started in Hget. rewrite Hpath in Hget. simpl in Hget.
  set (c := LRACache.__setitem__ (LRACache.__init__ Tensor (cache_size E)) start
              (normalize E img)) in *.
  destruct (LRACache.__getitem__ c start) as [v'|e] eqn:Hread; [|discriminate].
  injection Hget as -> <-.
  assert (Hroom : 1 <= cache_size E).
  { destruct (Z_lt_le_dec (cache_size E) 1) as [Hlt|]; [|assumption].
    destruct (setitem_without_room Tensor
                (LRACache.__init__ Tensor (cache_size E)) start (normalize E img))
      as (_ & _ & Hraise); [simpl; lia | reflexivity |].
    fold c in Hraise. congruence. }
  assert (Hitems : LRACache.items c = [(start, normalize E img)]).
  { subst c. rewrite items_setitem.
    assert (Hnone : LRACache.evicted (LRACache.__init__ Tensor (cache_size E))
                      start (normalize E img) = None)
      by (apply evicted_None; simpl; lia).
    now rewrite Hnone. }
  exists v. unfold LRACache.__getitem__ in Hread. rewrite Hitems in Hread.
  simpl in Hread. rewrite Z.eqb_refl in Hread. injection Hread as <-.
  split; [|simpl; auto].
  constructor; simpl; rewrite ?Hitems; simpl; auto.
  - now rewrite Z.eqb_refl.
  - unfold LRACache.wf. rewrite Hitems. repeat constructor. simpl. tauto.
  - intros k [<-|[]]. now left.
  - intros i [].
  - intros i Hi. unfold num_workers in Hi. simpl in Hi. contradiction.
  - destruct (Z.eq_dec start start); [reflexivity | contradiction].
  - split; [|assumption]. subst c. now rewrite maxsize_setitem.
Qed.

End EagerFacts.

(** * The claims *)

(** C1: Sticky background failure: the model evaluated where the code
    departs from the claim.  Frame 50 does not load.  The scheduling thread
    queues frames 1 to 74 and worker 0 loads them in turn; the load of
    frame 50 raises inside the worker, the exception leaves [_worker] and
    ends that thread, and [self.exception] is still [None].  The [get]
    calls that follow, for the cached index 3 and for the uncached index
    60, return frames instead of raising the background failure. *)
Theorem background_load_failure_is_lost :
  AsyncVideoFrameLoader.boot Demo.failing 0
  = Ok (Demo.started Demo.failing 0) /\
  AsyncVideoFrameLoader.fetch Demo.failing 50
  = Raise (ExternalError "cv2.error") /\
  count_occ Z.eq_dec
    (AsyncVideoFrameLoader.loader_calls
       (AsyncVideoFrameLoader.shared Demo.after_failure)) 50 = 1%nat /\
  nth_error (AsyncVideoFrameLoader.workers Demo.after_failure) 0
  = Some (AsyncVideoFrameLoader.WTerminated (ExternalError "cv2.error")) /\
  AsyncVideoFrameLoader.exception
    (AsyncVideoFrameLoader.shared Demo.after_failure) = None /\
  AsyncVideoFrameLoader.returned
    (AsyncVideoFrameLoader.exec Demo.failing
       (AsyncVideoFrameLoader.EvGet 3) Demo.after_failure)
  = [(3, Ok 1003)] /\
  AsyncVideoFrameLoader.returned
    (AsyncVideoFrameLoader.run Demo.failing
       [AsyncVideoFrameLoader.EvGet 60; AsyncVideoFrameLoader.EvResume]
       Demo.after_failure)
  = [(60, Ok 1060)].
Proof. repeat split; vm_compute; reflexivity. Qed.

(** C2: Single consumption on a cache hit.  When no background error is
    recorded and index [i] is in the cache with frame [frame], [get(i)]
    returns [frame], leaves the cache without [i] (the entry is deleted
    right after it is read) and calls no loader; a second [get(i)] right
    after it takes the miss branch, which calls the loader for [i] again. *)
Theorem single_consumption
        (Tensor : Type) (E : env Tensor)
        (s : AsyncVideoFrameLoader.state Tensor) (i : Z) (frame : Tensor) :
  AsyncVideoFrameLoader.exception s = None ->
  LRACache.od_get (LRACache.items (AsyncVideoFrameLoader.images s)) i
  = Some frame ->
  exists s',
    AsyncVideoFrameLoader.__getitem__ E i s = (Ok frame, s') /\
    AsyncVideoFrameLoader.images s'
    = LRACache.__delitem__ (AsyncVideoFrameLoader.images s) i /\
    LRACache.__contains__ (AsyncVideoFrameLoader.images s') i = false /\
    AsyncVideoFrameLoader.loader_calls s'
    = AsyncVideoFrameLoader.loader_calls s /\
    AsyncVideoFrameLoader.__getitem__ E i s'
    = AsyncVideoFrameLoader.on_miss E i s' /\
    (forall path,
        list_index (img_paths E) i = Ok path ->
        AsyncVideoFrameLoader.loader_calls
          (snd (AsyncVideoFrameLoader.__getitem__ E i s'))
        = AsyncVideoFrameLoader.loader_calls s ++ [i]).
Proof.
  intros He Hget.
  assert (Hmem : LRACache.__contains__ (AsyncVideoFrameLoader.images s) i = true).
  { unfold LRACache.__contains__. apply od_get_contains. eauto. }
  rewrite (getitem_clean _ E s i He), Hmem. simpl.
  rewrite (on_hit_present _ _ i frame) by exact Hget.
  eexists. split; [reflexivity|]. simpl.
  assert (Hgone : LRACache.__contains__
                    (LRACache.__delitem__ (AsyncVideoFrameLoader.images s) i) i
                  = false).
  { unfold LRACache.__contains__, LRACache.__delitem__. simpl.
    apply contains_od_del_same. }
  split; [reflexivity|]. split; [exact Hgone|]. split; [reflexivity|].
  assert (Hsecond :
    AsyncVideoFrameLoader.__getitem__ E i
      (AsyncVideoFrameLoader.set_images
         (LRACache.__delitem__ (AsyncVideoFrameLoader.images s) i)
         (AsyncVideoFrameLoader.set_last_accessed_frame i s))
    = AsyncVideoFrameLoader.on_miss E i
        (AsyncVideoFrameLoader.set_images
           (LRACache.__delitem__ (AsyncVideoFrameLoader.images s) i)
           (AsyncVideoFrameLoader.set_last_accessed_frame i s))).
  { rewrite getitem_clean by exact He. simpl. rewrite Hgone. reflexivity. }
  split; [exact Hsecond|].
  intros path Hpath. rewrite Hsecond, on_miss_calls, Hpath. reflexivity.
Qed.

Lemma single_consumption_witness :
  let s := AsyncVideoFrameLoader.shared (Demo.started Demo.small 0) in
  AsyncVideoFrameLoader.exception s = None /\
  LRACache.od_get (LRACache.items (AsyncVideoFrameLoader.images s)) 0
  = Some 1000 /\
  exists s',
    AsyncVideoFrameLoader.__getitem__ Demo.small 0 s = (Ok 1000, s') /\
    LRACache.__contains__ (AsyncVideoFrameLoader.images s') 0 = false /\
    AsyncVideoFrameLoader.__getitem__ Demo.small 0 s'
    = AsyncVideoFrameLoader.on_miss Demo.small 0 s'.
Proof.
  split; [reflexivity|]. split; [reflexivity|].
  destruct (single_consumption Z Demo.small
              (AsyncVideoFrameLoader.shared (Demo.started Demo.small 0))
              0 1000 eq_refl eq_refl)
    as (s' & H1 & _ & H2 & _ & H3 & _).
  exists s'. auto.
Defined.

(** C3: Capacity invariant.  A cache built with a capacity [maxsize]
    (a count, so not negative) is run through any finite sequence of
    operations, insertions in particular; after every operation of the
    sequence, that is after every prefix, its size is at most [maxsize]. *)
Theorem capacity_invariant
        (V : Type) (maxsize : Z) (ops : list (LRACache.op V)) (n : nat) :
  0 <= maxsize ->
  LRACache.__len__ (LRACache.run (LRACache.__init__ V maxsize) (firstn n ops))
  <= maxsize.
Proof.
  intros H0.
  destruct (len_run_le V (firstn n ops) (LRACache.__init__ V maxsize)) as [H _];
    [exact H0 | unfold LRACache.__len__; simpl; lia | exact H].
Qed.

Lemma capacity_invariant_witness :
  0 <= 2 /\
  LRACache.__len__
    (LRACache.run (LRACache.__init__ Z 2)
       (firstn 3 [LRACache.Insert 1 10; LRACache.Insert 2 20;
                  LRACache.Insert 3 30; LRACache.Insert 4 40]))
  <= 2.
Proof.
  split; [lia|].
  apply (capacity_invariant Z 2
           [LRACache.Insert 1 10; LRACache.Insert 2 20;
            LRACache.Insert 3 30; LRACache.Insert 4 40] 3).
  lia.
Defined.

(** C4: Insertion-order eviction.  Take the cache [c] reached from the
    empty cache by any history [ops] of insertions, reads and deletions, and
    an insertion of [k] that brings the size over the capacity.  Then
    exactly one entry leaves, the first of the dictionary; the key that
    leaves was brought in by operation number [t] of the history, and every
    key that stays was brought in by a later operation (reads neither move
    nor stamp anything).  With capacity 2, inserting keys 1, 2, 3 leaves 1
    absent and 2, 3 present, also when key 1 is read just before 3 comes. *)
Theorem insertion_order_eviction :
  (forall (V : Type) (m : Z) (ops : list (LRACache.op V)) (k : Z) (v : V),
      let c := LRACache.run (LRACache.__init__ V m) ops in
      let g := LRACache.replay 0 (LRACache.__init__ (nat * V) m) ops in
      Z.of_nat (length (LRACache.od_set (LRACache.items c) k v)) > m ->
      LRACache.erase g = c /\
      LRACache.erase (LRACache.stamped_set (length ops) g k v)
      = LRACache.__setitem__ c k v /\
      exists (victim : Z) (t : nat),
        LRACache.evicted c k v = Some victim /\
        LRACache.items (LRACache.__setitem__ c k v)
        = tl (LRACache.od_set (LRACache.items c) k v) /\
        LRACache.__contains__ (LRACache.__setitem__ c k v) victim = false /\
        (exists w, nth_error (ops ++ [LRACache.Insert k v]) t
                   = Some (LRACache.Insert victim w)) /\
        (forall k' t',
            LRACache.born (LRACache.stamped_set (length ops) g k v) k'
            = Some t' ->
            (t < t')%nat /\
            exists w, nth_error (ops ++ [LRACache.Insert k v]) t'
                      = Some (LRACache.Insert k' w))) /\
  (forall (V : Type) (a b c : V),
      let cache :=
        LRACache.run (LRACache.__init__ V 2)
          [LRACache.Insert 1 a; LRACache.Insert 2 b; LRACache.Insert 3 c] in
      LRACache.__contains__ cache 1 = false /\
      LRACache.__contains__ cache 2 = true /\
      LRACache.__contains__ cache 3 = true /\
      LRACache.keys (LRACache.items cache) = [2; 3]) /\
  (forall (V : Type) (a b c : V),
      LRACache.keys
        (LRACache.items
           (LRACache.run (LRACache.__init__ V 2)
              [LRACache.Insert 1 a; LRACache.Insert 2 b; LRACache.Read V 1;
               LRACache.Insert 3 c]))
      = [2; 3]).
Proof.
  split; [|split; [intros V a b c; repeat split | reflexivity]].
  intros V m ops k v c g Hover.
  assert (Herase : LRACache.erase g = c).
  { subst c g. now rewrite erase_replay. }
  assert (Hord : LRACache.ordered (length ops) g).
  { apply (ordered_replay V ops 0), ordered_init. }
  assert (Hanc : LRACache.anchored ops g).
  { apply (anchored_replay V ops []), anchored_init. }
  assert (Hmax : LRACache.maxsize c = m) by (subst c; apply maxsize_run).
  assert (Hset : LRACache.erase (LRACache.stamped_set (length ops) g k v)
                 = LRACache.__setitem__ c k v).
  { unfold LRACache.stamped_set. now rewrite erase_setitem, Herase. }
  split; [exact Herase|]. split; [exact Hset|].
  destruct (LRACache.evicted c k v) as [victim|] eqn:Hev.
  2:{ apply evicted_None in Hev. lia. }
  assert (Hev' : LRACache.evicted g k
                   (LRACache.stamp_for (length ops) g k, v) = Some victim).
  { now rewrite <- evicted_erase, Herase. }
  destruct (stamped_eviction_oldest V _ _ _ _ _ Hord Hev') as (t & Hborn & Hold).
  exists victim, t. split; [reflexivity|]. split; [|split; [|split]].
  - apply (items_setitem_evicting V c k v victim); [|exact Hev].
    subst c. apply wf_run, wf_init.
  - now apply mem_setitem_evicted.
  - exact (anchored_od_set V ops g k v Hanc victim t Hborn).
  - intros k' t' Hb. split; [exact (Hold k' t' Hb)|].
    exact (anchored_apply V ops g (LRACache.Insert k v) Hanc k' t' Hb).
Qed.

Lemma insertion_order_eviction_witness :
  Z.of_nat
    (length
       (LRACache.od_set
          (LRACache.items
             (LRACache.run (LRACache.__init__ Z 2)
                [LRACache.Insert 1 10; LRACache.Insert 2 20])) 3 30)) > 2 /\
  exists (victim : Z) (t : nat),
    LRACache.evicted
      (LRACache.run (LRACache.__init__ Z 2)
         [LRACache.Insert 1 10; LRACache.Insert 2 20]) 3 30 = Some victim /\
    exists w, nth_error [LRACache.Insert 1 10; LRACache.Insert 2 20;
                         LRACache.Insert 3 30] t
              = Some (LRACache.Insert victim w).
Proof.
  assert (H : Z.of_nat
    (length
       (LRACache.od_set
          (LRACache.items
             (LRACache.run (LRACache.__init__ Z 2)
                [LRACache.Insert 1 10; LRACache.Insert 2 20])) 3 30)) > 2)
    by (vm_compute; reflexivity).
  split; [exact H|].
  destruct (proj1 insertion_order_eviction Z 2
              [LRACache.Insert 1 10; LRACache.Insert 2 20] 3 30 H)
    as (_ & _ & victim & t & Hev & _ & _ & Hanc & _).
  exists victim, t. split; [exact Hev | exact Hanc].
Defined.




(** C6: Window bound.  In any state the loader reaches after its
    constructor, under any interleaving of the threads, a step of the
    scheduling thread appends to the queue exactly what [submitted] lists,
    and no other thread appends anything.  An index [i] that is submitted
    is the frame of the running iteration; that iteration began with a
    step of the scheduling thread that read the cursor [cur], and
    [cur <= i < min(cur + floor(cache_size * 3/4), len(img_paths))], so in
    particular [i < cur + floor(cache_size * 3/4)]. *)
Theorem window_bound
        (Tensor : Type) (E : env Tensor) (start : Z)
        (g0 : AsyncVideoFrameLoader.system Tensor)
        (evs : list AsyncVideoFrameLoader.event) :
  AsyncVideoFrameLoader.boot E start = Ok g0 ->
  let g := AsyncVideoFrameLoader.run E evs g0 in
  AsyncVideoFrameLoader.tasks
    (AsyncVideoFrameLoader.shared
       (AsyncVideoFrameLoader.exec E AsyncVideoFrameLoader.EvScheduler g))
  = AsyncVideoFrameLoader.tasks (AsyncVideoFrameLoader.shared g)
    ++ AsyncVideoFrameLoader.submitted g /\
  (forall ev,
      ev <> AsyncVideoFrameLoader.EvScheduler ->
      exists taken,
        AsyncVideoFrameLoader.tasks (AsyncVideoFrameLoader.shared g)
        = taken ++ AsyncVideoFrameLoader.tasks
                     (AsyncVideoFrameLoader.shared
                        (AsyncVideoFrameLoader.exec E ev g))) /\
  (forall i,
      In i (AsyncVideoFrameLoader.submitted g) ->
      exists cur end_frame before since,
        AsyncVideoFrameLoader.prefetch g
        = AsyncVideoFrameLoader.SFor cur i end_frame /\
        evs = before ++ AsyncVideoFrameLoader.EvScheduler :: since /\
        AsyncVideoFrameLoader.last_accessed_frame
          (AsyncVideoFrameLoader.shared
             (AsyncVideoFrameLoader.run E before g0)) = cur /\
        cur <= i
        < Z.min (cur + 3 * cache_size E / 4)
                (AsyncVideoFrameLoader.__len__ E) /\
        i < cur + 3 * cache_size E / 4).
Proof.
  intros Hboot g.
  split; [apply tasks_exec_scheduler|].
  split; [intros ev Hne; now apply tasks_exec_other|].
  intros i Hin.
  assert (Hok : AsyncVideoFrameLoader.scheduler_ok E g).
  { apply scheduler_ok_run.
    destruct (boot_shape _ E _ _ Hboot) as (s0 & _ & ->). exact I. }
  destruct (submitted_in_window _ E g i Hok Hin)
    as (cur & end_frame & Hp & _ & Hwin & _).
  destruct (iteration_origin _ E start g0 evs cur i end_frame Hboot Hp)
    as (before & since & Hevs & Hcur & _).
  exists cur, end_frame, before, since.
  repeat split; try assumption; lia.
Qed.

Lemma window_bound_witness :
  AsyncVideoFrameLoader.boot Demo.small 0 = Ok (Demo.started Demo.small 0) /\
  exists cur end_frame before since,
    AsyncVideoFrameLoader.prefetch
      (AsyncVideoFrameLoader.run Demo.small
         (repeat AsyncVideoFrameLoader.EvScheduler 2)
         (Demo.started Demo.small 0))
    = AsyncVideoFrameLoader.SFor cur 1 end_frame /\
    repeat AsyncVideoFrameLoader.EvScheduler 2
    = before ++ AsyncVideoFrameLoader.EvScheduler :: since /\
    cur <= 1
    < Z.min (cur + 3 * cache_size Demo.small / 4)
            (AsyncVideoFrameLoader.__len__ Demo.small).
Proof.
  split; [reflexivity|].
  destruct (window_bound Z Demo.small 0 (Demo.started Demo.small 0)
              (repeat AsyncVideoFrameLoader.EvScheduler 2) eq_refl)
    as (_ & _ & H).
  destruct (H 1 (or_introl eq_refl))
    as (cur & end_frame & before & since & Hp & Hevs & _ & Hwin & _).
  exists cur, end_frame, before, since. auto.
Defined.




(** C8: Cursor update before servicing (as amended).  A call [get(index)]
    that finds no background error recorded first stores [index] in
    [last_accessed_frame] and then serves the read from that state: the
    lookup, the deletion of the hit branch and the load of the miss branch
    all run with the cursor already at [index], the call ends with the
    cursor at [index] whatever it returns or raises, and while the load of
    a miss is still pending the other threads already see the new cursor. *)
Theorem cursor_set_before_service
        (Tensor : Type) (E : env Tensor)
        (s : AsyncVideoFrameLoader.state Tensor) (index : Z) :
  AsyncVideoFrameLoader.exception s = None ->
  AsyncVideoFrameLoader.__getitem__ E index s
  = (if negb (LRACache.__contains__ (AsyncVideoFrameLoader.images s) index)
     then AsyncVideoFrameLoader.on_miss E index
            (AsyncVideoFrameLoader.set_last_accessed_frame index s)
     else AsyncVideoFrameLoader.on_hit index
            (AsyncVideoFrameLoader.set_last_accessed_frame index s)) /\
  AsyncVideoFrameLoader.last_accessed_frame
    (snd (AsyncVideoFrameLoader.__getitem__ E index s)) = index /\
  (forall g : AsyncVideoFrameLoader.system Tensor,
      AsyncVideoFrameLoader.shared g = s ->
      AsyncVideoFrameLoader.main g = AsyncVideoFrameLoader.CReady ->
      AsyncVideoFrameLoader.last_accessed_frame
        (AsyncVideoFrameLoader.shared
           (AsyncVideoFrameLoader.exec E (AsyncVideoFrameLoader.EvGet index) g))
      = index).
Proof.
  intros He. split; [now apply getitem_clean|]. split.
  - rewrite getitem_clean by exact He.
    destruct (negb _); [rewrite on_miss_cursor | rewrite on_hit_cursor];
      reflexivity.
  - intros g Hs Hm. simpl. rewrite Hm.
    unfold AsyncVideoFrameLoader.get_enter. rewrite Hs, He. simpl.
    destruct (negb _); simpl.
    + now destruct (load_started_fields _ E
                      (AsyncVideoFrameLoader.set_last_accessed_frame index s)
                      index) as (_ & _ & -> & _).
    + pose proof (on_hit_cursor _
                    (AsyncVideoFrameLoader.set_last_accessed_frame index s)
                    index) as Hc.
      destruct (AsyncVideoFrameLoader.on_hit index _) as [r s'].
      exact Hc.
Qed.

Lemma cursor_set_before_service_witness :
  let s := AsyncVideoFrameLoader.shared (Demo.started Demo.small 0) in
  AsyncVideoFrameLoader.exception s = None /\
  AsyncVideoFrameLoader.last_accessed_frame
    (snd (AsyncVideoFrameLoader.__getitem__ Demo.small 7 s)) = 7.
Proof.
  split; [reflexivity|].
  exact (proj1 (proj2 (cursor_set_before_service Z Demo.small
    (AsyncVideoFrameLoader.shared (Demo.started Demo.small 0)) 7 eq_refl))).
Defined.

(** C8 as stated fails on a loader whose background error is set: the call
    raises before it reaches the store into [last_accessed_frame].  Here
    the scheduling thread has recorded the error of its progress bar;
    [get(5)] raises the [RuntimeError] and the cursor stays at 0. *)
Lemma cursor_untouched_when_poisoned :
  let s := AsyncVideoFrameLoader.shared Demo.poisoned in
  AsyncVideoFrameLoader.exception s = Some (ExternalError "tqdm") /\
  fst (AsyncVideoFrameLoader.__getitem__ Demo.small_broken 5 s)
  = Raise (RuntimeError AsyncVideoFrameLoader.failure_message
             (ExternalError "tqdm")) /\
  AsyncVideoFrameLoader.last_accessed_frame
    (snd (AsyncVideoFrameLoader.__getitem__ Demo.small_broken 5 s)) = 0 /\
  ~ (forall index,
        AsyncVideoFrameLoader.last_accessed_frame
          (snd (AsyncVideoFrameLoader.__getitem__ Demo.small_broken index s))
        = index).
Proof.
  repeat split. intros H. specialize (H 5). vm_compute in H. discriminate.
Qed.

(** C9: Eager start frame.  When the constructor returns, it has loaded
    [start_frame] with one call of the loader and holds it in the cache,
    while the scheduling thread has not taken a step and the queue is
    empty.  Whatever the scheduling thread and the workers do before the
    consumer's first call, the frame stays in the cache, the scheduling
    thread never queues [start_frame], and the loader has been called for
    it exactly once.  The call [get(start_frame)] then ends without
    entering the loader; it returns the frame the constructor loaded
    (unless the scheduling thread has recorded an error in the meantime,
    which the call raises).  [start_frame = 0] is the case of the claim. *)
Theorem eager_start_frame
        (Tensor : Type) (E : env Tensor) (start : Z)
        (g0 : AsyncVideoFrameLoader.system Tensor)
        (evs : list AsyncVideoFrameLoader.event) :
  AsyncVideoFrameLoader.boot E start = Ok g0 ->
  Forall AsyncVideoFrameLoader.background evs ->
  exists frame0,
    LRACache.__getitem__
      (AsyncVideoFrameLoader.images (AsyncVideoFrameLoader.shared g0)) start
    = Ok frame0 /\
    AsyncVideoFrameLoader.loader_calls (AsyncVideoFrameLoader.shared g0)
    = [start] /\
    AsyncVideoFrameLoader.prefetch g0 = AsyncVideoFrameLoader.SStart /\
    AsyncVideoFrameLoader.tasks (AsyncVideoFrameLoader.shared g0) = [] /\
    let g := AsyncVideoFrameLoader.run E evs g0 in
    LRACache.__getitem__
      (AsyncVideoFrameLoader.images (AsyncVideoFrameLoader.shared g)) start
    = Ok frame0 /\
    ~ In start (AsyncVideoFrameLoader.tasks (AsyncVideoFrameLoader.shared g)) /\
    count_occ Z.eq_dec
      (AsyncVideoFrameLoader.loader_calls (AsyncVideoFrameLoader.shared g))
      start = 1%nat /\
    let g' :=
      AsyncVideoFrameLoader.exec E (AsyncVideoFrameLoader.EvGet start) g in
    AsyncVideoFrameLoader.main g' = AsyncVideoFrameLoader.CReady /\
    AsyncVideoFrameLoader.loader_calls (AsyncVideoFrameLoader.shared g')
    = AsyncVideoFrameLoader.loader_calls (AsyncVideoFrameLoader.shared g) /\
    AsyncVideoFrameLoader.returned g'
    = [(start,
        match AsyncVideoFrameLoader.exception
                (AsyncVideoFrameLoader.shared g) with
        | None => Ok frame0
        | Some cause =>
            Raise (RuntimeError AsyncVideoFrameLoader.failure_message cause)
        end)].
Proof.
  intros Hboot Hbg.
  destruct (eager_boot _ E start g0 Hboot)
    as (frame0 & Hinv0 & Hcalls0 & Hp0 & Ht0).
  pose proof (eager_run _ E start frame0 evs g0 Hbg Hinv0) as Hinv.
  exists frame0.
  split.
  { unfold LRACache.__getitem__.
    now rewrite (AsyncVideoFrameLoader.eager_cached Hinv0). }
  do 3 (split; [assumption|]).
  set (g := AsyncVideoFrameLoader.run E evs g0) in *.
  destruct Hinv as [Hcur Hcached Hwf Hkeys Htasks Hworkers Hcalls Hroom
                    Hsched Hmain Hret].
  split; [unfold LRACache.__getitem__; now rewrite Hcached|].
  split.
  { intros Hin. apply Htasks in Hin.
    unfold AsyncVideoFrameLoader.in_first_window in Hin. lia. }
  split; [assumption|].
  assert (Hmem : LRACache.__contains__
                   (AsyncVideoFrameLoader.images
                      (AsyncVideoFrameLoader.shared g)) start = true).
  { unfold LRACache.__contains__. apply od_get_contains. eauto. }
  simpl. rewrite Hmain. unfold AsyncVideoFrameLoader.get_enter.
  destruct (AsyncVideoFrameLoader.exception
              (AsyncVideoFrameLoader.shared g)) as [cause|].
  - simpl. rewrite Hret. auto.
  - simpl. rewrite Hmem. simpl.
    rewrite (on_hit_present _ _ start frame0) by exact Hcached.
    simpl. rewrite Hret. auto.
Qed.

Lemma eager_start_frame_witness :
  AsyncVideoFrameLoader.boot Demo.small 0 = Ok (Demo.started Demo.small 0) /\
  Forall AsyncVideoFrameLoader.background
    (repeat AsyncVideoFrameLoader.EvScheduler 5
     ++ repeat (AsyncVideoFrameLoader.EvWorker 0) 4) /\
  exists frame0,
    AsyncVideoFrameLoader.loader_calls
      (AsyncVideoFrameLoader.shared (Demo.started Demo.small 0)) = [0] /\
    AsyncVideoFrameLoader.returned
      (AsyncVideoFrameLoader.exec Demo.small (AsyncVideoFrameLoader.EvGet 0)
         (AsyncVideoFrameLoader.run Demo.small
            (repeat AsyncVideoFrameLoader.EvScheduler 5
             ++ repeat (AsyncVideoFrameLoader.EvWorker 0) 4)
            (Demo.started Demo.small 0)))
    = [(0, Ok frame0)].
Proof.
  assert (Hbg : Forall AsyncVideoFrameLoader.background
                  (repeat AsyncVideoFrameLoader.EvScheduler 5
                   ++ repeat (AsyncVideoFrameLoader.EvWorker 0) 4))
    by (repeat constructor).
  split; [reflexivity|]. split; [exact Hbg|].
  destruct (eager_start_frame Z Demo.small 0 (Demo.started Demo.small 0)
              (repeat AsyncVideoFrameLoader.EvScheduler 5
               ++ repeat (AsyncVideoFrameLoader.EvWorker 0) 4)
              eq_refl Hbg)
    as (frame0 & _ & Hcalls & _ & _ & _ & _ & _ & _ & _ & Hret).
  exists frame0. split; [exact Hcalls | exact Hret].
Defined.

(** C10: The miss branch finds the frame it has just stored.  In a cache
    of capacity at least 1, storing a key that is absent keeps that key:
    the key evicted, if any, was in the cache before and differs from the
    new one.  So a [get] that misses and runs to its end, with no other
    thread storing into the cache in between, loads the frame, stores it,
    reads it back and returns it.  In a cache of capacity 0 the
    key stored is the key evicted, and the read-back of the miss branch
    raises [KeyError]. *)
Theorem miss_path_reads_back :
  (forall (V : Type) (c : LRACache.t V) (k : Z) (v : V),
      1 <= LRACache.maxsize c -> LRACache.__contains__ c k = false ->
      LRACache.__getitem__ (LRACache.__setitem__ c k v) k = Ok v /\
      forall victim,
        LRACache.evicted c k v = Some victim ->
        victim <> k /\ In victim (LRACache.keys (LRACache.items c))) /\
  (forall (Tensor : Type) (E : env Tensor)
          (s : AsyncVideoFrameLoader.state Tensor) (index : Z)
          (path : string) (img : Tensor) (h w : Z),
      1 <= LRACache.maxsize (AsyncVideoFrameLoader.images s) ->
      AsyncVideoFrameLoader.exception s = None ->
      LRACache.__contains__ (AsyncVideoFrameLoader.images s) index = false ->
      list_index (img_paths E) index = Ok path ->
      _load_img_as_tensor E path = Ok (img, h, w) ->
      fst (AsyncVideoFrameLoader.__getitem__ E index s)
      = Ok (normalize E img) /\
      LRACache.__getitem__
        (AsyncVideoFrameLoader.images
           (snd (AsyncVideoFrameLoader.__getitem__ E index s))) index
      = Ok (normalize E img)) /\
  (forall (V : Type) (c : LRACache.t V) (k : Z) (v : V),
      LRACache.maxsize c = 0 -> LRACache.__len__ c <= LRACache.maxsize c ->
      LRACache.evicted c k v = Some k /\
      LRACache.__contains__ (LRACache.__setitem__ c k v) k = false) /\
  (forall (Tensor : Type) (E : env Tensor)
          (s : AsyncVideoFrameLoader.state Tensor) (index : Z)
          (path : string) (img : Tensor) (h w : Z),
      LRACache.maxsize (AsyncVideoFrameLoader.images s) = 0 ->
      LRACache.__len__ (AsyncVideoFrameLoader.images s) <= 0 ->
      AsyncVideoFrameLoader.exception s = None ->
      list_index (img_paths E) index = Ok path ->
      _load_img_as_tensor E path = Ok (img, h, w) ->
      fst (AsyncVideoFrameLoader.__getitem__ E index s)
      = Raise (KeyError index)).
Proof.
  split; [|split; [|split]].
  - intros V c k v Hm Hk. now apply setitem_keeps_new_key.
  - intros Tensor E s index path img h w Hm He Hk Hp Hl.
    rewrite (getitem_clean _ E s index He), Hk. simpl.
    rewrite (on_miss_loaded _ E _ index path img h w Hp Hl). simpl.
    destruct (setitem_keeps_new_key Tensor
                (AsyncVideoFrameLoader.images s) index (normalize E img)
                Hm Hk) as [Hget _].
    auto.
  - intros V c k v Hm Hc.
    destruct (setitem_without_room V c k v) as (H1 & H2 & _);
      [lia | apply len_0_items; lia | auto].
  - intros Tensor E s index path img h w Hm Hc He Hp Hl.
    assert (Hk : LRACache.__contains__ (AsyncVideoFrameLoader.images s) index = false).
    { unfold LRACache.__contains__, LRACache.__len__ in *.
      destruct (LRACache.items (AsyncVideoFrameLoader.images s));
        [reflexivity | simpl in Hc; lia]. }
    rewrite (getitem_clean _ E s index He), Hk. simpl.
    rewrite (on_miss_loaded _ E _ index path img h w Hp Hl). simpl.
    destruct (setitem_without_room Tensor
                (AsyncVideoFrameLoader.images s) index (normalize E img))
      as (_ & _ & Hget); [lia | now apply len_0_items | exact Hget].
Qed.

Lemma miss_path_reads_back_witness :
  (let s := AsyncVideoFrameLoader.shared (Demo.started Demo.small 0) in
   fst (AsyncVideoFrameLoader.__getitem__ Demo.small 7 s) = Ok 1007) /\
  fst (AsyncVideoFrameLoader.__getitem__ Demo.roomless 7
         (AsyncVideoFrameLoader.fresh Demo.roomless 0))
  = Raise (KeyError 7).
Proof.
  split.
  - refine (proj1 (proj1 (proj2 miss_path_reads_back) Z Demo.small
      (AsyncVideoFrameLoader.shared (Demo.started Demo.small 0)) 7
      (Demo.path_of 7) 7 720 1280 _ eq_refl eq_refl eq_refl eq_refl)).
    vm_compute. discriminate.
  - refine (proj2 (proj2 (proj2 miss_path_reads_back)) Z Demo.roomless
      (AsyncVideoFrameLoader.fresh Demo.roomless 0) 7
      (Demo.path_of 7) 7 720 1280 eq_refl _ eq_refl eq_refl eq_refl).
    vm_compute. discriminate.
Defined.

(** * Further properties of the code *)

(** ** [LRACache] *)

Section MoreCacheFacts.
Import LRACache.
Variable V : Type.

Lemma length_od_del_present (d : odict V) (k : Z) :
  NoDup (keys d) -> In k (keys d) ->
  S (length (od_del d k)) = length d.
Proof.
  induction d as [|[k' v'] r IH]; simpl; [tauto|].
  intros Hnd Hin. inversion Hnd as [|? ? Hnin Hnd']; subst.
  destruct (Z.eqb_spec k' k) as [->|Hne]; simpl.
  - f_equal. fold (od_del r k).
    clear IH Hin Hnd. induction r as [|[k1 v1] r IH]; simpl; [reflexivity|].
    simpl in Hnin. destruct (Z.eqb_spec k1 k) as [->|]; simpl; [tauto|].
    f_equal. apply IH; [tauto | now inversion Hnd'].
  - f_equal. apply IH; [assumption|]. destruct Hin; [contradiction|assumption].
Qed.

Lemma evicted_absent_when_room (c : t V) (k : Z) (v : V) :
  __len__ c <= maxsize c -> __contains__ c k = true -> evicted c k v = None.
Proof.
  unfold __len__, __contains__. intros Hc Hk. apply evicted_None.
  rewrite length_od_set, Hk. exact Hc.
Qed.

Lemma lastn_all (A : Type) (n : nat) (l : list A) :
  (length l <= n)%nat -> Uses.lastn n l = l.
Proof.
  intros H. unfold Uses.lastn.
  replace (length l - n)%nat with 0%nat by lia. reflexivity.
Qed.

Lemma lastn_snoc_full (A : Type) (l : list A) (x : A) :
  Uses.lastn (length l) (l ++ [x]) = tl (l ++ [x]).
Proof.
  unfold Uses.lastn. rewrite length_app. simpl.
  replace (length l + 1 - length l)%nat with 1%nat by lia.
  now destruct (l ++ [x]).
Qed.

Lemma length_lastn (A : Type) (n : nat) (l : list A) :
  length (Uses.lastn n l) = Nat.min n (length l).
Proof. unfold Uses.lastn. rewrite length_skipn. lia. Qed.

Lemma lastn_app_lastn (A : Type) (n : nat) (a b : list A) :
  Uses.lastn n (Uses.lastn n a ++ b) = Uses.lastn n (a ++ b).
Proof.
  destruct (Nat.le_gt_cases (length a) n) as [Hle|Hgt].
  - now rewrite (lastn_all _ n a Hle).
  - unfold Uses.lastn at 1 3. rewrite !length_app, length_lastn.
    replace (Nat.min n (length a) + length b - n)%nat with (length b)
      by lia.
    replace (length a + length b - n)%nat
      with (length b + (length a - n))%nat by lia.
    rewrite <- skipn_skipn. f_equal.
    unfold Uses.lastn. rewrite skipn_app.
    replace (length a - n - length a)%nat with 0%nat by lia. reflexivity.
Qed.

Lemma NoDup_app_skipn (A : Type) (j : nat) (a b : list A) :
  NoDup (a ++ b) -> NoDup (skipn j a ++ b).
Proof.
  intros H. rewrite <- (firstn_skipn j a) in H.
  rewrite <- app_assoc in H. now apply NoDup_app_remove_l in H.
Qed.

(** One store of a new key into a well-formed cache that is within its
    capacity: the entries are the last [maxsize] of the old ones followed by
    the new one. *)
Lemma items_store_new (c : t V) (k : Z) (v : V) :
  wf c -> 0 <= maxsize c -> __len__ c <= maxsize c ->
  __contains__ c k = false ->
  items (__setitem__ c k v)
  = Uses.lastn (Z.to_nat (maxsize c)) (items c ++ [(k, v)]).
Proof.
  unfold __len__, __contains__. intros Hwf Hm Hc Hk.
  destruct (evicted c k v) as [oldest|] eqn:Hev.
  - rewrite (items_setitem_evicting V c k v oldest Hwf Hev).
    apply evicted_spec in Hev. destruct Hev as [Hgt _].
    rewrite (od_set_fresh V _ _ v Hk) in *. rewrite length_app in Hgt.
    simpl in Hgt.
    replace (Z.to_nat (maxsize c)) with (length (items c)) by lia.
    now rewrite lastn_snoc_full.
  - rewrite items_setitem, Hev. apply evicted_None in Hev.
    rewrite (od_set_fresh V _ _ v Hk) in *.
    rewrite lastn_all; [reflexivity | lia].
Qed.

Lemma items_store_all_distinct (kvs : list (Z * V)) (c : t V) :
  wf c -> 0 <= maxsize c -> __len__ c <= maxsize c ->
  NoDup (keys (items c) ++ map fst kvs) ->
  items (Uses.store_all c kvs)
  = Uses.lastn (Z.to_nat (maxsize c)) (items c ++ kvs) /\
  maxsize (Uses.store_all c kvs) = maxsize c.
Proof.
  revert c. induction kvs as [|[k v] kvs IH]; intros c Hwf Hm Hc Hnd.
  - simpl. rewrite app_nil_r. split; [|reflexivity].
    rewrite lastn_all; [reflexivity | unfold __len__ in Hc; lia].
  - simpl. fold (Uses.store_all (__setitem__ c k v) kvs).
    assert (Hk : __contains__ c k = false).
    { apply contains_false_In. intros Hin. simpl in Hnd.
      apply NoDup_remove_2 in Hnd. apply Hnd, in_or_app. now left. }
    pose proof (items_store_new c k v Hwf Hm Hc Hk) as Hitems.
    destruct (IH (__setitem__ c k v)) as [IH1 IH2].
    + now apply wf_setitem.
    + now rewrite maxsize_setitem.
    + rewrite maxsize_setitem. now apply len_setitem_le.
    + rewrite Hitems. unfold keys, Uses.lastn.
      rewrite <- skipn_map. apply NoDup_app_skipn.
      rewrite map_app. simpl. rewrite <- app_assoc. exact Hnd.
    + rewrite maxsize_setitem in *. split; [|assumption].
      rewrite IH1, Hitems, lastn_app_lastn, <- app_assoc. reflexivity.
Qed.

Lemma items_apply_no_room (c : t V) (o : op V) :
  maxsize c <= 0 -> items c = [] -> items (apply c o) = [].
Proof.
  intros Hm Hnil. destruct o as [k v|k|k]; simpl.
  - destruct (setitem_without_room V c k v Hm Hnil) as (Hev & _ & _).
    rewrite items_setitem, Hev, Hnil. simpl. now rewrite Z.eqb_refl.
  - assumption.
  - now rewrite Hnil.
Qed.

End MoreCacheFacts.

(** X1: Storing under a key that the cache already holds, in a cache within
    its capacity, replaces the value where it stands: the keys and their
    order are the same, the size is the same, nothing is evicted, the key
    reads back the new value and every other key reads as before. *)
Theorem store_existing_key_in_place
        (V : Type) (c : LRACache.t V) (k : Z) (old v : V) :
  LRACache.od_get (LRACache.items c) k = Some old ->
  LRACache.__len__ c <= LRACache.maxsize c ->
  LRACache.evicted c k v = None /\
  LRACache.keys (LRACache.items (LRACache.__setitem__ c k v))
  = LRACache.keys (LRACache.items c) /\
  LRACache.__len__ (LRACache.__setitem__ c k v) = LRACache.__len__ c /\
  LRACache.__getitem__ (LRACache.__setitem__ c k v) k = Ok v /\
  (forall k', k' <> k ->
              LRACache.__getitem__ (LRACache.__setitem__ c k v) k'
              = LRACache.__getitem__ c k').
Proof.
  intros Hold Hc.
  assert (Hk : LRACache.__contains__ c k = true).
  { unfold LRACache.__contains__. apply od_get_contains. eauto. }
  pose proof (evicted_absent_when_room V c k v Hc Hk) as Hev.
  unfold LRACache.__contains__ in Hk.
  unfold LRACache.__len__, LRACache.__getitem__.
  rewrite items_setitem, Hev.
  split; [reflexivity|]. split; [now rewrite keys_od_set, Hk|].
  split; [now rewrite length_od_set, Hk|].
  split; [now rewrite od_get_od_set_same|].
  intros k' Hne. now rewrite od_get_od_set_other.
Qed.

Lemma store_existing_key_in_place_witness :
  let c := Uses.store_all (LRACache.__init__ Z 2) [(1, 10); (2, 20)] in
  LRACache.od_get (LRACache.items c) 1 = Some 10 /\
  LRACache.__len__ c <= LRACache.maxsize c /\
  LRACache.items (LRACache.__setitem__ c 1 11) = [(1, 11); (2, 20)] /\
  LRACache.keys (LRACache.items (LRACache.__setitem__ c 1 11))
  = LRACache.keys (LRACache.items c).
Proof.
  assert (Hc : LRACache.__len__
                 (Uses.store_all (LRACache.__init__ Z 2) [(1, 10); (2, 20)])
               <= LRACache.maxsize
                    (Uses.store_all (LRACache.__init__ Z 2)
                       [(1, 10); (2, 20)]))
    by (vm_compute; discriminate).
  split; [reflexivity|]. split; [exact Hc|]. split; [reflexivity|].
  exact (proj1 (proj2 (store_existing_key_in_place Z
           (Uses.store_all (LRACache.__init__ Z 2) [(1, 10); (2, 20)])
           1 10 11 eq_refl Hc))).
Defined.

(** X2: A store touches two keys at most: the key stored and the key
    evicted.  Every other key reads after the store what it read before,
    and the evicted key, unless it is the key stored into a cache without
    room, is gone. *)
Theorem store_touches_stored_and_evicted
        (V : Type) (c : LRACache.t V) (k : Z) (v : V) (k' : Z) :
  (k' <> k -> LRACache.evicted c k v <> Some k' ->
   LRACache.__getitem__ (LRACache.__setitem__ c k v) k'
   = LRACache.__getitem__ c k') /\
  (LRACache.evicted c k v = Some k' ->
   LRACache.__getitem__ (LRACache.__setitem__ c k v) k'
   = Raise (KeyError k')).
Proof.
  unfold LRACache.__getitem__. split.
  - intros Hne Hnev. rewrite items_setitem.
    destruct (LRACache.evicted c k v) as [oldest|].
    + rewrite od_get_od_del_other by congruence.
      now rewrite od_get_od_set_other.
    + now rewrite od_get_od_set_other.
  - intros Hev. rewrite items_setitem, Hev.
    pose proof (contains_od_del_same V
                  (LRACache.od_set (LRACache.items c) k v) k') as H.
    apply od_get_None in H. now rewrite H.
Qed.

Lemma store_touches_stored_and_evicted_witness :
  let c := Uses.store_all (LRACache.__init__ Z 2) [(1, 10); (2, 20)] in
  LRACache.__getitem__ (LRACache.__setitem__ c 3 30) 2 = Ok 20 /\
  LRACache.__getitem__ (LRACache.__setitem__ c 3 30) 1 = Raise (KeyError 1).
Proof.
  split.
  - refine (proj1 (store_touches_stored_and_evicted Z
             (Uses.store_all (LRACache.__init__ Z 2) [(1, 10); (2, 20)])
             3 30 2) _ _); vm_compute; discriminate.
  - exact (proj2 (store_touches_stored_and_evicted Z
             (Uses.store_all (LRACache.__init__ Z 2) [(1, 10); (2, 20)])
             3 30 1) eq_refl).
Defined.

(** X3: The size after a store, for a cache that holds each key once and
    is within its capacity: unchanged when the key was there, and otherwise
    one more, capped at [maxsize]. *)
Theorem size_after_store
        (V : Type) (c : LRACache.t V) (k : Z) (v : V) :
  LRACache.wf c ->
  LRACache.__len__ c <= LRACache.maxsize c ->
  LRACache.__len__ (LRACache.__setitem__ c k v)
  = if LRACache.__contains__ c k then LRACache.__len__ c
    else Z.min (LRACache.__len__ c + 1) (LRACache.maxsize c).
Proof.
  intros Hwf Hc.
  destruct (LRACache.__contains__ c k) eqn:Hk.
  - unfold LRACache.__len__.
    rewrite items_setitem, (evicted_absent_when_room V c k v Hc Hk).
    unfold LRACache.__contains__ in Hk. now rewrite length_od_set, Hk.
  - assert (Hm : 0 <= LRACache.maxsize c)
      by (unfold LRACache.__len__ in Hc; lia).
    unfold LRACache.__len__ in *.
    rewrite (items_store_new V c k v Hwf Hm Hc Hk).
    rewrite length_lastn, length_app. simpl. lia.
Qed.

Lemma size_after_store_witness :
  let c := Uses.store_all (LRACache.__init__ Z 2) [(1, 10); (2, 20)] in
  LRACache.wf c /\ LRACache.__len__ c <= LRACache.maxsize c /\
  LRACache.__len__ (LRACache.__setitem__ c 3 30) = 2.
Proof.
  assert (Hwf : LRACache.wf
                  (Uses.store_all (LRACache.__init__ Z 2) [(1, 10); (2, 20)])).
  { unfold LRACache.wf. vm_compute. repeat constructor; simpl; intuition lia. }
  assert (Hc : LRACache.__len__
                 (Uses.store_all (LRACache.__init__ Z 2) [(1, 10); (2, 20)])
               <= LRACache.maxsize
                    (Uses.store_all (LRACache.__init__ Z 2)
                       [(1, 10); (2, 20)]))
    by (vm_compute; discriminate).
  split; [exact Hwf|]. split; [exact Hc|].
  exact (size_after_store Z
           (Uses.store_all (LRACache.__init__ Z 2) [(1, 10); (2, 20)])
           3 30 Hwf Hc).
Defined.

(** X4: Deleting a key the cache holds removes that entry and no other:
    the key then raises [KeyError], the size goes down by one, the other
    keys read as before and keep their order. *)
Theorem delete_removes_one_entry
        (V : Type) (c : LRACache.t V) (k : Z) (v : V) :
  LRACache.wf c ->
  LRACache.od_get (LRACache.items c) k = Some v ->
  LRACache.__getitem__ (LRACache.__delitem__ c k) k = Raise (KeyError k) /\
  LRACache.__len__ (LRACache.__delitem__ c k) = LRACache.__len__ c - 1 /\
  LRACache.keys (LRACache.items (LRACache.__delitem__ c k))
  = filter (fun x => negb (x =? k)) (LRACache.keys (LRACache.items c)) /\
  (forall k', k' <> k ->
              LRACache.__getitem__ (LRACache.__delitem__ c k) k'
              = LRACache.__getitem__ c k').
Proof.
  intros Hwf Hget.
  assert (Hin : In k (LRACache.keys (LRACache.items c))).
  { apply contains_In, od_get_contains. eauto. }
  unfold LRACache.__getitem__, LRACache.__len__, LRACache.__delitem__.
  simpl. split; [|split; [|split]].
  - pose proof (contains_od_del_same V (LRACache.items c) k) as H.
    apply od_get_None in H. now rewrite H.
  - pose proof (length_od_del_present V (LRACache.items c) k Hwf Hin). lia.
  - apply keys_od_del.
  - intros k' Hne. now rewrite od_get_od_del_other.
Qed.

Lemma delete_removes_one_entry_witness :
  let c := Uses.store_all (LRACache.__init__ Z 2) [(1, 10); (2, 20)] in
  LRACache.wf c /\
  LRACache.od_get (LRACache.items c) 1 = Some 10 /\
  LRACache.__getitem__ (LRACache.__delitem__ c 1) 1 = Raise (KeyError 1) /\
  LRACache.__len__ (LRACache.__delitem__ c 1) = LRACache.__len__ c - 1.
Proof.
  assert (Hwf : LRACache.wf
                  (Uses.store_all (LRACache.__init__ Z 2) [(1, 10); (2, 20)])).
  { unfold LRACache.wf. vm_compute. repeat constructor; simpl; intuition lia. }
  split; [exact Hwf|]. split; [reflexivity|].
  destruct (delete_removes_one_entry Z
              (Uses.store_all (LRACache.__init__ Z 2) [(1, 10); (2, 20)])
              1 10 Hwf eq_refl) as (H1 & H2 & _).
  split; assumption.
Defined.

(** X5: A cache of capacity [maxsize >= 0] that starts empty and is given
    entries with distinct keys one after the other holds exactly the last
    [maxsize] of them, in the order they were given. *)
Theorem cache_holds_last_insertions
        (V : Type) (maxsize : Z) (kvs : list (Z * V)) :
  0 <= maxsize ->
  NoDup (map fst kvs) ->
  LRACache.items (Uses.store_all (LRACache.__init__ V maxsize) kvs)
  = Uses.lastn (Z.to_nat maxsize) kvs.
Proof.
  intros Hm Hnd.
  destruct (items_store_all_distinct V kvs (LRACache.__init__ V maxsize))
    as [H _]; simpl; auto; try apply wf_init;
    unfold LRACache.__len__; simpl; lia.
Qed.

Lemma cache_holds_last_insertions_witness :
  0 <= 2 /\ NoDup (map fst [(5, 50); (3, 30); (9, 90); (1, 10)]) /\
  LRACache.items
    (Uses.store_all (LRACache.__init__ Z 2)
       [(5, 50); (3, 30); (9, 90); (1, 10)])
  = [(9, 90); (1, 10)].
Proof.
  assert (Hnd : NoDup (map fst [(5, 50); (3, 30); (9, 90); (1, 10)]))
    by (repeat constructor; simpl; intuition lia).
  split; [lia|]. split; [exact Hnd|].
  exact (cache_holds_last_insertions Z 2
           [(5, 50); (3, 30); (9, 90); (1, 10)] ltac:(lia) Hnd).
Defined.

(** X6: A cache built with [maxsize <= 0] never holds anything: after any
    sequence of stores, reads and deletions it is empty, and every key
    raises [KeyError]. *)
Theorem cache_without_room_stays_empty
        (V : Type) (maxsize : Z) (ops : list (LRACache.op V)) (k : Z) :
  maxsize <= 0 ->
  LRACache.items (LRACache.run (LRACache.__init__ V maxsize) ops) = [] /\
  LRACache.__getitem__ (LRACache.run (LRACache.__init__ V maxsize) ops) k
  = Raise (KeyError k).
Proof.
  intros Hm.
  assert (H : forall c, LRACache.maxsize c <= 0 -> LRACache.items c = [] ->
                        LRACache.items (LRACache.run c ops) = []).
  { induction ops as [|o ops IH]; intros c Hc Hnil; simpl; [assumption|].
    apply IH; [now rewrite maxsize_apply | now apply items_apply_no_room]. }
  assert (Hnil := H (LRACache.__init__ V maxsize) Hm eq_refl).
  split; [assumption|].
  unfold LRACache.__getitem__. now rewrite Hnil.
Qed.

Lemma cache_without_room_stays_empty_witness :
  -1 <= 0 /\
  LRACache.items
    (LRACache.run (LRACache.__init__ Z (-1))
       [LRACache.Insert 1 10; LRACache.Insert 2 20]) = [].
Proof.
  split; [lia|].
  exact (proj1 (cache_without_room_stays_empty Z (-1)
                  [LRACache.Insert 1 10; LRACache.Insert 2 20] 0
                  ltac:(lia))).
Defined.

(** ** [AsyncVideoFrameLoader], one call at a time *)

Section MoreLoaderFacts.
Import AsyncVideoFrameLoader.
Variable Tensor : Type.
Variable E : env Tensor.

Implicit Types (s : state Tensor) (index : Z).

Lemma fetch_ok_inv index img h w :
  fetch E index = Ok (img, h, w) ->
  exists path, list_index (img_paths E) index = Ok path /\
               _load_img_as_tensor E path = Ok (img, h, w).
Proof.
  unfold fetch. destruct (list_index _ _) as [path|e]; [eauto | discriminate].
Qed.

Lemma on_miss_fetched s index img h w :
  fetch E index = Ok (img, h, w) ->
  let s' :=
    set_images
      (LRACache.__setitem__ (images s) index (normalize E img))
      (set_video_size h w (count_call index s)) in
  on_miss E index s = (LRACache.__getitem__ (images s') index, s').
Proof.
  intros Hf. destruct (fetch_ok_inv _ _ _ _ Hf) as (path & Hp & Hl).
  exact (on_miss_loaded _ E s index path img h w Hp Hl).
Qed.

Lemma on_miss_failed s index e :
  fetch E index = Raise e ->
  on_miss E index s = (Raise e, load_started E index s).
Proof.
  intros Hf. unfold on_miss, _load_frame, load_finished. now rewrite Hf.
Qed.


Lemma list_index_in_range (A : Type) (l : list A) (i : Z) :
  0 <= i < Z.of_nat (length l) ->
  exists x, list_index l i = Ok x /\ nth_error l (Z.to_nat i) = Some x.
Proof.
  intros H. unfold list_index.
  destruct (Z.ltb_spec i 0); [lia|].
  destruct (Z.leb_spec 0 i); [|lia].
  destruct (Z.ltb_spec i (Z.of_nat (length l))); [|lia]. simpl.
  destruct (nth_error l (Z.to_nat i)) as [x|] eqn:Hn; [eauto|].
  apply nth_error_None in Hn. lia.
Qed.

Lemma list_index_negative (A : Type) (l : list A) (i : Z) :
  - Z.of_nat (length l) <= i < 0 ->
  list_index l i = list_index l (i + Z.of_nat (length l)).
Proof.
  intros H.
  destruct (list_index_in_range A l (i + Z.of_nat (length l)))
    as (x & Hx & Hn); [lia|].
  rewrite Hx. unfold list_index.
  destruct (Z.ltb_spec i 0); [|lia].
  destruct (Z.leb_spec 0 (i + Z.of_nat (length l))); [|lia].
  destruct (Z.ltb_spec (i + Z.of_nat (length l)) (Z.of_nat (length l)));
    [|lia].
  simpl. now rewrite Hn.
Qed.

Lemma contains_setitem_other (c : LRACache.t Tensor) (k k' : Z) (v : Tensor) :
  k' <> k -> LRACache.__contains__ c k' = false ->
  LRACache.__contains__ (LRACache.__setitem__ c k v) k' = false.
Proof.
  unfold LRACache.__contains__. intros Hne Hc.
  apply od_get_None. apply od_get_None in Hc.
  destruct (LRACache.od_get (LRACache.items (LRACache.__setitem__ c k v)) k')
    as [y|] eqn:Hg; [|reflexivity].
  apply od_get_setitem_Some in Hg. destruct Hg as [[? _]|[_ Hg]]; congruence.
Qed.

End MoreLoaderFacts.





(** X9: The miss branch keeps the frame it stores, the hit branch deletes
    the frame it returns, so repeated calls for one index alternate.  From
    a loader without background error, with room for a frame, that does
    not hold [index]: the first [get(index)] loads and returns the frame
    and leaves it in the cache, the second returns it without a load and
    removes it, the third loads it again.  Three calls, two loads. *)
Theorem repeated_get_alternates
        (Tensor : Type) (E : env Tensor)
        (s : AsyncVideoFrameLoader.state Tensor) (index : Z)
        (img : Tensor) (h w : Z) :
  AsyncVideoFrameLoader.exception s = None ->
  LRACache.__contains__ (AsyncVideoFrameLoader.images s) index = false ->
  1 <= LRACache.maxsize (AsyncVideoFrameLoader.images s) ->
  AsyncVideoFrameLoader.fetch E index = Ok (img, h, w) ->
  let r1 := AsyncVideoFrameLoader.__getitem__ E index s in
  let r2 := AsyncVideoFrameLoader.__getitem__ E index (snd r1) in
  let r3 := AsyncVideoFrameLoader.__getitem__ E index (snd r2) in
  fst r1 = Ok (normalize E img) /\
  fst r2 = Ok (normalize E img) /\
  fst r3 = Ok (normalize E img) /\
  LRACache.__contains__ (AsyncVideoFrameLoader.images (snd r1)) index
  = true /\
  LRACache.__contains__ (AsyncVideoFrameLoader.images (snd r2)) index
  = false /\
  LRACache.__contains__ (AsyncVideoFrameLoader.images (snd r3)) index
  = true /\
  AsyncVideoFrameLoader.loader_calls (snd r1)
  = AsyncVideoFrameLoader.loader_calls s ++ [index] /\
  AsyncVideoFrameLoader.loader_calls (snd r2)
  = AsyncVideoFrameLoader.loader_calls s ++ [index] /\
  AsyncVideoFrameLoader.loader_calls (snd r3)
  = AsyncVideoFrameLoader.loader_calls s ++ [index; index].
Proof.
  intros He Hk Hm Hf.
  assert (Hmiss : forall s0,
    AsyncVideoFrameLoader.exception s0 = None ->
    LRACache.__contains__ (AsyncVideoFrameLoader.images s0) index = false ->
    1 <= LRACache.maxsize (AsyncVideoFrameLoader.images s0) ->
    AsyncVideoFrameLoader.__getitem__ E index s0
    = (Ok (normalize E img),
       AsyncVideoFrameLoader.set_images
         (LRACache.__setitem__ (AsyncVideoFrameLoader.images s0) index
            (normalize E img))
         (AsyncVideoFrameLoader.set_video_size h w
            (AsyncVideoFrameLoader.count_call index
               (AsyncVideoFrameLoader.set_last_accessed_frame index s0)))) /\
    LRACache.od_get
      (LRACache.items
         (LRACache.__setitem__ (AsyncVideoFrameLoader.images s0) index
            (normalize E img))) index = Some (normalize E img)).
  { intros s0 He0 Hk0 Hm0.
    destruct (setitem_keeps_new_key Tensor
                (AsyncVideoFrameLoader.images s0) index (normalize E img)
                Hm0 Hk0) as [Hget _].
    rewrite getitem_clean by exact He0. rewrite Hk0. simpl.
    rewrite (on_miss_fetched _ E _ _ img h w Hf). simpl.
    rewrite Hget. split; [reflexivity|].
    unfold LRACache.__getitem__ in Hget.
    destruct (LRACache.od_get _ index); congruence. }
  destruct (Hmiss s He Hk Hm) as [H1 Hg1].
  cbv zeta. rewrite H1. cbn [fst snd].
  set (s1 := AsyncVideoFrameLoader.set_images _ _) in *.
  assert (H2 : AsyncVideoFrameLoader.__getitem__ E index s1
               = (Ok (normalize E img),
                  AsyncVideoFrameLoader.set_images
                    (LRACache.__delitem__
                       (AsyncVideoFrameLoader.images s1) index) s1)).
  { rewrite getitem_clean by exact He.
    assert (Hc : LRACache.__contains__
                   (AsyncVideoFrameLoader.images s1) index = true).
    { unfold LRACache.__contains__. apply od_get_contains. eauto. }
    rewrite Hc. simpl. now apply on_hit_present. }
  rewrite H2. cbn [fst snd].
  set (s2 := AsyncVideoFrameLoader.set_images
               (LRACache.__delitem__ _ index) s1) in *.
  assert (Hk2 : LRACache.__contains__
                  (AsyncVideoFrameLoader.images s2) index = false).
  { unfold LRACache.__contains__. apply contains_od_del_same. }
  assert (Hm2 : 1 <= LRACache.maxsize (AsyncVideoFrameLoader.images s2)).
  { subst s2 s1. simpl. now rewrite maxsize_setitem. }
  destruct (Hmiss s2 He Hk2 Hm2) as [H3 Hg3].
  rewrite H3. cbn [fst snd].
  repeat split; try reflexivity; try assumption.
  - unfold LRACache.__contains__. apply od_get_contains. eauto.
  - unfold LRACache.__contains__. simpl. apply od_get_contains. eauto.
  - simpl. now rewrite <- app_assoc.
Qed.

Lemma repeated_get_alternates_witness :
  let s := AsyncVideoFrameLoader.shared (Demo.started Demo.small 0) in
  AsyncVideoFrameLoader.exception s = None /\
  LRACache.__contains__ (AsyncVideoFrameLoader.images s) 7 = false /\
  1 <= LRACache.maxsize (AsyncVideoFrameLoader.images s) /\
  AsyncVideoFrameLoader.fetch Demo.small 7 = Ok (7, 720, 1280) /\
  fst (AsyncVideoFrameLoader.__getitem__ Demo.small 7 s) = Ok 1007.
Proof.
  assert (Hm : 1 <= LRACache.maxsize
                      (AsyncVideoFrameLoader.images
                         (AsyncVideoFrameLoader.shared
                            (Demo.started Demo.small 0))))
    by (vm_compute; discriminate).
  split; [reflexivity|]. split; [reflexivity|]. split; [exact Hm|].
  split; [reflexivity|].
  exact (proj1 (repeated_get_alternates Z Demo.small
                  (AsyncVideoFrameLoader.shared (Demo.started Demo.small 0))
                  7 7 720 1280 eq_refl eq_refl Hm eq_refl)).
Defined.

(** X10: A negative index in range reads the frame that the index counted
    from the front reads, but is cached under its own key.  For
    [-len <= index < 0], fetching [index] is fetching [index + len]; a
    [get(index)] on a loader that holds neither key returns what
    [get(index + len)] would return, and leaves [index + len] out of the
    cache, so that a later [get(index + len)] loads the image again. *)
Theorem negative_index_is_its_own_key
        (Tensor : Type) (E : env Tensor)
        (s : AsyncVideoFrameLoader.state Tensor) (index : Z) :
  - AsyncVideoFrameLoader.__len__ E <= index < 0 ->
  AsyncVideoFrameLoader.exception s = None ->
  LRACache.__contains__ (AsyncVideoFrameLoader.images s) index = false ->
  LRACache.__contains__ (AsyncVideoFrameLoader.images s)
    (index + AsyncVideoFrameLoader.__len__ E) = false ->
  AsyncVideoFrameLoader.fetch E index
  = AsyncVideoFrameLoader.fetch E (index + AsyncVideoFrameLoader.__len__ E) /\
  LRACache.__contains__
    (AsyncVideoFrameLoader.images
       (snd (AsyncVideoFrameLoader.__getitem__ E index s)))
    (index + AsyncVideoFrameLoader.__len__ E) = false /\
  (1 <= LRACache.maxsize (AsyncVideoFrameLoader.images s) ->
   fst (AsyncVideoFrameLoader.__getitem__ E index s)
   = fst (AsyncVideoFrameLoader.__getitem__ E
            (index + AsyncVideoFrameLoader.__len__ E) s)).
Proof.
  unfold AsyncVideoFrameLoader.__len__. intros Hrange He Hk Hk'.
  set (n := Z.of_nat (length (img_paths E))) in *.
  assert (Hfetch : AsyncVideoFrameLoader.fetch E index
                   = AsyncVideoFrameLoader.fetch E (index + n)).
  { unfold AsyncVideoFrameLoader.fetch.
    now rewrite (list_index_negative _ (img_paths E) index Hrange). }
  split; [exact Hfetch|].
  rewrite !getitem_clean by exact He. rewrite Hk, Hk'. simpl.
  destruct (AsyncVideoFrameLoader.fetch E index) as [[[img h] w]|e] eqn:Hf.
  - rewrite (on_miss_fetched _ E _ index img h w Hf).
    rewrite (on_miss_fetched _ E _ (index + n) img h w (eq_sym Hfetch)).
    simpl. split.
    + apply contains_setitem_other; [lia | assumption].
    + intros Hm.
      destruct (setitem_keeps_new_key Tensor
                  (AsyncVideoFrameLoader.images s) index (normalize E img)
                  Hm Hk) as [-> _].
      destruct (setitem_keeps_new_key Tensor
                  (AsyncVideoFrameLoader.images s) (index + n)
                  (normalize E img) Hm Hk') as [-> _].
      reflexivity.
  - rewrite (on_miss_failed _ E _ index e Hf).
    rewrite (on_miss_failed _ E _ (index + n) e (eq_sym Hfetch)). simpl.
    split; [|reflexivity].
    now destruct (load_started_fields _ E
                    (AsyncVideoFrameLoader.set_last_accessed_frame index s)
                    index) as (-> & _).
Qed.

Lemma negative_index_is_its_own_key_witness :
  let s := AsyncVideoFrameLoader.shared (Demo.started Demo.small 0) in
  - AsyncVideoFrameLoader.__len__ Demo.small <= -1 < 0 /\
  AsyncVideoFrameLoader.fetch Demo.small (-1)
  = AsyncVideoFrameLoader.fetch Demo.small 9 /\
  LRACache.__contains__
    (AsyncVideoFrameLoader.images
       (snd (AsyncVideoFrameLoader.__getitem__ Demo.small (-1) s))) 9
  = false.
Proof.
  assert (Hr : - AsyncVideoFrameLoader.__len__ Demo.small <= -1 < 0)
    by (vm_compute; split; [discriminate | reflexivity]).
  split; [exact Hr|].
  destruct (negative_index_is_its_own_key Z Demo.small
              (AsyncVideoFrameLoader.shared (Demo.started Demo.small 0))
              (-1) Hr eq_refl eq_refl eq_refl) as (H1 & H2 & _).
  split; [exact H1 | exact H2].
Defined.

(** ** The threads of the loader *)

Section MoreSystemFacts.
Import AsyncVideoFrameLoader.
Variable Tensor : Type.
Variable E : env Tensor.

Implicit Types (g : system Tensor) (s : state Tensor) (ev : event).

(** The background error is written by the scheduling thread as it
    exits, and by nothing else. *)
Lemma exception_exec ev g :
  exception (shared (exec E ev g)) = exception (shared g) \/
  (ev = EvScheduler /\ prefetch (exec E ev g) = SExited /\
   exists current_frame frame end_frame,
     prefetch g = SFor current_frame frame end_frame).
Proof.
  destruct ev as [index| | |n]; simpl.
  - left. destruct (main g); [|reflexivity]. unfold get_enter.
    destruct (exception (shared g)) eqn:He; simpl; [assumption|].
    destruct (negb _); simpl.
    + destruct (load_started_fields _ E
                  (set_last_accessed_frame index (shared g)) index)
        as (_ & -> & _). exact He.
    + unfold on_hit. destruct (LRACache.__getitem__ _ _); exact He.
  - left. destruct (main g) as [|index]; [reflexivity|]. unfold get_resume.
    pose proof (load_finished_fields _ E (shared g) index) as (H & _).
    pose proof (read_back_state _ index (load_finished E index (shared g)))
      as Hrb.
    destruct (read_back index _) as [r s']. simpl in *. congruence.
  - destruct (prefetch g) as [|cur frame end_frame|just_ran|]; simpl;
      auto.
    + destruct (frame <? end_frame); simpl.
      * left. now destruct (negb _).
      * destruct (pbar_refresh E cur); simpl; [right|left]; eauto 7.
    + left. now destruct (just_ran =? _).
  - left. apply exec_worker_exception.
Qed.

Lemma getitem_exception index s :
  exception s = None -> exception (snd (__getitem__ E index s)) = None.
Proof.
  intros He. rewrite getitem_clean by exact He.
  destruct (negb _).
  - unfold on_miss, _load_frame. rewrite read_back_state.
    destruct (load_finished_fields _ E (load_started E index
                (set_last_accessed_frame index s)) index) as (-> & _).
    now destruct (load_started_fields _ E
                    (set_last_accessed_frame index s) index)
      as (_ & -> & _).
  - unfold on_hit. now destruct (LRACache.__getitem__ _ _).
Qed.

Lemma constructor_state_clean start g0 :
  boot E start = Ok g0 ->
  exception (shared g0) = None /\ prefetch g0 = SStart /\ main g0 = CReady.
Proof.
  intros Hboot.
  destruct (boot_shape _ E _ _ Hboot) as (s0 & Hinit & ->). simpl.
  repeat split. unfold __init__ in Hinit.
  pose proof (getitem_exception start (fresh E start) eq_refl) as H.
  destruct (__getitem__ E start (fresh E start)) as [[v|e] s1];
    [|discriminate].
  injection Hinit as <-. exact H.
Qed.

Lemma exited_or_clean start g0 evs :
  boot E start = Ok g0 ->
  exception (shared (run E evs g0)) = None \/
  prefetch (run E evs g0) = SExited.
Proof.
  intros Hboot. induction evs as [|ev evs IH] using rev_ind.
  - left. simpl. now destruct (constructor_state_clean start g0 Hboot).
  - rewrite run_snoc.
    destruct (exception_exec ev (run E evs g0)) as [Heq|(-> & Hx & _)];
      [|now right].
    rewrite Heq. destruct IH as [IH|IH]; [now left|right].
    destruct (event_eq_scheduler ev) as [->|Hne].
    + rewrite prefetch_exec_scheduler, IH. reflexivity.
    + now rewrite prefetch_exec_other.
Qed.

(** The cursor is written by [get] and by nothing else. *)
Lemma cursor_exec ev g :
  last_accessed_frame (shared (exec E ev g))
  = last_accessed_frame (shared g) \/
  exists index, ev = EvGet index /\
                last_accessed_frame (shared (exec E ev g)) = index.
Proof.
  destruct ev as [index| | |n]; simpl.
  - destruct (main g); [|now left]. unfold get_enter.
    destruct (exception (shared g)); simpl; [now left|].
    right. exists index. split; [reflexivity|].
    destruct (negb _); simpl.
    + now destruct (load_started_fields _ E
                      (set_last_accessed_frame index (shared g)) index)
        as (_ & _ & -> & _).
    + unfold on_hit. now destruct (LRACache.__getitem__ _ _).
  - left. destruct (main g) as [|index]; [reflexivity|]. unfold get_resume.
    pose proof (load_finished_fields _ E (shared g) index) as (_ & H & _).
    pose proof (read_back_state _ index (load_finished E index (shared g)))
      as Hrb.
    destruct (read_back index _) as [r s']. simpl in *. congruence.
  - left. destruct (prefetch g) as [|cur frame end_frame|just_ran|]; simpl;
      auto.
    + destruct (frame <? end_frame); simpl.
      * now destruct (negb _).
      * now destruct (pbar_refresh E cur).
    + now destruct (just_ran =? _).
  - left. destruct (nth_error (workers g) n) as [w|]; [|reflexivity].
    destruct w as [|frame|e]; simpl; [| |reflexivity].
    + destruct (tasks (shared g)) as [|frame q]; [reflexivity|]. simpl.
      now destruct (load_started_fields _ E (set_tasks q (shared g)) frame)
        as (_ & _ & -> & _).
    + pose proof (load_finished_fields _ E (shared g) frame)
        as (_ & H & _).
      destruct (load_finished E frame (shared g)) as [[[]|e] s'];
        simpl in *; [assumption|].
      now destruct (is_QueueEmpty e).
Qed.

(** A system whose background error is set, whose scheduling thread has
    exited and whose consumer is between calls stays so, and answers every
    call with the failure. *)
Lemma poisoned_exec ev g cause :
  exception (shared g) = Some cause -> prefetch g = SExited ->
  main g = CReady ->
  let g' := exec E ev g in
  exception (shared g') = Some cause /\ prefetch g' = SExited /\
  main g' = CReady /\
  last_accessed_frame (shared g') = last_accessed_frame (shared g) /\
  returned g' = returned g ++ Threads.failures Tensor cause (Threads.gets [ev]) /\
  exists taken, tasks (shared g) = taken ++ tasks (shared g').
Proof.
  intros He Hp Hm. destruct ev as [index| | |n]; simpl.
  - rewrite Hm. unfold get_enter. rewrite He. simpl.
    repeat split; auto. now exists [].
  - rewrite Hm, app_nil_r. repeat split; auto. now exists [].
  - rewrite Hp, app_nil_r. simpl. repeat split; auto. now exists [].
  - rewrite app_nil_r.
    pose proof (exec_worker_exception _ E g n) as Hx.
    pose proof (tasks_exec_other _ E (EvWorker n) g ltac:(discriminate))
      as Ht.
    destruct (cursor_exec (EvWorker n) g) as [Hc|(i & Hi & _)];
      [|discriminate].
    simpl in Hx, Ht, Hc.
    destruct (nth_error (workers g) n) as [w|]; [|repeat split; auto].
    destruct (_worker_step E w (shared g)) as [w' s']. simpl in *.
    repeat split; auto. congruence.
Qed.

Lemma failures_app cause (a b : list Z) :
  Threads.failures Tensor cause (a ++ b)
  = Threads.failures Tensor cause a ++ Threads.failures Tensor cause b.
Proof. unfold Threads.failures. apply map_app. Qed.

Lemma gets_cons ev evs :
  Threads.gets (ev :: evs) = Threads.gets [ev] ++ Threads.gets evs.
Proof. unfold Threads.gets. simpl. now rewrite app_nil_r. Qed.

Lemma poisoned_run evs g cause :
  exception (shared g) = Some cause -> prefetch g = SExited ->
  main g = CReady ->
  let g' := run E evs g in
  exception (shared g') = Some cause /\ prefetch g' = SExited /\
  main g' = CReady /\
  last_accessed_frame (shared g') = last_accessed_frame (shared g) /\
  returned g' = returned g ++ Threads.failures Tensor cause (Threads.gets evs) /\
  exists taken, tasks (shared g) = taken ++ tasks (shared g').
Proof.
  revert g. induction evs as [|ev evs IH]; intros g He Hp Hm; cbv zeta.
  - simpl. rewrite app_nil_r. repeat split; auto. now exists [].
  - destruct (poisoned_exec ev g cause He Hp Hm)
      as (He1 & Hp1 & Hm1 & Hc1 & Hr1 & taken1 & Ht1).
    destruct (IH (exec E ev g) He1 Hp1 Hm1)
      as (He2 & Hp2 & Hm2 & Hc2 & Hr2 & taken2 & Ht2).
    change (run E (ev :: evs) g) with (run E evs (exec E ev g)).
    repeat split; auto; try congruence.
    + rewrite Hr2, Hr1, (gets_cons ev evs), failures_app.
      now rewrite <- app_assoc.
    + exists (taken1 ++ taken2). rewrite Ht1, Ht2. now rewrite <- app_assoc.
Qed.

End MoreSystemFacts.

(** X11: Once the scheduling thread has recorded an exception, the loader
    stays poisoned under every interleaving.  From a state reached after
    the constructor in which [self.exception] is set and the consumer is
    between calls: whatever events follow, [self.exception] keeps that
    cause, every [get] raises the [RuntimeError] made from it (for any
    index, cached or not) and leaves the cursor alone, the scheduling
    thread is gone and the queue only shrinks. *)
Theorem background_error_is_sticky
        (Tensor : Type) (E : env Tensor) (start : Z)
        (g0 : AsyncVideoFrameLoader.system Tensor)
        (before after : list AsyncVideoFrameLoader.event) (cause : exn) :
  AsyncVideoFrameLoader.boot E start = Ok g0 ->
  let g := AsyncVideoFrameLoader.run E before g0 in
  AsyncVideoFrameLoader.exception (AsyncVideoFrameLoader.shared g)
  = Some cause ->
  AsyncVideoFrameLoader.main g = AsyncVideoFrameLoader.CReady ->
  let g' := AsyncVideoFrameLoader.run E after g in
  AsyncVideoFrameLoader.exception (AsyncVideoFrameLoader.shared g')
  = Some cause /\
  AsyncVideoFrameLoader.returned g'
  = AsyncVideoFrameLoader.returned g
    ++ Threads.failures Tensor cause (Threads.gets after) /\
  AsyncVideoFrameLoader.last_accessed_frame (AsyncVideoFrameLoader.shared g')
  = AsyncVideoFrameLoader.last_accessed_frame
      (AsyncVideoFrameLoader.shared g) /\
  AsyncVideoFrameLoader.prefetch g' = AsyncVideoFrameLoader.SExited /\
  exists taken,
    AsyncVideoFrameLoader.tasks (AsyncVideoFrameLoader.shared g)
    = taken
      ++ AsyncVideoFrameLoader.tasks (AsyncVideoFrameLoader.shared g').
Proof.
  intros Hboot g He Hm g'.
  assert (Hp : AsyncVideoFrameLoader.prefetch g
               = AsyncVideoFrameLoader.SExited).
  { destruct (exited_or_clean Tensor E start g0 before Hboot) as [H|H];
      [fold g in H; congruence | exact H]. }
  destruct (poisoned_run Tensor E after g cause He Hp Hm)
    as (H1 & H2 & _ & H4 & H5 & H6).
  auto.
Qed.

Lemma background_error_is_sticky_witness :
  AsyncVideoFrameLoader.boot Demo.small_broken 0
  = Ok (Demo.started Demo.small_broken 0) /\
  AsyncVideoFrameLoader.exception (AsyncVideoFrameLoader.shared Demo.poisoned)
  = Some (ExternalError "tqdm") /\
  AsyncVideoFrameLoader.main Demo.poisoned = AsyncVideoFrameLoader.CReady /\
  AsyncVideoFrameLoader.returned
    (AsyncVideoFrameLoader.run Demo.small_broken
       [AsyncVideoFrameLoader.EvGet 5; AsyncVideoFrameLoader.EvWorker 0;
        AsyncVideoFrameLoader.EvGet 0] Demo.poisoned)
  = [(5, Raise (RuntimeError AsyncVideoFrameLoader.failure_message
                  (ExternalError "tqdm")));
     (0, Raise (RuntimeError AsyncVideoFrameLoader.failure_message
                  (ExternalError "tqdm")))].
Proof.
  split; [reflexivity|]. split; [reflexivity|]. split; [reflexivity|].
  exact (proj1 (proj2 (background_error_is_sticky Z Demo.small_broken 0
    (Demo.started Demo.small_broken 0)
    (repeat AsyncVideoFrameLoader.EvScheduler 5)
    [AsyncVideoFrameLoader.EvGet 5; AsyncVideoFrameLoader.EvWorker 0;
     AsyncVideoFrameLoader.EvGet 0]
    (ExternalError "tqdm") eq_refl eq_refl eq_refl))).
Defined.

Section AloneFacts.
Import AsyncVideoFrameLoader.
Variable Tensor : Type.
Variable E : env Tensor.

Implicit Types (g : system Tensor) (s : state Tensor).

Lemma range_empty (a b : Z) : b <= a -> Threads.range a b = [].
Proof.
  intros H. unfold Threads.range.
  replace (Z.to_nat (b - a)) with 0%nat by lia. reflexivity.
Qed.

Lemma range_cons (a b : Z) :
  a < b -> Threads.range a b = a :: Threads.range (a + 1) b.
Proof.
  intros H. unfold Threads.range.
  replace (Z.to_nat (b - a)) with (S (Z.to_nat (b - (a + 1)))) by lia.
  simpl. f_equal; [lia|].
  rewrite <- seq_shift, map_map. apply map_ext. intros j. lia.
Qed.

Lemma In_range (a b x : Z) : In x (Threads.range a b) <-> a <= x < b.
Proof.
  unfold Threads.range. rewrite in_map_iff. split.
  - intros (j & <- & Hj). apply in_seq in Hj. lia.
  - intros H. exists (Z.to_nat (x - a)). split; [lia|].
    apply in_seq. lia.
Qed.

Lemma set_tasks_same s : set_tasks (tasks s) s = s.
Proof. now destruct s. Qed.

(** The [for] of an iteration, run without interruption. *)
Lemma for_loop_alone (n : nat) current_frame frame end_frame s :
  n = Z.to_nat (end_frame - frame) ->
  Threads._load_frames E n (SFor current_frame frame end_frame) s
  = (SFor current_frame (Z.max frame end_frame) end_frame,
     set_tasks (tasks s ++ Threads.uncached s frame end_frame) s).
Proof.
  revert frame s. induction n as [|n IH]; intros frame s Hn.
  - simpl. unfold Threads.uncached. rewrite range_empty by lia. simpl.
    rewrite app_nil_r, set_tasks_same. f_equal. f_equal. lia.
  - simpl. destruct (Z.ltb_spec frame end_frame) as [Hlt|]; [|lia].
    rewrite (IH (frame + 1)) by lia.
    replace (Z.max (frame + 1) end_frame) with (Z.max frame end_frame)
      by lia.
    unfold Threads.uncached. rewrite (range_cons frame end_frame Hlt).
    simpl.
    destruct (LRACache.__contains__ (images s) frame); simpl;
      [reflexivity|].
    unfold add_task, set_tasks. simpl. now rewrite <- app_assoc.
Qed.

(** A whole iteration from its head to the wait. *)
Lemma iteration_alone s :
  let current_frame := last_accessed_frame s in
  let end_frame := Z.min (current_frame + K E) (__len__ E) in
  let s' :=
    set_tasks (tasks s ++ Threads.uncached s current_frame end_frame) s in
  Threads._load_frames E (1 + Z.to_nat (end_frame - current_frame))
    (SFor current_frame current_frame end_frame) s
  = match pbar_refresh E current_frame with
    | Some e => (SExited, set_exception e s')
    | None => (SWait current_frame, s')
    end.
Proof.
  intros cur end_frame s'.
  assert (Hadd : forall a b p s0,
             Threads._load_frames E (b + a) p s0
             = let (p', s1) := Threads._load_frames E b p s0 in
               Threads._load_frames E a p' s1).
  { intros a b. induction b as [|b IHb]; intros p s0; simpl; [reflexivity|].
    destruct (_load_frames_step E p s0) as [p' s1]. apply IHb. }
  rewrite Nat.add_comm, Hadd, (for_loop_alone _ cur cur end_frame s eq_refl).
  fold s'. simpl.
  destruct (Z.ltb_spec (Z.max cur end_frame) end_frame); [lia|].
  now destruct (pbar_refresh E cur).
Qed.

(** While the cursor stays where the scheduling thread left it, the
    thread waits and the queue gets nothing new. *)
Lemma waiting_exec ev g just_ran :
  prefetch g = SWait just_ran ->
  last_accessed_frame (shared g) = just_ran ->
  (forall index, ev = EvGet index -> index = just_ran) ->
  prefetch (exec E ev g) = SWait just_ran /\
  last_accessed_frame (shared (exec E ev g)) = just_ran /\
  exists taken, tasks (shared g) = taken ++ tasks (shared (exec E ev g)).
Proof.
  intros Hp Hc Hev.
  destruct (event_eq_scheduler ev) as [->|Hne].
  - simpl. rewrite Hp. simpl. rewrite Hc, Z.eqb_refl. simpl.
    repeat split; auto. now exists [].
  - split; [now rewrite prefetch_exec_other|].
    split; [|now apply tasks_exec_other].
    destruct (cursor_exec Tensor E ev g) as [H|(index & -> & H)];
      [congruence|].
    rewrite H. now apply Hev.
Qed.

Lemma waiting_run evs g just_ran :
  prefetch g = SWait just_ran ->
  last_accessed_frame (shared g) = just_ran ->
  Forall (fun ev => forall index, ev = EvGet index -> index = just_ran) evs ->
  prefetch (run E evs g) = SWait just_ran /\
  last_accessed_frame (shared (run E evs g)) = just_ran /\
  exists taken, tasks (shared g) = taken ++ tasks (shared (run E evs g)).
Proof.
  intros Hp Hc Hall. revert g Hp Hc.
  induction Hall as [|ev evs Hev _ IH]; intros g Hp Hc.
  - simpl. repeat split; auto. now exists [].
  - destruct (waiting_exec ev g just_ran Hp Hc Hev) as (Hp1 & Hc1 & t1 & Ht1).
    destruct (IH (exec E ev g) Hp1 Hc1) as (Hp2 & Hc2 & t2 & Ht2).
    change (run E (ev :: evs) g) with (run E evs (exec E ev g)).
    repeat split; auto.
    exists (t1 ++ t2). rewrite Ht1, Ht2. now rewrite <- app_assoc.
Qed.

(** [_load_frame] does not read the queue. *)
Lemma load_frame_set_tasks (q : list Z) index s :
  snd (_load_frame E index (set_tasks q s))
  = set_tasks q (snd (_load_frame E index s)).
Proof.
  unfold _load_frame, load_started, load_finished.
  destruct (list_index (img_paths E) index) as [path|e0];
    destruct (fetch E index) as [[[img h] w]|e]; reflexivity.
Qed.

Lemma fold_load_frame_set_tasks (q : list Z) (frames : list Z) s :
  fold_left (fun s frame => snd (_load_frame E frame s)) frames
            (set_tasks q s)
  = set_tasks q
      (fold_left (fun s frame => snd (_load_frame E frame s)) frames s).
Proof.
  revert s. induction frames as [|f frames IH]; intros s; simpl;
    [reflexivity|].
  now rewrite load_frame_set_tasks, IH.
Qed.

Lemma worker_task_state s frame q :
  tasks s = frame :: q -> survivable E frame = true ->
  _worker E 2 WWaiting s
  = (WWaiting, snd (_load_frame E frame (set_tasks q s))).
Proof.
  intros Hq Hsv. rewrite worker_run_2, (worker_step_waiting _ E _ _ _ Hq).
  cbn [fst snd]. unfold _worker_step, _load_frame.
  unfold survivable in Hsv. unfold load_finished.
  destruct (fetch E frame) as [[[img h] w]|e]; [reflexivity|].
  now rewrite Hsv.
Qed.

Lemma worker_drains_as_fold (done rest : list Z) s :
  tasks s = done ++ rest -> forallb (survivable E) done = true ->
  _worker E (2 * length done) WWaiting s
  = (WWaiting,
     set_tasks rest
       (fold_left (fun s frame => snd (_load_frame E frame s)) done s)).
Proof.
  revert s. induction done as [|frame done IH]; intros s Hq Hall.
  - simpl in *. now rewrite <- Hq, set_tasks_same.
  - simpl in Hq, Hall. apply andb_true_iff in Hall. destruct Hall as [Hf Hall].
    replace (2 * length (frame :: done))%nat
      with (2 + 2 * length done)%nat by (simpl; lia).
    rewrite worker_run_add, (worker_task_state s frame _ Hq Hf).
    rewrite IH; [|now rewrite load_frame_set_tasks|assumption].
    simpl. rewrite load_frame_set_tasks, fold_load_frame_set_tasks.
    now destruct (fold_left _ done _).
Qed.

Lemma load_frame_calls index s :
  loader_calls (snd (_load_frame E index s))
  = loader_calls s ++ (if Threads.valid_index E index then [index] else []).
Proof.
  unfold _load_frame.
  destruct (load_finished_fields _ E (load_started E index s) index)
    as (_ & _ & _ & ->).
  rewrite load_started_calls. unfold Threads.valid_index.
  destruct (list_index _ _); [reflexivity | now rewrite app_nil_r].
Qed.

Lemma fold_load_frame_calls (frames : list Z) s :
  loader_calls
    (fold_left (fun s frame => snd (_load_frame E frame s)) frames s)
  = loader_calls s ++ filter (Threads.valid_index E) frames.
Proof.
  revert s. induction frames as [|f frames IH]; intros s; simpl.
  - now rewrite app_nil_r.
  - rewrite IH, load_frame_calls.
    destruct (Threads.valid_index E f); simpl;
      [now rewrite <- app_assoc | now rewrite app_nil_r].
Qed.





End AloneFacts.

Section OrderFacts.

Lemma sorted_filter (f : Z -> bool) (l : list Z) :
  StronglySorted Z.lt l -> StronglySorted Z.lt (filter f l).
Proof.
  induction 1 as [|a l Hs IH Ha]; simpl; [constructor|].
  destruct (f a); [|assumption].
  constructor; [assumption|].
  rewrite Forall_forall in *. intros x Hx. apply filter_In in Hx.
  now apply Ha.
Qed.

Lemma sorted_range (a b : Z) : StronglySorted Z.lt (Threads.range a b).
Proof.
  remember (Z.to_nat (b - a)) as n eqn:Hn. revert a Hn.
  induction n as [|n IH]; intros a Hn.
  - rewrite range_empty by lia. constructor.
  - rewrite range_cons by lia. constructor; [apply IH; lia|].
    rewrite Forall_forall. intros x Hx. apply In_range in Hx. lia.
Qed.

End OrderFacts.

(** X12: One iteration of the scheduling thread that no other thread
    interrupts.  Starting the iteration reads the cursor [cur]; after it,
    the queue has received, in increasing order and once each, exactly the
    frames of [cur <= frame < min(cur + K, len(img_paths))] that were not
    in the cache, nothing else of the state has changed, and the thread
    waits on [cur] (or has recorded the exception of the progress bar and
    exited). *)
Theorem iteration_submits_uncached_window
        (Tensor : Type) (E : env Tensor)
        (p : AsyncVideoFrameLoader.scheduler)
        (s : AsyncVideoFrameLoader.state Tensor) :
  let cur := AsyncVideoFrameLoader.last_accessed_frame s in
  let end_frame :=
    Z.min (cur + AsyncVideoFrameLoader.K E) (AsyncVideoFrameLoader.__len__ E) in
  let new := Threads.uncached s cur end_frame in
  let s' :=
    AsyncVideoFrameLoader.set_tasks (AsyncVideoFrameLoader.tasks s ++ new) s in
  (p = AsyncVideoFrameLoader.SStart \/
   exists just_ran, p = AsyncVideoFrameLoader.SWait just_ran /\
                    just_ran <> cur) ->
  Threads._load_frames E (2 + Z.to_nat (end_frame - cur)) p s
  = match pbar_refresh E cur with
    | Some e =>
        (AsyncVideoFrameLoader.SExited,
         AsyncVideoFrameLoader.set_exception e s')
    | None => (AsyncVideoFrameLoader.SWait cur, s')
    end /\
  (forall frame,
      In frame new <->
      cur <= frame < end_frame /\
      LRACache.__contains__ (AsyncVideoFrameLoader.images s) frame = false) /\
  StronglySorted Z.lt new.
Proof.
  intros cur end_frame new s' Hp.
  split; [|split].
  - assert (Hstep : AsyncVideoFrameLoader._load_frames_step E p s
                    = (AsyncVideoFrameLoader.SFor cur cur end_frame, s)).
    { destruct Hp as [->|(j & -> & Hj)]; [reflexivity|]. simpl.
      destruct (Z.eqb_spec j (AsyncVideoFrameLoader.last_accessed_frame s));
        [contradiction | reflexivity]. }
    change (2 + Z.to_nat (end_frame - cur))%nat
      with (S (1 + Z.to_nat (end_frame - cur))).
    cbn [Threads._load_frames]. rewrite Hstep.
    exact (iteration_alone Tensor E s).
  - intros frame. unfold new, Threads.uncached.
    rewrite filter_In, In_range.
    destruct (LRACache.__contains__ _ frame); simpl; intuition congruence.
  - apply sorted_filter, sorted_range.
Qed.

Lemma iteration_submits_uncached_window_witness :
  let s := AsyncVideoFrameLoader.shared (Demo.started Demo.small_bad 0) in
  Threads._load_frames Demo.small_bad 8 AsyncVideoFrameLoader.SStart s
  = (AsyncVideoFrameLoader.SWait 0,
     AsyncVideoFrameLoader.set_tasks [1; 2; 3; 4; 5] s).
Proof.
  exact (proj1 (iteration_submits_uncached_window Z Demo.small_bad
                  AsyncVideoFrameLoader.SStart
                  (AsyncVideoFrameLoader.shared
                     (Demo.started Demo.small_bad 0))
                  (or_introl eq_refl))).
Defined.

(** X13: The scheduling thread schedules again only when the cursor
    moves.  While it waits on [just_ran] and the consumer only asks for
    [just_ran] again, whatever the workers and the consumer do (the frame
    may have been consumed by a hit or evicted), the thread keeps waiting
    and nothing is added to the queue. *)
Theorem no_prefetch_until_cursor_moves
        (Tensor : Type) (E : env Tensor)
        (g : AsyncVideoFrameLoader.system Tensor) (just_ran : Z)
        (evs : list AsyncVideoFrameLoader.event) :
  AsyncVideoFrameLoader.prefetch g = AsyncVideoFrameLoader.SWait just_ran ->
  AsyncVideoFrameLoader.last_accessed_frame (AsyncVideoFrameLoader.shared g)
  = just_ran ->
  Forall (fun ev => forall index,
              ev = AsyncVideoFrameLoader.EvGet index -> index = just_ran)
         evs ->
  let g' := AsyncVideoFrameLoader.run E evs g in
  AsyncVideoFrameLoader.prefetch g' = AsyncVideoFrameLoader.SWait just_ran /\
  AsyncVideoFrameLoader.last_accessed_frame (AsyncVideoFrameLoader.shared g')
  = just_ran /\
  exists taken,
    AsyncVideoFrameLoader.tasks (AsyncVideoFrameLoader.shared g)
    = taken ++ AsyncVideoFrameLoader.tasks (AsyncVideoFrameLoader.shared g').
Proof. intros Hp Hc Hall. now apply waiting_run. Qed.

Lemma no_prefetch_until_cursor_moves_witness :
  let g :=
    AsyncVideoFrameLoader.run Demo.small
      (repeat AsyncVideoFrameLoader.EvScheduler 5)
      (Demo.started Demo.small 0) in
  let evs :=
    [AsyncVideoFrameLoader.EvGet 0; AsyncVideoFrameLoader.EvScheduler;
     AsyncVideoFrameLoader.EvGet 0; AsyncVideoFrameLoader.EvResume;
     AsyncVideoFrameLoader.EvScheduler] in
  AsyncVideoFrameLoader.prefetch g = AsyncVideoFrameLoader.SWait 0 /\
  AsyncVideoFrameLoader.last_accessed_frame (AsyncVideoFrameLoader.shared g)
  = 0 /\
  AsyncVideoFrameLoader.prefetch (AsyncVideoFrameLoader.run Demo.small evs g)
  = AsyncVideoFrameLoader.SWait 0.
Proof.
  split; [reflexivity|]. split; [reflexivity|].
  refine (proj1 (no_prefetch_until_cursor_moves Z Demo.small
    (AsyncVideoFrameLoader.run Demo.small
       (repeat AsyncVideoFrameLoader.EvScheduler 5)
       (Demo.started Demo.small 0)) 0
    [AsyncVideoFrameLoader.EvGet 0; AsyncVideoFrameLoader.EvScheduler;
     AsyncVideoFrameLoader.EvGet 0; AsyncVideoFrameLoader.EvResume;
     AsyncVideoFrameLoader.EvScheduler] eq_refl eq_refl _)).
  repeat constructor; intros index H; try discriminate H;
    injection H as <-; reflexivity.
Defined.

(** X14: A worker takes the tasks in the order they were queued, and what
    it does to the loader is what calling [_load_frame] on each frame in
    turn does.  As long as every load returns (or raises [queue.Empty]),
    the worker running alone on the queue [done ++ rest] ends at [get]
    with the state obtained by folding [_load_frame] over [done], the
    queue being [rest]; the loader has been called for the frames of
    [done] with a valid index, in queue order. *)
Theorem worker_is_fifo
        (Tensor : Type) (E : env Tensor)
        (s : AsyncVideoFrameLoader.state Tensor) (done rest : list Z) :
  AsyncVideoFrameLoader.tasks s = done ++ rest ->
  forallb (AsyncVideoFrameLoader.survivable E) done = true ->
  let after :=
    fold_left
      (fun s frame => snd (AsyncVideoFrameLoader._load_frame E frame s))
      done s in
  AsyncVideoFrameLoader._worker E (2 * length done)
    AsyncVideoFrameLoader.WWaiting s
  = (AsyncVideoFrameLoader.WWaiting,
     AsyncVideoFrameLoader.set_tasks rest after) /\
  AsyncVideoFrameLoader.loader_calls after
  = AsyncVideoFrameLoader.loader_calls s
    ++ filter (Threads.valid_index E) done.
Proof.
  intros Hq Hall after. split.
  - now apply worker_drains_as_fold.
  - apply fold_load_frame_calls.
Qed.

Lemma worker_is_fifo_witness :
  let s :=
    AsyncVideoFrameLoader.shared
      (AsyncVideoFrameLoader.run Demo.small
         (repeat AsyncVideoFrameLoader.EvScheduler 5)
         (Demo.started Demo.small 0)) in
  AsyncVideoFrameLoader.tasks s = [1; 2] ++ [] /\
  forallb (AsyncVideoFrameLoader.survivable Demo.small) [1; 2] = true /\
  AsyncVideoFrameLoader.loader_calls
    (snd (AsyncVideoFrameLoader._worker Demo.small 4
            AsyncVideoFrameLoader.WWaiting s))
  = [0; 1; 2].
Proof.
  split; [reflexivity|]. split; [reflexivity|].
  destruct (worker_is_fifo Z Demo.small
              (AsyncVideoFrameLoader.shared
                 (AsyncVideoFrameLoader.run Demo.small
                    (repeat AsyncVideoFrameLoader.EvScheduler 5)
                    (Demo.started Demo.small 0)))
              [1; 2] [] eq_refl eq_refl) as [Hrun Hcalls].
  exact (eq_trans
           (f_equal (fun x => AsyncVideoFrameLoader.loader_calls (snd x))
                    Hrun)
           Hcalls).
Defined.

Section ReachFacts.
Import AsyncVideoFrameLoader.
Variable Tensor : Type.
Variable E : env Tensor.



End ReachFacts.



(** ** [get_sdpa_settings] *)

(** X16: The three settings agree with each other and with the warnings,
    on every machine.  Flash Attention is never chosen on an old GPU; the
    math kernel is on whenever Flash Attention is off, and is off exactly
    when Flash Attention is on and PyTorch is not before 2.2; with CUDA the
    function warns exactly when it leaves the math kernel on, and without
    CUDA it returns [(True, False, True)] and does not warn. *)
Theorem sdpa_settings_agree (cuda : option Z) (pytorch_version : list Z) :
  let r := Sdpa.get_sdpa_settings cuda pytorch_version in
  let old_gpu := fst (fst (fst r)) in
  let use_flash_attn := snd (fst (fst r)) in
  let math_kernel_on := snd (fst r) in
  let warnings := snd r in
  (use_flash_attn = true -> old_gpu = false) /\
  (use_flash_attn = false -> math_kernel_on = true) /\
  (math_kernel_on = false <->
   use_flash_attn = true /\ Sdpa.tuple_lt pytorch_version [2; 2] = false) /\
  (cuda <> None -> (warnings = [] <-> math_kernel_on = false)) /\
  (cuda = None -> r = ((true, false, true), [])) /\
  (In Sdpa.FlashAttentionDisabled warnings <->
   cuda <> None /\ use_flash_attn = false) /\
  (In Sdpa.NoFlashAttentionV2 warnings <->
   cuda <> None /\ Sdpa.tuple_lt pytorch_version [2; 2] = true).
Proof.
  destruct cuda as [major|]; cbv zeta; unfold Sdpa.get_sdpa_settings.
  - cbn [fst snd].
    destruct (Z.ltb_spec major 7); destruct (Z.geb_spec major 8); try lia;
      destruct (Sdpa.tuple_lt pytorch_version [2; 2]); simpl;
      repeat split; intros; try discriminate; try tauto; try congruence;
      intuition (try discriminate; try congruence).
  - simpl. repeat split; intros; try discriminate; try tauto; try congruence;
      intuition (try discriminate; try congruence).
Qed.

Lemma sdpa_settings_agree_witness :
  Sdpa.get_sdpa_settings (Some 7) [2; 10]
  = ((false, false, true), [Sdpa.FlashAttentionDisabled]) /\
  snd (fst (Sdpa.get_sdpa_settings (Some 7) [2; 10])) = true.
Proof.
  split; [reflexivity|].
  exact (proj1 (proj2 (sdpa_settings_agree (Some 7) [2; 10])) eq_refl).
Defined.

(** X17: In numbers: on a machine with CUDA whose PyTorch version has the
    two components [(a, b)], the math kernel is switched off exactly when
    the compute capability is at least 8 and the version is 2.2 or later,
    the components being compared as integers (2.10 is later than 2.2). *)
Theorem math_kernel_off_exactly (major a b : Z) :
  snd (fst (Sdpa.get_sdpa_settings (Some major) [a; b])) = false <->
  8 <= major /\ (2 < a \/ (a = 2 /\ 2 <= b)).
Proof.
  unfold Sdpa.get_sdpa_settings. cbn [fst snd Sdpa.tuple_lt].
  destruct (Z.geb_spec major 8);
    destruct (Z.ltb_spec a 2); destruct (Z.ltb_spec 2 a);
    destruct (Z.ltb_spec b 2); destruct (Z.ltb_spec 2 b); simpl;
    split; intros; try discriminate; try lia; try reflexivity.
Qed.

(** ** [mask_to_box] *)

Section BoxFacts.
Import MaskToBox.

Lemma fold_min_spec (r : list Z) (x : Z) :
  In (fold_left Z.min r x) (x :: r) /\
  Forall (fun y => fold_left Z.min r x <= y) (x :: r).
Proof.
  revert x. induction r as [|a r IH]; intros x; simpl.
  - split; [now left | repeat constructor; lia].
  - destruct (IH (Z.min x a)) as [Hin Hall]. split.
    + simpl in Hin. destruct Hin as [Hin|Hin]; [|now right; right].
      rewrite <- Hin. destruct (Z.min_spec x a) as [[_ ->]|[_ ->]]; auto.
    + inversion Hall as [|? ? Hh Ht]; subst.
      constructor; [lia|]. constructor; [lia | assumption].
Qed.

Lemma fold_max_spec (r : list Z) (x : Z) :
  In (fold_left Z.max r x) (x :: r) /\
  Forall (fun y => y <= fold_left Z.max r x) (x :: r).
Proof.
  revert x. induction r as [|a r IH]; intros x; simpl.
  - split; [now left | repeat constructor; lia].
  - destruct (IH (Z.max x a)) as [Hin Hall]. split.
    + simpl in Hin. destruct Hin as [Hin|Hin]; [|now right; right].
      rewrite <- Hin. destruct (Z.max_spec x a) as [[_ ->]|[_ ->]]; auto.
    + inversion Hall as [|? ? Hh Ht]; subst.
      constructor; [lia|]. constructor; [lia | assumption].
Qed.

Lemma minimum_spec (l : list Z) :
  l <> [] ->
  exists v, minimum l = Return v /\ In v l /\ forall y, In y l -> v <= y.
Proof.
  destruct l as [|x r]; [congruence|]. intros _.
  destruct (fold_min_spec r x) as [Hin Hall].
  exists (fold_left Z.min r x). split; [reflexivity|]. split; [exact Hin|].
  now apply Forall_forall.
Qed.

Lemma maximum_spec (l : list Z) :
  l <> [] ->
  exists v, maximum l = Return v /\ In v l /\ forall y, In y l -> y <= v.
Proof.
  destruct l as [|x r]; [congruence|]. intros _.
  destruct (fold_max_spec r x) as [Hin Hall].
  exists (fold_left Z.max r x). split; [reflexivity|]. split; [exact Hin|].
  now apply Forall_forall.
Qed.

Lemma In_positions (m : masks) (y x : nat) :
  In (y, x) (positions m) <-> (y < h m)%nat /\ (x < w m)%nat.
Proof.
  unfold positions. rewrite in_prod_iff, !in_seq. lia.
Qed.

Lemma In_where (m : masks) (b : nat) (grid : nat * nat -> Z) (other v : Z) :
  In v (where_ m b grid other) <->
  exists y x, (y < h m)%nat /\ (x < w m)%nat /\
              v = if at_ m b y x then grid (y, x) else other.
Proof.
  unfold where_. rewrite in_map_iff. split.
  - intros ([y x] & <- & Hp). apply In_positions in Hp.
    exists y, x. tauto.
  - intros (y & x & Hy & Hx & ->). exists (y, x).
    split; [reflexivity | now apply In_positions].
Qed.

Lemma where_not_nil (m : masks) (b : nat) grid other :
  positions m <> [] -> where_ m b grid other <> [].
Proof.
  unfold where_. destruct (positions m); [congruence | discriminate].
Qed.

(** The extremes over the foreground of a mask that has one. *)
Lemma where_minimum (m : masks) (b : nat) grid other y0 x0 :
  foreground m b y0 x0 -> grid (y0, x0) < other ->
  exists v, minimum (where_ m b grid other) = Return v /\
            (forall y x, foreground m b y x -> v <= grid (y, x)) /\
            exists y x, foreground m b y x /\ grid (y, x) = v.
Proof.
  intros (Hy0 & Hx0 & Hat0) Hother.
  destruct (minimum_spec (where_ m b grid other)) as (v & Hv & Hin & Hle).
  { apply where_not_nil. intros Hnil.
    pose proof (proj2 (In_positions m y0 x0) (conj Hy0 Hx0)) as H.
    now rewrite Hnil in H. }
  exists v. split; [exact Hv|]. split.
  - intros y x (Hy & Hx & Hat). apply Hle, In_where.
    exists y, x. now rewrite Hat.
  - apply In_where in Hin. destruct Hin as (y & x & Hy & Hx & Hval).
    destruct (at_ m b y x) eqn:Hat.
    + exists y, x. unfold foreground. auto.
    + exfalso. assert (v <= grid (y0, x0)).
      { apply Hle, In_where. exists y0, x0. now rewrite Hat0. }
      lia.
Qed.

Lemma where_maximum (m : masks) (b : nat) grid other y0 x0 :
  foreground m b y0 x0 -> other < grid (y0, x0) ->
  exists v, maximum (where_ m b grid other) = Return v /\
            (forall y x, foreground m b y x -> grid (y, x) <= v) /\
            exists y x, foreground m b y x /\ grid (y, x) = v.
Proof.
  intros (Hy0 & Hx0 & Hat0) Hother.
  destruct (maximum_spec (where_ m b grid other)) as (v & Hv & Hin & Hle).
  { apply where_not_nil. intros Hnil.
    pose proof (proj2 (In_positions m y0 x0) (conj Hy0 Hx0)) as H.
    now rewrite Hnil in H. }
  exists v. split; [exact Hv|]. split.
  - intros y x (Hy & Hx & Hat). apply Hle, In_where.
    exists y, x. now rewrite Hat.
  - apply In_where in Hin. destruct Hin as (y & x & Hy & Hx & Hval).
    destruct (at_ m b y x) eqn:Hat.
    + exists y, x. unfold foreground. auto.
    + exfalso. assert (grid (y0, x0) <= v).
      { apply Hle, In_where. exists y0, x0. now rewrite Hat0. }
      lia.
Qed.

(** The extremes over a mask without foreground are the fill values. *)
Lemma where_constant (m : masks) (b : nat) grid other :
  positions m <> [] ->
  (forall y x, (y < h m)%nat -> (x < w m)%nat -> at_ m b y x = false) ->
  minimum (where_ m b grid other) = Return other /\
  maximum (where_ m b grid other) = Return other.
Proof.
  intros Hne Hbg.
  assert (Hall : forall v, In v (where_ m b grid other) -> v = other).
  { intros v Hv. apply In_where in Hv.
    destruct Hv as (y & x & Hy & Hx & ->). now rewrite Hbg. }
  destruct (minimum_spec _ (where_not_nil m b grid other Hne))
    as (v1 & -> & Hin1 & _).
  destruct (maximum_spec _ (where_not_nil m b grid other Hne))
    as (v2 & -> & Hin2 & _).
  now rewrite (Hall v1 Hin1), (Hall v2 Hin2).
Qed.

Lemma all_nth (A : Type) (l : list (outcome A)) (xs : list A)
      (i : nat) (x : A) :
  all l = Return xs -> nth_error xs i = Some x ->
  nth_error l i = Some (Return x).
Proof.
  revert xs i. induction l as [|[a|e] l IH]; intros xs i; simpl.
  - intros [= <-]. now destruct i.
  - destruct (all l) as [l'|e]; [|discriminate]. intros [= <-].
    destruct i as [|i]; simpl; [now intros [= ->] | now apply IH].
  - discriminate.
Qed.

Lemma all_length (A : Type) (l : list (outcome A)) (xs : list A) :
  all l = Return xs -> length xs = length l.
Proof.
  revert xs. induction l as [|[a|e] l IH]; intros xs; simpl.
  - now intros [= <-].
  - destruct (all l) as [l'|e]; [|discriminate]. intros [= <-].
    simpl. f_equal. now apply IH.
  - discriminate.
Qed.

(** An entry of the result is the box of its batch entry. *)
Lemma mask_to_box_entry (m : masks) boxes (b : nat) bb :
  mask_to_box m = Return boxes -> nth_error boxes b = Some bb ->
  box m b = Return bb /\ positions m <> [] /\ length boxes = B m.
Proof.
  unfold mask_to_box. intros Hall Hn.
  destruct (positions m) eqn:Hpos; [discriminate|].
  split; [|split; [discriminate|]].
  - pose proof (all_nth _ _ _ _ _ Hall Hn) as H.
    rewrite nth_error_map in H.
    destruct (nth_error (seq 0 (B m)) b) as [b'|] eqn:Hb; [|discriminate].
    assert (b' = b).
    { pose proof (nth_error_nth _ _ 0%nat Hb) as Hnth.
      rewrite seq_nth in Hnth; [lia|].
      rewrite <- (length_seq (B m) 0). apply nth_error_Some. congruence. }
    subst b'. simpl in H. congruence.
  - rewrite (all_length _ _ _ Hall), length_map. apply length_seq.
Qed.

End BoxFacts.

(** X18: The box of a mask with no foreground pixel is the degenerate box
    [(w, h, -1, -1)], whose minimum corner lies beyond its maximum
    corner. *)
Theorem empty_mask_box
        (m : MaskToBox.masks) (boxes : list (Z * Z * Z * Z)) (b : nat)
        (bb : Z * Z * Z * Z) :
  MaskToBox.mask_to_box m = Return boxes ->
  nth_error boxes b = Some bb ->
  (forall y x, (y < MaskToBox.h m)%nat -> (x < MaskToBox.w m)%nat ->
               MaskToBox.at_ m b y x = false) ->
  bb = (Z.of_nat (MaskToBox.w m), Z.of_nat (MaskToBox.h m), -1, -1).
Proof.
  intros Hall Hn Hbg.
  destruct (mask_to_box_entry m boxes b bb Hall Hn) as (Hbox & Hne & _).
  unfold MaskToBox.box in Hbox.
  destruct (where_constant m b MaskToBox.grid_xs
              (Z.of_nat (MaskToBox.w m)) Hne Hbg) as [H1 _].
  destruct (where_constant m b MaskToBox.grid_xs (-1) Hne Hbg) as [_ H2].
  destruct (where_constant m b MaskToBox.grid_ys
              (Z.of_nat (MaskToBox.h m)) Hne Hbg) as [H3 _].
  destruct (where_constant m b MaskToBox.grid_ys (-1) Hne Hbg) as [_ H4].
  rewrite H1, H2, H3, H4 in Hbox. congruence.
Qed.

(** X19: The box of a mask that has a foreground pixel contains every
    foreground pixel, lies inside the image, and is tight: each of its
    four sides passes through a foreground pixel. *)
Theorem mask_box_is_tight
        (m : MaskToBox.masks) (boxes : list (Z * Z * Z * Z)) (b : nat)
        (min_x min_y max_x max_y : Z) (y0 x0 : nat) :
  MaskToBox.mask_to_box m = Return boxes ->
  nth_error boxes b = Some (min_x, min_y, max_x, max_y) ->
  MaskToBox.foreground m b y0 x0 ->
  (forall y x, MaskToBox.foreground m b y x ->
               min_x <= Z.of_nat x <= max_x /\
               min_y <= Z.of_nat y <= max_y) /\
  0 <= min_x <= max_x /\ max_x < Z.of_nat (MaskToBox.w m) /\
  0 <= min_y <= max_y /\ max_y < Z.of_nat (MaskToBox.h m) /\
  (exists y x, MaskToBox.foreground m b y x /\ Z.of_nat x = min_x) /\
  (exists y x, MaskToBox.foreground m b y x /\ Z.of_nat x = max_x) /\
  (exists y x, MaskToBox.foreground m b y x /\ Z.of_nat y = min_y) /\
  (exists y x, MaskToBox.foreground m b y x /\ Z.of_nat y = max_y).
Proof.
  intros Hall Hn Hfg.
  destruct (mask_to_box_entry m boxes b _ Hall Hn) as (Hbox & _ & _).
  unfold MaskToBox.box in Hbox.
  assert (Hin : (y0 < MaskToBox.h m)%nat /\ (x0 < MaskToBox.w m)%nat)
    by (destruct Hfg; tauto).
  destruct (where_minimum m b MaskToBox.grid_xs (Z.of_nat (MaskToBox.w m))
              y0 x0 Hfg) as (v1 & E1 & L1 & T1);
    [unfold MaskToBox.grid_xs; simpl; lia|].
  destruct (where_maximum m b MaskToBox.grid_xs (-1) y0 x0 Hfg)
    as (v2 & E2 & L2 & T2); [unfold MaskToBox.grid_xs; simpl; lia|].
  destruct (where_minimum m b MaskToBox.grid_ys (Z.of_nat (MaskToBox.h m))
              y0 x0 Hfg) as (v3 & E3 & L3 & T3);
    [unfold MaskToBox.grid_ys; simpl; lia|].
  destruct (where_maximum m b MaskToBox.grid_ys (-1) y0 x0 Hfg)
    as (v4 & E4 & L4 & T4); [unfold MaskToBox.grid_ys; simpl; lia|].
  rewrite E1, E2, E3, E4 in Hbox.
  injection Hbox as <- <- <- <-.
  unfold MaskToBox.grid_xs, MaskToBox.grid_ys in *. simpl in *.
  pose proof (L1 _ _ Hfg). pose proof (L2 _ _ Hfg).
  pose proof (L3 _ _ Hfg). pose proof (L4 _ _ Hfg).
  assert (Hin1 : 0 <= v1) by (destruct T1 as (y & x & _ & <-); lia).
  assert (Hin3 : 0 <= v3) by (destruct T3 as (y & x & _ & <-); lia).
  assert (Hin2 : v2 < Z.of_nat (MaskToBox.w m)).
  { destruct T2 as (y & x & (_ & Hx & _) & <-). lia. }
  assert (Hin4 : v4 < Z.of_nat (MaskToBox.h m)).
  { destruct T4 as (y & x & (Hy & _ & _) & <-). lia. }
  split.
  { intros y x F. pose proof (L1 _ _ F). pose proof (L2 _ _ F).
    pose proof (L3 _ _ F). pose proof (L4 _ _ F). lia. }
  repeat split; try lia; assumption.
Qed.

Lemma empty_mask_box_witness :
  MaskToBox.mask_to_box Examples.two_by_three
  = Return [(1, 1, 2, 1); (3, 2, -1, -1)] /\
  (3, 2, -1, -1) = (3, 2, -1, -1).
Proof.
  split; [reflexivity|].
  refine (empty_mask_box Examples.two_by_three _ 1%nat _ eq_refl eq_refl _).
  intros y x _ _. reflexivity.
Defined.

Lemma mask_box_is_tight_witness :
  MaskToBox.foreground Examples.two_by_three 0 1 2 /\ 1 <= 2 <= 2.
Proof.
  assert (F : MaskToBox.foreground Examples.two_by_three 0 1 2).
  { unfold MaskToBox.foreground. simpl. repeat split; lia. }
  split; [exact F|].
  exact (proj1 (proj1 (mask_box_is_tight Examples.two_by_three _ 0%nat
                         1 1 2 1 1%nat 2%nat eq_refl eq_refl F)
                      1%nat 2%nat F)).
Defined.

(** ** [concat_points] *)

Section PointFacts.
Import Points.

Local Abbreviation zip_app a b :=
  (map (fun ab => fst ab ++ snd ab) (combine a b)).

Lemma zip_app_nth (A : Type) (a b : tensor A) :
  length a = length b ->
  forall i, nth i (zip_app a b) [] = nth i a [] ++ nth i b [].
Proof.
  revert b. induction a as [|x a IH]; intros [|y b]; simpl;
    try discriminate; intros E i; destruct i; auto.
Qed.

Lemma zip_app_length (A : Type) (a b : tensor A) :
  length a = length b -> length (zip_app a b) = length a.
Proof.
  intros E. rewrite length_map, length_combine, <- E. apply Nat.min_id.
Qed.

Lemma zip_app_assoc (A : Type) (a b c : tensor A) :
  length a = length b -> length b = length c ->
  zip_app (zip_app a b) c = zip_app a (zip_app b c).
Proof.
  revert b c. induction a as [|x a IH]; intros [|y b] [|z c]; simpl;
    try discriminate; auto.
  intros E1 E2. rewrite <- app_assoc. f_equal. apply IH; congruence.
Qed.

Lemma cat_dim1_rows (A : Type) (a b c : tensor A) :
  cat_dim1 a b = Return c ->
  length a = length b /\ c = zip_app a b.
Proof.
  unfold cat_dim1. destruct (Nat.eqb_spec (length a) (length b)) as [E|E];
    [|discriminate].
  now intros [= <-].
Qed.

Lemma cat_dim1_same (A : Type) (a b : tensor A) :
  length a = length b -> cat_dim1 a b = Return (zip_app a b).
Proof.
  intros E. unfold cat_dim1. now rewrite E, Nat.eqb_refl.
Qed.

End PointFacts.

(** X20: Adding points to earlier inputs keeps the batch size and, in each
    batch entry, puts the new points after the old ones and the new labels
    after the old ones, none lost, none reordered; without earlier inputs
    the new points and labels are returned as they are. *)
Theorem concat_points_appends
        (P L : Type) (old r : Points.point_inputs P L)
        (new_points : Points.tensor P) (new_labels : Points.tensor L) :
  Points.concat_points (Some old) new_points new_labels = Return r ->
  length (Points.point_coords r) = length (Points.point_coords old) /\
  length (Points.point_labels r) = length (Points.point_labels old) /\
  (forall b, nth b (Points.point_coords r) []
             = nth b (Points.point_coords old) [] ++ nth b new_points []) /\
  (forall b, nth b (Points.point_labels r) []
             = nth b (Points.point_labels old) [] ++ nth b new_labels []) /\
  Points.concat_points None new_points new_labels
  = Return (Points.mkInputs new_points new_labels).
Proof.
  unfold Points.concat_points.
  destruct (Points.cat_dim1 (Points.point_coords old) new_points)
    as [points|e] eqn:Hp; [|discriminate].
  destruct (Points.cat_dim1 (Points.point_labels old) new_labels)
    as [labels|e] eqn:Hl; [|discriminate].
  intros [= <-]. cbn [Points.point_coords Points.point_labels].
  apply cat_dim1_rows in Hp, Hl. destruct Hp as [Ep ->], Hl as [El ->].
  repeat split.
  - now apply zip_app_length.
  - now apply zip_app_length.
  - now apply zip_app_nth.
  - now apply zip_app_nth.
Qed.

Lemma concat_points_appends_witness :
  nth 0 (Points.point_coords
           (Points.mkInputs [[(1, 2); (3, 4); (5, 6)]] [[1; 0; 1]])) []
  = [(1, 2); (3, 4)] ++ [(5, 6)].
Proof.
  exact (proj1 (proj2 (proj2
    (concat_points_appends (Z * Z) Z
       (Points.mkInputs [[(1, 2); (3, 4)]] [[1; 0]])
       (Points.mkInputs [[(1, 2); (3, 4); (5, 6)]] [[1; 0; 1]])
       [[(5, 6)]] [[1]] eq_refl))) 0%nat).
Defined.

(** X21: Adding the points of two interactions one after the other gives
    the same inputs as adding, in one call, the two sets of points joined
    per batch entry. *)
Theorem concat_points_twice
        (P L : Type) (old r1 r2 : Points.point_inputs P L)
        (points1 points2 : Points.tensor P)
        (labels1 labels2 : Points.tensor L) :
  Points.concat_points (Some old) points1 labels1 = Return r1 ->
  Points.concat_points (Some r1) points2 labels2 = Return r2 ->
  exists points labels,
    Points.cat_dim1 points1 points2 = Return points /\
    Points.cat_dim1 labels1 labels2 = Return labels /\
    Points.concat_points (Some old) points labels = Return r2.
Proof.
  unfold Points.concat_points.
  destruct (Points.cat_dim1 (Points.point_coords old) points1)
    as [p1|e] eqn:Hp1; [|discriminate].
  destruct (Points.cat_dim1 (Points.point_labels old) labels1)
    as [l1|e] eqn:Hl1; [|discriminate].
  intros [= <-]. cbn [Points.point_coords Points.point_labels].
  destruct (Points.cat_dim1 p1 points2) as [p2|e] eqn:Hp2; [|discriminate].
  destruct (Points.cat_dim1 l1 labels2) as [l2|e] eqn:Hl2; [|discriminate].
  intros [= <-].
  apply cat_dim1_rows in Hp1, Hl1, Hp2, Hl2.
  destruct Hp1 as [Ep1 ->], Hl1 as [El1 ->], Hp2 as [Ep2 ->], Hl2 as [El2 ->].
  rewrite (zip_app_length _ _ _ Ep1) in Ep2.
  rewrite (zip_app_length _ _ _ El1) in El2.
  assert (Ep : length points1 = length points2) by congruence.
  assert (El : length labels1 = length labels2) by congruence.
  eexists. eexists.
  split; [apply (cat_dim1_same _ _ _ Ep)|].
  split; [apply (cat_dim1_same _ _ _ El)|].
  rewrite !cat_dim1_same.
  - now rewrite !zip_app_assoc.
  - now rewrite zip_app_length.
  - now rewrite zip_app_length.
Qed.

Lemma concat_points_twice_witness :
  exists points labels,
    Points.cat_dim1 [[(5, 6)]] [[(7, 8)]] = Return points /\
    Points.cat_dim1 [[1]] [[0]] = Return labels /\
    Points.concat_points (Some (Points.mkInputs [[(1, 2)]] [[1]]))
                         points labels
    = Return (Points.mkInputs [[(1, 2); (5, 6); (7, 8)]] [[1; 1; 0]]).
Proof.
  exact (concat_points_twice (Z * Z) Z
           (Points.mkInputs [[(1, 2)]] [[1]])
           (Points.mkInputs [[(1, 2); (5, 6)]] [[1; 1]])
           (Points.mkInputs [[(1, 2); (5, 6); (7, 8)]] [[1; 1; 0]])
           [[(5, 6)]] [[(7, 8)]] [[1]] [[0]] eq_refl eq_refl).
Defined.

(** ** [fill_holes_in_mask_scores] *)

(** X22: Filling holes needs a positive [max_area], otherwise the assertion
    fails whatever the kernel would do.  With a positive [max_area] the
    call always returns: if the connected-components kernel raises, the
    input mask is returned unchanged with one warning; if it succeeds,
    nothing is warned, and, the kernel labelling only pixels of its input
    (those with score [<= 0]) and the fill score being positive, every
    pixel with a positive score keeps its score, and a pixel whose score
    changes had a score [<= 0] and gets the positive fill score. *)
Theorem fill_holes_only_changes_background
        (position score : Type) (nonpositive : score -> bool)
        (fill_score : score)
        (get_connected_components :
           (position -> bool) -> result ((position -> Z) * (position -> Z)))
        (mask : position -> score) (max_area : Z) :
  let fill :=
    FillHoles.fill_holes_in_mask_scores nonpositive fill_score
      get_connected_components mask max_area in
  let kernel := get_connected_components (fun p => nonpositive (mask p)) in
  (max_area <= 0 ->
   fill = Throw (AssertionError "max_area must be positive")) /\
  (0 < max_area ->
   forall e, kernel = Raise e ->
             fill = Return (mask, [FillHoles.SkippingPostProcessing e])) /\
  (0 < max_area ->
   nonpositive fill_score = false ->
   forall labels areas,
     kernel = Ok (labels, areas) ->
     (forall p, 0 < labels p -> nonpositive (mask p) = true) ->
     exists out,
       fill = Return (out, []) /\
       (forall p, nonpositive (mask p) = false -> out p = mask p) /\
       (forall p, out p = mask p \/
                  (nonpositive (mask p) = true /\ out p = fill_score /\
                   0 < labels p /\ areas p <= max_area)) /\
       (forall p, nonpositive (out p) = true -> nonpositive (mask p) = true)).
Proof.
  cbv zeta. unfold FillHoles.fill_holes_in_mask_scores.
  destruct (Z.gtb_spec max_area 0) as [Hpos|Hneg].
  - split; [lia|]. split.
    + intros _ e ->. reflexivity.
    + intros _ Hfill labels areas -> Hlab. eexists. split; [reflexivity|].
      unfold FillHoles.is_hole.
      repeat split; intros p; specialize (Hlab p);
        destruct (Z.gtb_spec (labels p) 0);
        destruct (Z.leb_spec (areas p) max_area);
        simpl; auto;
        try (intros Hm; rewrite Hlab in Hm by lia; discriminate);
        try (right; repeat split; auto; lia);
        congruence.
  - split; [reflexivity|]. split; lia.
Qed.

Lemma fill_holes_only_changes_background_witness :
  exists out,
    FillHoles.fill_holes_in_mask_scores
      (fun v => v <=? 0) 1
      (fun input => Ok (fun p => if input p then 1 else 0,
                        fun p => if input p then 2 else 0))
      (fun p : nat => if (p <? 2)%nat then -5 else 7) 8
    = Return (out, []) /\
    out 3%nat = 7.
Proof.
  destruct (proj2 (proj2 (fill_holes_only_changes_background
              nat Z (fun v => v <=? 0) 1
              (fun input => Ok (fun p => if input p then 1 else 0,
                                fun p => if input p then 2 else 0))
              (fun p : nat => if (p <? 2)%nat then -5 else 7) 8))
            ltac:(lia) eq_refl _ _ eq_refl) as (out & Hout & Hkeep & _).
  - intros p. cbv beta. destruct (_ <=? 0) eqn:E; [reflexivity | lia].
  - exists out. split; [exact Hout|]. exact (Hkeep 3%nat eq_refl).
Defined.

(** ** [load_video_frames] *)

From Stdlib Require Import Permutation.

Section PathFacts.
Import Posixpath.

Lemma take_drop (n : nat) (s : string) : (take n s ++ drop n s)%string = s.
Proof.
  revert s. induction n as [|n IH]; intros [|a s]; simpl; auto.
  now rewrite IH.
Qed.

Lemma take_app (s t : string) : take (String.length s) (s ++ t) = s.
Proof. induction s as [|a s IH]; simpl; [now destruct t | now rewrite IH]. Qed.

Lemma drop_app (s t : string) : drop (String.length s) (s ++ t) = t.
Proof. induction s as [|a s IH]; simpl; auto. Qed.

Lemma length_take (n : nat) (s : string) :
  (n <= String.length s)%nat -> String.length (take n s) = n.
Proof.
  revert s. induction n as [|n IH]; intros [|a s]; simpl; auto; try lia.
  intros H. rewrite IH; lia.
Qed.

Lemma rfind_bounds (c : Ascii.ascii) (s : string) :
  -1 <= rfind c s < Z.of_nat (String.length s).
Proof.
  induction s as [|a s IH]; simpl; [lia|].
  destruct (Z.geb_spec (rfind c s) 0); [lia|].
  destruct (Ascii.eqb a c); lia.
Qed.

Lemma rfind_app_found (c : Ascii.ascii) (s t : string) :
  0 <= rfind c t ->
  rfind c (s ++ t) = Z.of_nat (String.length s) + rfind c t.
Proof.
  intros H. induction s as [|a s IH]; simpl String.length; simpl append.
  - simpl. lia.
  - cbn [rfind]. rewrite IH.
    destruct (Z.geb_spec (Z.of_nat (String.length s) + rfind c t) 0); lia.
Qed.

Lemma rfind_app_absent (c : Ascii.ascii) (s t : string) :
  rfind c t = -1 -> rfind c (s ++ t) = rfind c s.
Proof.
  intros H. induction s as [|a s IH]; simpl append; [exact H|].
  cbn [rfind]. now rewrite IH.
Qed.

Lemma get_app_left (i : nat) (s t : string) :
  (i < String.length s)%nat -> String.get i (s ++ t) = String.get i s.
Proof.
  revert i. induction s as [|a s IH]; simpl; intros i H; [lia|].
  destruct i as [|i]; [reflexivity|]. apply IH. lia.
Qed.

Lemma not_extsep_at_app (s t : string) (i : Z) :
  0 <= i < Z.of_nat (String.length s) ->
  not_extsep_at (s ++ t) i = not_extsep_at s i.
Proof.
  intros H. unfold not_extsep_at. rewrite get_app_left; [reflexivity | lia].
Qed.

(** The loop returns the split at the last dot when a character before it
    is not a dot, and the whole name otherwise. *)
Lemma skip_leading_dots_spec (rounds : nat) (p : string) (j d : Z) :
  (Z.to_nat (d - j) < rounds)%nat ->
  (skip_leading_dots rounds p j d
   = (take (Z.to_nat d) p, drop (Z.to_nat d) p) /\
   exists i, j <= i < d /\ not_extsep_at p i = true) \/
  (skip_leading_dots rounds p j d = (p, EmptyString) /\
   forall i, j <= i < d -> not_extsep_at p i = false).
Proof.
  revert j. induction rounds as [|rounds IH]; intros j Hr; [lia|].
  cbn [skip_leading_dots]. destruct (Z.ltb_spec j d) as [Hlt|Hge].
  - destruct (not_extsep_at p j) eqn:Hj.
    + left. split; [reflexivity|]. exists j. split; [lia | exact Hj].
    + destruct (IH (j + 1)) as [[E (i & Hi & Hn)]|[E Hall]]; [lia | |].
      * left. split; [exact E|]. exists i. split; [lia | exact Hn].
      * right. split; [exact E|]. intros i Hi.
        destruct (Z.eq_dec i j) as [->|]; [exact Hj | apply Hall; lia].
  - right. split; [reflexivity|]. intros i Hi. lia.
Qed.

Lemma splitext_cases (p : string) :
  (splitext p = (take (Z.to_nat (rfind extsep p)) p,
                 drop (Z.to_nat (rfind extsep p)) p) /\
   exists i, rfind sep p < i < rfind extsep p /\ not_extsep_at p i = true) \/
  splitext p = (p, EmptyString).
Proof.
  unfold splitext. destruct (Z.gtb_spec (rfind extsep p) (rfind sep p));
    [|now right].
  destruct (skip_leading_dots_spec
              (Z.to_nat (rfind extsep p - rfind sep p)) p
              (rfind sep p + 1) (rfind extsep p))
    as [[E (i & Hi & Hn)]|[E _]]; [lia | |now right].
  left. split; [exact E|]. exists i. split; [lia | exact Hn].
Qed.

(** A name that ends in an extension of one dot, after a stem whose last
    component is not made of dots only, splits into the two. *)
Lemma splitext_stem_ext (stem ext : string) :
  rfind extsep ext = 0 -> rfind sep ext = -1 ->
  (exists i, rfind sep stem < i < Z.of_nat (String.length stem) /\
             not_extsep_at stem i = true) ->
  splitext (stem ++ ext) = (stem, ext).
Proof.
  intros Hdot Hsep (i & Hi & Hn). unfold splitext.
  rewrite (rfind_app_absent sep stem ext Hsep).
  rewrite (rfind_app_found extsep stem ext) by lia. rewrite Hdot, Z.add_0_r.
  pose proof (rfind_bounds sep stem) as Hb.
  destruct (Z.gtb_spec (Z.of_nat (String.length stem)) (rfind sep stem));
    [|lia].
  destruct (skip_leading_dots_spec
              (Z.to_nat (Z.of_nat (String.length stem) - rfind sep stem))
              (stem ++ ext) (rfind sep stem + 1)
              (Z.of_nat (String.length stem)))
    as [[E _]|[_ Hall]]; [lia | |].
  - rewrite E, Nat2Z.id. now rewrite take_app, drop_app.
  - specialize (Hall i ltac:(lia)).
    rewrite not_extsep_at_app in Hall by lia. congruence.
Qed.

Lemma extension_shape (ext : string) :
  In ext LoadVideo.extensions ->
  rfind extsep ext = 0 /\ rfind sep ext = -1 /\ ext <> EmptyString.
Proof.
  unfold LoadVideo.extensions. simpl.
  intros [<-|[<-|[<-|[<-|[]]]]]; repeat split; discriminate.
Qed.

Lemma is_frame_ext (p : string) :
  LoadVideo.is_frame p = true <-> In (snd (splitext p)) LoadVideo.extensions.
Proof.
  unfold LoadVideo.is_frame. rewrite existsb_exists. split.
  - intros (x & Hx & E). apply String.eqb_eq in E. now subst x.
  - intros H. exists (snd (splitext p)). split; [exact H|].
    apply String.eqb_refl.
Qed.

End PathFacts.

(** X23: Which entries of the folder are taken as frames, and what their
    number is read from.  A name is a frame exactly when it is a stem
    followed by one of [.jpg], [.jpeg], [.JPG], [.JPEG], written so, where
    the last path component of the stem has a character that is not a dot
    (so [.jpg] and [..jpg] are not frames, and neither is [a.Jpg]); the
    stem is then what [int] is applied to. *)
Theorem frame_names_accepted (p : string) :
  (LoadVideo.is_frame p = true <->
   exists stem ext,
     p = (stem ++ ext)%string /\ In ext LoadVideo.extensions /\
     exists i, Posixpath.rfind Posixpath.sep stem < i
                 < Z.of_nat (String.length stem) /\
               Posixpath.not_extsep_at stem i = true) /\
  (forall stem ext,
     p = (stem ++ ext)%string -> In ext LoadVideo.extensions ->
     LoadVideo.is_frame p = true ->
     Posixpath.splitext p = (stem, ext)).
Proof.
  assert (Hfwd : LoadVideo.is_frame p = true ->
                 exists stem ext,
                   p = (stem ++ ext)%string /\ In ext LoadVideo.extensions /\
                   Posixpath.splitext p = (stem, ext) /\
                   exists i, Posixpath.rfind Posixpath.sep stem < i
                               < Z.of_nat (String.length stem) /\
                             Posixpath.not_extsep_at stem i = true).
  { intros H. apply is_frame_ext in H.
    destruct (splitext_cases p) as [[E (i & Hi & Hn)]|E];
      rewrite E in H; cbn [snd] in H;
      [|now destruct (extension_shape _ H) as (_ & _ & Hne)].
    destruct (extension_shape _ H) as (Hdot & Hsep & _).
    set (d := Z.to_nat (Posixpath.rfind Posixpath.extsep p)) in *.
    pose proof (take_drop d p) as Hp.
    exists (Posixpath.take d p), (Posixpath.drop d p).
    split; [now symmetry|]. split; [exact H|]. split; [exact E|].
    exists i.
    pose proof (rfind_bounds Posixpath.extsep p) as Hb.
    assert (Hlen : String.length (Posixpath.take d p) = d)
      by (apply length_take; lia).
    rewrite Hlen.
    assert (Hs : Posixpath.rfind Posixpath.sep (Posixpath.take d p)
                 = Posixpath.rfind Posixpath.sep p).
    { rewrite <- Hp at 2. symmetry. now apply rfind_app_absent. }
    rewrite Hs. split; [lia|].
    pose proof (rfind_bounds Posixpath.sep p) as Hb'.
    assert (Hd : Z.of_nat d = Posixpath.rfind Posixpath.extsep p)
      by (subst d; lia).
    rewrite <- Hp in Hn.
    rewrite not_extsep_at_app in Hn; [exact Hn | rewrite Hlen; lia]. }
  split.
  - split; [intros H; destruct (Hfwd H) as (stem & ext & ? & ? & _ & ?); eauto|].
    intros (stem & ext & -> & Hext & Hi).
    destruct (extension_shape _ Hext) as (Hdot & Hsep & _).
    apply is_frame_ext. now rewrite (splitext_stem_ext stem ext Hdot Hsep Hi).
  - intros stem ext -> Hext H.
    destruct (Hfwd H) as (stem' & ext' & Hp & Hext' & E & Hi).
    destruct (extension_shape _ Hext) as (Hdot & Hsep & _).
    destruct (extension_shape _ Hext') as (Hdot' & Hsep' & _).
    (* the two decompositions split at the last dot *)
    assert (Hl : Z.of_nat (String.length stem)
                 = Z.of_nat (String.length stem')).
    { pose proof (rfind_app_found Posixpath.extsep stem ext) as H1.
      pose proof (rfind_app_found Posixpath.extsep stem' ext') as H2.
      rewrite Hp in H1 at 1. rewrite H1 in H2 by lia. lia. }
    apply Nat2Z.inj in Hl.
    assert (stem = stem').
    { rewrite <- (take_app stem ext), <- (take_app stem' ext').
      now rewrite Hl, Hp. }
    subst stem'.
    assert (ext = ext').
    { rewrite <- (drop_app stem ext), <- (drop_app stem ext') at 1.
      now rewrite Hp. }
    subst ext'. exact E.
Qed.

Lemma frame_names_accepted_witness :
  LoadVideo.is_frame "00012.jpg" = true /\
  Posixpath.splitext "00012.jpg" = ("00012"%string, ".jpg"%string).
Proof.
  split; [reflexivity|].
  exact (proj2 (frame_names_accepted "00012.jpg") "00012"%string
               ".jpg"%string eq_refl (or_introl eq_refl) eq_refl).
Defined.

Section SortFacts.
Import LoadVideo.
Variable Tensor : Type.
Variable M : machine Tensor.

Local Abbreviation le_key := (fun a b : Z * string => fst a <= fst b).

Lemma keyed_spec (names : list string) (l : list (Z * string)) :
  keyed M names = Return l ->
  map snd l = names /\
  Forall (fun kp => key M (snd kp) = Return (fst kp)) l.
Proof.
  revert l. induction names as [|p names IH]; intros l; simpl.
  - intros [= <-]. split; [reflexivity | constructor].
  - destruct (key M p) as [n|e] eqn:Hk; [|discriminate].
    destruct (keyed M names) as [l'|e]; [|discriminate].
    intros [= <-]. destruct (IH l' eq_refl) as [Hm Hf]. split.
    + simpl. now rewrite Hm.
    + constructor; [exact Hk | exact Hf].
Qed.

Lemma keyed_throw (names : list string) (e : raised) :
  keyed M names = Throw e ->
  exists before p after,
    names = before ++ p :: after /\
    (forall q, In q before -> exists n, key M q = Return n) /\
    key M p = Throw e.
Proof.
  induction names as [|p names IH]; simpl; [discriminate|].
  destruct (key M p) as [n|e'] eqn:Hk.
  - destruct (keyed M names) as [l'|e']; [discriminate|].
    intros [= <-]. destruct (IH eq_refl) as (before & q & after & -> & Hb & Hq).
    exists (p :: before), q, after. split; [reflexivity|]. split; [|exact Hq].
    intros x [<-|Hx]; [eauto | now apply Hb].
  - intros [= <-]. exists [], p, names. split; [reflexivity|].
    split; [intros q [] | exact Hk].
Qed.

Lemma insert_perm (x : Z * string) (l : list (Z * string)) :
  Permutation (insert x l) (x :: l).
Proof.
  induction l as [|y r IH]; simpl; [apply Permutation_refl|].
  destruct (fst x <=? fst y); [apply Permutation_refl|].
  eapply Permutation_trans; [apply perm_skip, IH | apply perm_swap].
Qed.

Lemma sorted_perm (l : list (Z * string)) : Permutation (sorted l) l.
Proof.
  induction l as [|x l IH]; simpl; [apply perm_nil|].
  eapply Permutation_trans; [apply insert_perm | now apply perm_skip].
Qed.

Lemma insert_sorted (x : Z * string) (l : list (Z * string)) :
  StronglySorted le_key l -> StronglySorted le_key (insert x l).
Proof.
  induction l as [|y r IH]; simpl; intros Hs.
  - constructor; constructor.
  - inversion Hs as [|? ? Hr Hy]; subst.
    destruct (Z.leb_spec (fst x) (fst y)) as [Hle|Hgt].
    + constructor; [exact Hs|]. constructor; [exact Hle|].
      eapply Forall_impl; [|exact Hy]. simpl. intros; lia.
    + constructor; [now apply IH|].
      apply Forall_forall. intros z Hz.
      apply (Permutation_in _ (insert_perm x r)) in Hz.
      destruct Hz as [<-|Hz]; [lia|].
      now apply (proj1 (Forall_forall _ _) Hy).
Qed.

Lemma sorted_sorted (l : list (Z * string)) : StronglySorted le_key (sorted l).
Proof.
  induction l as [|x l IH]; simpl; [constructor | now apply insert_sorted].
Qed.

(** The sort is stable: the elements of one key keep their order. *)
Lemma insert_stable (k : Z) (x : Z * string) (l : list (Z * string)) :
  filter (fun kp => fst kp =? k) (insert x l)
  = filter (fun kp => fst kp =? k) (x :: l).
Proof.
  induction l as [|y r IH]; [reflexivity|].
  cbn [insert]. destruct (Z.leb_spec (fst x) (fst y)) as [Hle|Hgt];
    [reflexivity|].
  cbn [filter] in *. rewrite IH.
  destruct (Z.eqb_spec (fst x) k), (Z.eqb_spec (fst y) k);
    try reflexivity; lia.
Qed.

Lemma sorted_stable (k : Z) (l : list (Z * string)) :
  filter (fun kp => fst kp =? k) (sorted l)
  = filter (fun kp => fst kp =? k) l.
Proof.
  induction l as [|x l IH]; [reflexivity|].
  cbn [sorted fold_right]. rewrite insert_stable. cbn [filter].
  fold (sorted l). now rewrite IH.
Qed.

Lemma filter_map_commute (A C : Type) (f : C -> bool) (g : A -> C)
      (h : A -> bool) (l : list A) :
  Forall (fun x => f (g x) = h x) l ->
  filter f (map g l) = map g (filter h l).
Proof.
  induction 1 as [|x l Hx _ IH]; simpl; [reflexivity|].
  rewrite Hx, IH. now destruct (h x).
Qed.

Lemma StronglySorted_map_fst (l : list (Z * string)) :
  StronglySorted le_key l -> StronglySorted Z.le (map fst l).
Proof.
  induction 1 as [|x l _ IH Hx]; simpl; constructor; [exact IH|].
  apply Forall_forall. intros z Hz. apply in_map_iff in Hz.
  destruct Hz as (y & <- & Hy). now apply (proj1 (Forall_forall _ _) Hx).
Qed.

Lemma Forall2_keys (l : list (Z * string)) :
  Forall (fun kp => key M (snd kp) = Return (fst kp)) l ->
  Forall2 (fun p n => key M p = Return n) (map snd l) (map fst l).
Proof. induction 1; simpl; constructor; auto. Qed.

(** The names after [sort]. *)
Lemma sort_spec (names sorted_names : list string) :
  sort M names = Return sorted_names ->
  exists numbers,
    Permutation sorted_names names /\
    Forall2 (fun p n => key M p = Return n) sorted_names numbers /\
    StronglySorted Z.le numbers /\
    forall n,
      filter (fun p => match key M p with
                       | Return m => m =? n
                       | Throw _ => false
                       end) sorted_names
      = filter (fun p => match key M p with
                         | Return m => m =? n
                         | Throw _ => false
                         end) names.
Proof.
  unfold sort. destruct (keyed M names) as [l|e] eqn:Hk; [|discriminate].
  intros [= <-]. destruct (keyed_spec _ _ Hk) as [Hm Hf].
  assert (Hfs : Forall (fun kp => key M (snd kp) = Return (fst kp)) (sorted l)).
  { apply Forall_forall. intros kp Hin.
    apply (Permutation_in _ (sorted_perm l)) in Hin.
    now apply (proj1 (Forall_forall _ _) Hf). }
  exists (map fst (sorted l)). split; [|split; [|split]].
  - rewrite <- Hm. apply Permutation_map, sorted_perm.
  - now apply Forall2_keys.
  - apply StronglySorted_map_fst, sorted_sorted.
  - intros n. rewrite <- Hm.
    rewrite (filter_map_commute _ _ _ snd (fun kp => fst kp =? n) (sorted l)).
    + rewrite (filter_map_commute _ _ _ snd (fun kp => fst kp =? n) l).
      * now rewrite sorted_stable.
      * eapply Forall_impl; [|exact Hf]. simpl. now intros kp ->.
    + eapply Forall_impl; [|exact Hfs]. simpl. now intros kp ->.
Qed.

Lemma sort_length (names sorted_names : list string) :
  sort M names = Return sorted_names -> length sorted_names = length names.
Proof.
  intros H. destruct (sort_spec _ _ H) as (_ & Hp & _).
  now apply Permutation_length.
Qed.

Lemma sort_throw (names : list string) (e : raised) :
  sort M names = Throw e ->
  exists before p after,
    names = before ++ p :: after /\
    (forall q, In q before -> exists n, key M q = Return n) /\
    key M p = Throw e.
Proof.
  unfold sort. destruct (keyed M names) as [l|e'] eqn:Hk; [discriminate|].
  intros [= <-]. now apply keyed_throw.
Qed.

Lemma frame_paths_inv (folder : string) (img_paths : list string) :
  frame_paths M (Str folder) = Return img_paths ->
  exists entries names,
    isdir M folder = true /\ listdir M folder = Ok entries /\
    sort M (filter is_frame entries) = Return names /\
    names <> [] /\ img_paths = map (Posixpath.join folder) names.
Proof.
  unfold frame_paths. destruct (isdir M folder); [|discriminate].
  destruct (listdir M folder) as [entries|e]; [|discriminate].
  destruct (sort M (filter is_frame entries)) as [names|e] eqn:Hs;
    [|discriminate].
  destruct names as [|p names]; [discriminate|]. simpl.
  intros [= <-]. exists entries, (p :: names). repeat split; auto.
  discriminate.
Qed.

End SortFacts.

(** X24: The frames are taken in the order of their numbers.  When the
    folder can be read, the paths are the frame names of the listing, each
    exactly once and joined to the folder; their numbers, the integers
    read from their stems, never decrease along the list; and names with
    the same number (such as [1.jpg] and [01.jpg]) keep the order in which
    the folder listed them.  There is at least one. *)
Theorem frames_in_number_order
        (Tensor : Type) (M : LoadVideo.machine Tensor)
        (folder : string) (img_paths : list string) :
  LoadVideo.frame_paths M (LoadVideo.Str folder) = Return img_paths ->
  exists entries names numbers,
    LoadVideo.listdir M folder = Ok entries /\
    img_paths = map (Posixpath.join folder) names /\
    names <> [] /\
    Permutation names (filter LoadVideo.is_frame entries) /\
    Forall2 (fun p n => LoadVideo.key M p = Return n) names numbers /\
    StronglySorted Z.le numbers /\
    forall n,
      filter (fun p => match LoadVideo.key M p with
                       | Return m => m =? n
                       | Throw _ => false
                       end) names
      = filter (fun p => match LoadVideo.key M p with
                         | Return m => m =? n
                         | Throw _ => false
                         end) (filter LoadVideo.is_frame entries).
Proof.
  intros H.
  destruct (frame_paths_inv _ _ _ _ H) as (entries & names & _ & Hl & Hs & Hne & ->).
  destruct (sort_spec _ _ _ _ Hs) as (numbers & Hp & Hk & Hsorted & Hst).
  exists entries, names, numbers. repeat split; auto.
Qed.

(** X25: Every way in which finding the frames fails.  A [video_path] that
    is not a string or not a folder gives [NotImplementedError]; an error
    of listing the folder is passed on; a frame name whose stem is not an
    integer gives the [ValueError] of [int] for the first such name of the
    listing, also when it is the only frame; and a folder without frame
    names gives [RuntimeError] "no images found in <folder>".  Entries
    that are not frame names are never parsed. *)
Theorem frame_paths_failures
        (Tensor : Type) (M : LoadVideo.machine Tensor)
        (video_path : LoadVideo.value) (e : raised) :
  LoadVideo.frame_paths M video_path = Throw e ->
  (e = NotImplementedError /\
   (video_path = LoadVideo.NotStr \/
    exists s, video_path = LoadVideo.Str s /\ LoadVideo.isdir M s = false)) \/
  (exists s x,
     video_path = LoadVideo.Str s /\ LoadVideo.isdir M s = true /\
     LoadVideo.listdir M s = Raise x /\ e = Raised x) \/
  (exists s entries,
     video_path = LoadVideo.Str s /\ LoadVideo.isdir M s = true /\
     LoadVideo.listdir M s = Ok entries /\
     filter LoadVideo.is_frame entries = [] /\
     e = RuntimeErrorMsg ("no images found in " ++ s)%string) \/
  (exists s entries before p after,
     video_path = LoadVideo.Str s /\ LoadVideo.isdir M s = true /\
     LoadVideo.listdir M s = Ok entries /\
     filter LoadVideo.is_frame entries = before ++ p :: after /\
     (forall q, In q before ->
                LoadVideo.int M (fst (Posixpath.splitext q)) <> None) /\
     LoadVideo.int M (fst (Posixpath.splitext p)) = None /\
     e = ValueError (fst (Posixpath.splitext p))).
Proof.
  unfold LoadVideo.frame_paths.
  destruct video_path as [s|]; [|intros [= <-]; left; auto].
  destruct (LoadVideo.isdir M s) eqn:Hd;
    [|intros [= <-]; left; split; eauto].
  destruct (LoadVideo.listdir M s) as [entries|x] eqn:Hl;
    [|intros [= <-]; right; left; eauto 6].
  destruct (LoadVideo.sort M (filter LoadVideo.is_frame entries))
    as [names|e'] eqn:Hs.
  - destruct names as [|p names]; [|discriminate]. simpl.
    intros [= <-]. right; right; left. exists s, entries.
    repeat split; auto.
    apply sort_length in Hs. simpl in Hs.
    destruct (filter LoadVideo.is_frame entries); [reflexivity|discriminate].
  - intros [= <-]. right; right; right.
    destruct (sort_throw _ _ _ _ Hs) as (before & p & after & Hf & Hb & Hp).
    exists s, entries, before, p, after.
    unfold LoadVideo.key in Hp.
    destruct (LoadVideo.int M (fst (Posixpath.splitext p))) eqn:Hi;
      [discriminate|].
    injection Hp as <-. repeat split; auto.
    intros q Hq. destruct (Hb q Hq) as (n & Hn). unfold LoadVideo.key in Hn.
    now destruct (LoadVideo.int M (fst (Posixpath.splitext q))).
Qed.

Lemma frames_in_number_order_witness :
  exists names numbers,
    ["frames/1.jpeg"; "frames/01.jpg"; "frames/2.jpg";
     "frames/10.jpg"]%string
    = map (Posixpath.join "frames") names /\
    Forall2 (fun p n => LoadVideo.key Folder.machine p = Return n)
            names numbers /\
    StronglySorted Z.le numbers.
Proof.
  destruct (frames_in_number_order Z Folder.machine "frames"%string
              ["frames/1.jpeg"; "frames/01.jpg"; "frames/2.jpg";
               "frames/10.jpg"]%string eq_refl)
    as (entries & names & numbers & _ & Hp & _ & _ & Hk & Hs & _).
  exists names, numbers. auto.
Defined.

Lemma frame_paths_failures_witness :
  LoadVideo.frame_paths Folder.machine (LoadVideo.Str "bad")
  = Throw (ValueError "cover") /\
  (ValueError "cover" = NotImplementedError \/
   ValueError "cover" <> NotImplementedError).
Proof.
  split; [reflexivity|].
  destruct (frame_paths_failures Z Folder.machine (LoadVideo.Str "bad")
              (ValueError "cover") eq_refl) as [[H _]|_];
    [left; exact H | right; discriminate].
Defined.

Section FirstFrameFacts.
Import AsyncVideoFrameLoader.
Variable Tensor : Type.
Variable E : env Tensor.



End FirstFrameFacts.



Section CollectFacts.
Import LoadVideo.
Variable Tensor : Type.
Variable M : machine Tensor.

Lemma length_update_nth (A : Type) (n : nat) (x : A) (l : list A) :
  length (AsyncVideoFrameLoader.update_nth n x l) = length l.
Proof.
  revert n. induction l as [|y l IH]; intros [|n]; simpl; auto.
Qed.

Lemma nth_error_update_nth_same (A : Type) (n : nat) (x : A) (l : list A) :
  (n < length l)%nat ->
  nth_error (AsyncVideoFrameLoader.update_nth n x l) n = Some x.
Proof.
  revert n. induction l as [|y l IH]; intros [|n]; simpl; intros H;
    try lia; auto.
  apply IH. lia.
Qed.

Lemma nth_error_update_nth_other (A : Type) (n m : nat) (x : A)
      (l : list A) :
  n <> m ->
  nth_error (AsyncVideoFrameLoader.update_nth n x l) m = nth_error l m.
Proof.
  revert n m. induction l as [|y l IH]; intros [|n] [|m] H; simpl; auto.
  congruence.
Qed.

Lemma collect_spec (img_paths : list string) (order : list nat)
      (images images' : list Tensor) (size size' : option (Z * Z)) :
  length images = length img_paths ->
  collect M img_paths order images size = Return (images', size') ->
  length images' = length images /\
  (forall n, In n order -> (n < length img_paths)%nat ->
             exists frame, stored M img_paths n frame /\
                           nth_error images' n = Some frame) /\
  (forall n, ~ In n order -> nth_error images' n = nth_error images n) /\
  (forall frame n, stored M img_paths n frame ->
                   nth_error images n = Some frame ->
                   nth_error images' n = Some frame).
Proof.
  revert images size. induction order as [|m order IH];
    intros images size Hlen; cbn [collect].
  - intros [= <- <-]. repeat split; auto. intros n [].
  - destruct (nth_error img_paths m) as [img_path|] eqn:Hm.
    + destruct (load_img M img_path) as [[[img height] width]|e] eqn:Hload;
        [|discriminate].
      destruct (setitem M img) as [frame|e] eqn:Hset; [|discriminate].
      intros Hc.
      assert (Hst : stored M img_paths m frame).
      { exists img_path, img, height, width. auto. }
      assert (Hmlt : (m < length images)%nat).
      { rewrite Hlen. apply nth_error_Some. congruence. }
      assert (Hlen' : length (AsyncVideoFrameLoader.update_nth m frame images)
                      = length img_paths)
        by now rewrite length_update_nth.
      destruct (IH _ _ Hlen' Hc) as (Hl & Hin & Hout & Hkeep).
      rewrite length_update_nth in Hl.
      split; [exact Hl|]. split; [|split].
      * intros n [<-|Hn] Hlt.
        -- exists frame. split; [exact Hst|].
           apply (Hkeep frame m Hst).
           now apply nth_error_update_nth_same.
        -- now apply Hin.
      * intros n Hn. rewrite Hout by (intros H; apply Hn; now right).
        apply nth_error_update_nth_other. intros ->. apply Hn. now left.
      * intros fr n Hfr Hn. apply (Hkeep fr n Hfr).
        destruct (Nat.eq_dec m n) as [->|Hne].
        -- rewrite nth_error_update_nth_same by exact Hmlt.
           destruct Hst as (p1 & i1 & h1 & w1 & Hp1 & Hl1 & Hs1).
           destruct Hfr as (p2 & i2 & h2 & w2 & Hp2 & Hl2 & Hs2).
           congruence.
        -- now rewrite nth_error_update_nth_other.
    + intros Hc.
      destruct (IH _ _ Hlen Hc) as (Hl & Hin & Hout & Hkeep).
      split; [exact Hl|]. split; [|split].
      * intros n [<-|Hn] Hlt; [|now apply Hin].
        apply nth_error_None in Hm. lia.
      * intros n Hn. apply Hout. intros H. apply Hn. now right.
      * exact Hkeep.
Qed.

Lemma collect_size_kept (img_paths : list string) (order : list nat)
      (images images' : list Tensor) (hw : Z * Z) (size' : option (Z * Z)) :
  collect M img_paths order images (Some hw) = Return (images', size') ->
  size' = Some hw.
Proof.
  revert images. induction order as [|m order IH]; intros images;
    cbn [collect].
  - now intros [= _ <-].
  - destruct (nth_error img_paths m) as [img_path|]; [|apply IH].
    destruct (load_img M img_path) as [[[img height] width]|e];
      [|discriminate].
    destruct (setitem M img) as [frame|e]; [|discriminate]. apply IH.
Qed.

Lemma collect_size_first (img_paths : list string) (first : nat)
      (order : list nat) (images images' : list Tensor)
      (size' : option (Z * Z)) (img_path : string) :
  nth_error img_paths first = Some img_path ->
  collect M img_paths (first :: order) images None
  = Return (images', size') ->
  exists img height width,
    load_img M img_path = Ok (img, height, width) /\
    size' = Some (height, width).
Proof.
  intros Hp. cbn [collect]. rewrite Hp.
  destruct (load_img M img_path) as [[[img height] width]|e];
    [|discriminate].
  destruct (setitem M img) as [frame|e]; [|discriminate].
  intros Hc. apply collect_size_kept in Hc. eauto.
Qed.

End CollectFacts.

(** X27: Without [async_loading_frames] every frame is loaded, and the
    result does not depend on the order in which the loads complete except
    for the size: when the call returns, frame [n] of the tensor is the
    normalised image of the [n]-th path for every [n], whereas the height
    and width returned are those of the frame whose load was handed over
    first, which need not be frame 0. *)
Theorem sync_loading_reports_first_completed
        (Tensor : Type) (M : LoadVideo.machine Tensor)
        (video_path : LoadVideo.value) (order : list nat)
        (img_paths : list string) (v : LoadVideo.video Tensor)
        (video_height video_width : option Z) :
  LoadVideo.frame_paths M video_path = Return img_paths ->
  Permutation order (seq 0 (length img_paths)) ->
  LoadVideo.load_video_frames M video_path false order
  = Return (v, video_height, video_width) ->
  exists images,
    v = LoadVideo.Eager images /\ length images = length img_paths /\
    (forall n img_path,
       nth_error img_paths n = Some img_path ->
       exists img height width frame,
         LoadVideo.load_img M img_path = Ok (img, height, width) /\
         LoadVideo.setitem M img = Ok frame /\
         nth_error images n = Some (LoadVideo.normalize_all M frame)) /\
    exists first img_path img height width,
      hd_error order = Some first /\
      nth_error img_paths first = Some img_path /\
      LoadVideo.load_img M img_path = Ok (img, height, width) /\
      video_height = Some height /\ video_width = Some width.
Proof.
  intros Hpaths Hperm. unfold LoadVideo.load_video_frames. rewrite Hpaths.
  destruct (LoadVideo.collect M img_paths order
              (repeat (LoadVideo.zeros M) (length img_paths)) None)
    as [[images size]|e] eqn:Hc; [|discriminate].
  intros [= <- <- <-].
  destruct (collect_spec Tensor M img_paths order _ _ _ _
              (repeat_length _ _) Hc) as (Hl & Hin & _ & _).
  rewrite repeat_length in Hl.
  exists (map (LoadVideo.normalize_all M) images).
  split; [reflexivity|]. split; [now rewrite length_map|]. split.
  - intros n img_path Hn.
    assert (Hlt : (n < length img_paths)%nat)
      by (apply nth_error_Some; congruence).
    destruct (Hin n) as (frame & (p & img & h & w & Hp & Hload & Hset) & Hf);
      [|exact Hlt|].
    + apply (Permutation_in _ (Permutation_sym Hperm)), in_seq. lia.
    + exists img, h, w, frame. rewrite Hn in Hp. injection Hp as <-.
      split; [exact Hload|]. split; [exact Hset|].
      now rewrite nth_error_map, Hf.
  - destruct order as [|first order].
    + apply Permutation_nil in Hperm.
      destruct img_paths as [|p ps]; [|discriminate].
      destruct video_path as [s|]; [|discriminate].
      destruct (frame_paths_inv Tensor M s [] Hpaths)
        as (_ & names & _ & _ & _ & Hne & Hm).
      destruct names; [congruence | discriminate].
    + assert (Hfirst : (first < length img_paths)%nat).
      { assert (In first (seq 0 (length img_paths)))
          by (apply (Permutation_in _ Hperm); now left).
        apply in_seq in H. lia. }
      destruct (nth_error img_paths first) as [img_path|] eqn:Hp;
        [|apply nth_error_None in Hp; lia].
      destruct (collect_size_first Tensor M img_paths first order _ _ _
                  img_path Hp Hc) as (img & h & w & Hload & ->).
      exists first, img_path, img, h, w. repeat split; auto.
Qed.

Lemma sync_loading_reports_first_completed_witness :
  exists images,
    LoadVideo.Eager [14; 14; 13; 11] = LoadVideo.Eager images /\
    exists first img_path img height width,
      hd_error [3; 1; 0; 2]%nat = Some first /\
      nth_error ["frames/1.jpeg"; "frames/01.jpg"; "frames/2.jpg";
                 "frames/10.jpg"]%string first = Some img_path /\
      Folder.load_img img_path = Ok (img, height, width) /\
      Some 480 = Some height /\ Some 640 = Some width.
Proof.
  destruct (sync_loading_reports_first_completed Z Folder.machine
              (LoadVideo.Str "frames") [3; 1; 0; 2]%nat
              ["frames/1.jpeg"; "frames/01.jpg"; "frames/2.jpg";
               "frames/10.jpg"]%string
              (LoadVideo.Eager [14; 14; 13; 11]) (Some 480) (Some 640)
              eq_refl) as (images & Hv & _ & _ & Hsize).
  - apply (Permutation_trans (l' := [0; 3; 1; 2]%nat)).
    + apply Permutation_sym.
      apply (Permutation_trans (l' := [3; 0; 1; 2]%nat));
        [apply perm_swap | apply perm_skip, perm_swap].
    + apply perm_skip.
      apply (Permutation_trans (l' := [1; 3; 2]%nat));
        [apply perm_swap | apply perm_skip, perm_swap].
  - reflexivity.
  - exists images. split; [exact Hv | exact Hsize].
Defined.
